(** * DingTalk channel adapter: merge buffer, card throttle, token cache

    A shallow embedding of the stateful core of [channel.ts] (the merge
    window of [handleDingTalkMessage], the media merge of
    [processMergedMessages], the authorization gate of
    [handleDingTalkMessageOriginal], [getAccessToken],
    [updateInteractiveCard], [updateInteractiveCardThrottled]) and of
    [retryWithBackoff] from [utils.ts].

    Conventions of the embedding.
    - A JavaScript string is a [string] holding its UTF-8 bytes.
      [trim] knows the UTF-8 encodings of the ECMAScript white space and
      line terminator code points. [toLowerCase] folds the ASCII letters
      only: it is [String.prototype.toLowerCase] on the strings of ASCII
      characters ([isAscii]), and the statements that depend on a
      lower-cased identifier are made for such strings.
    - [string | undefined] is [option string]; a value is truthy when it is
      [Some] of a non-empty string.
    - [Map<string, V>] module variables are [gmap string V]; a [Map] whose
      iteration order is observed is an association list ([jsMapSet],
      [jsMapOfEntries]).
    - The records carry the fields of the types of [types.ts] that the
      code reads; logging is left out.
    - [Date.now()] is an integer number of milliseconds passed in by the
      caller of each entry point.
    - [setTimeout] arms an entry of a timer table; [clearTimeout] deletes
      it; the event loop is the environment, which fires armed timers and
      delivers the results of network calls. *)

From Stdlib Require Import ZArith Ascii String List Lia DecimalString.
From stdpp Require Import base option list gmap strings.

Local Open Scope Z_scope.

(** ** JavaScript string primitives *)

Module Js.

Definition truthy (s : string) : bool := negb (String.eqb s EmptyString).

(** [v] of type [string | undefined] used as a condition. *)
Definition truthyO (v : option string) : bool :=
  match v with Some s => truthy s | None => false end.

(** [a || b] on [string | undefined]. *)
Definition orO (a b : option string) : option string :=
  if truthyO a then a else b.

(** [a || b] where [b] is a string. *)
Definition orS (a : option string) (b : string) : string :=
  match a with Some s => if truthy s then s else b | None => b end.

(** Template-literal interpolation of a [string | undefined]. *)
Definition show (v : option string) : string :=
  match v with Some s => s | None => "undefined" end.

Definition showNat (n : nat) : string := NilZero.string_of_uint (Nat.to_uint n).

Definition bytes (l : list nat) : string :=
  string_of_list_ascii (map ascii_of_nat l).

Definition lf : string := bytes [10%nat].

(** The code points of ECMAScript [WhiteSpace] and [LineTerminator],
    UTF-8 encoded. *)
Definition whiteSpace : list string :=
  map bytes
    [ [9]; [10]; [11]; [12]; [13]; [32]; [194; 160]; [225; 154; 128];
      [226; 128; 128]; [226; 128; 129]; [226; 128; 130]; [226; 128; 131];
      [226; 128; 132]; [226; 128; 133]; [226; 128; 134]; [226; 128; 135];
      [226; 128; 136]; [226; 128; 137]; [226; 128; 138]; [226; 128; 168];
      [226; 128; 169]; [226; 128; 175]; [226; 129; 159]; [227; 128; 128];
      [239; 187; 191] ]%nat.

Fixpoint dropPrefix (p s : string) : option string :=
  match p, s with
  | EmptyString, _ => Some s
  | String a p', String b s' => if Ascii.eqb a b then dropPrefix p' s' else None
  | String _ _, EmptyString => None
  end.

Fixpoint dropAny (ps : list string) (s : string) : option string :=
  match ps with
  | [] => None
  | p :: ps' =>
      match dropPrefix p s with
      | Some r => Some r
      | None => dropAny ps' s
      end
  end.

Fixpoint trimStartN (ws : list string) (n : nat) (s : string) : string :=
  match n with
  | O => s
  | S n' =>
      match dropAny ws s with
      | Some r => trimStartN ws n' r
      | None => s
      end
  end.

Definition trimStart (s : string) : string :=
  trimStartN whiteSpace (String.length s) s.

Definition trimEnd (s : string) : string :=
  String.rev (trimStartN (map String.rev whiteSpace) (String.length s) (String.rev s)).

Definition trim (s : string) : string := trimEnd (trimStart s).

Definition lowerAscii (c : ascii) : ascii :=
  let n := nat_of_ascii c in
  if (Nat.leb 65 n && Nat.leb n 90)%bool then ascii_of_nat (n + 32) else c.

(** [s.toLowerCase()] for a string of ASCII characters. Beyond ASCII the
    method follows the case mappings of Unicode, which are not modelled. *)
Fixpoint toLowerCase (s : string) : string :=
  match s with
  | EmptyString => EmptyString
  | String c s' => String (lowerAscii c) (toLowerCase s')
  end.


(** [p] is a lower-case pattern; match it at the start of [s] ignoring
    the case of ASCII letters (a regular expression [/^p/i]). *)
Fixpoint dropPrefixCI (p s : string) : option string :=
  match p, s with
  | EmptyString, _ => Some s
  | String a p', String b s' =>
      if Ascii.eqb a (lowerAscii b) then dropPrefixCI p' s' else None
  | String _ _, EmptyString => None
  end.

(** [arr.join(sep)]. *)
Fixpoint join (sep : string) (l : list string) : string :=
  match l with
  | [] => EmptyString
  | [x] => x
  | x :: l' => x +:+ sep +:+ join sep l'
  end.


End Js.

(** ** Authorization helpers *)

Record NormalizedAllowFrom := {
  entries : list string;
  entriesLower : list string;
  hasWildcard : bool;
  hasEntries : bool;
}.

(** [value.replace(/^(dingtalk|dd|ding):/i, '')] *)
Definition stripChannelPrefix (value : string) : string :=
  match Js.dropPrefixCI "dingtalk:" value with
  | Some r => r
  | None =>
      match Js.dropPrefixCI "dd:" value with
      | Some r => r
      | None =>
          match Js.dropPrefixCI "ding:" value with
          | Some r => r
          | None => value
          end
      end
  end.

Definition normalizeAllowFrom (list : option (list string)) : NormalizedAllowFrom :=
  let entries := filter (fun v => Js.truthy v = true) (map Js.trim (default [] list)) in
  let hasWildcard := bool_decide ("*" ∈ entries) in
  let normalized :=
    map stripChannelPrefix (filter (fun v : string => v <> "*") entries) in
  let normalizedLower := map Js.toLowerCase normalized in
  {| entries := normalized;
     entriesLower := normalizedLower;
     hasWildcard := hasWildcard;
     hasEntries := bool_decide (0 < length entries)%nat |}.

Definition isSenderAllowed (allow : NormalizedAllowFrom) (senderId : option string) : bool :=
  if negb (hasEntries allow) then true
  else if hasWildcard allow then true
  else
    match senderId with
    | Some s =>
        if (Js.truthy s && bool_decide (Js.toLowerCase s ∈ entriesLower allow))%bool
        then true else false
    | None => false
    end.

(** ** Inbound events and extracted content *)

Record RichTextPart := {
  part_type : option string;
  part_text : option string;
  part_atName : option string;
  part_atUserId : option string;
  part_downloadCode : option string;
  part_fileName : option string;
  part_url : option string;
}.

Record InboundContent := {
  c_downloadCode : option string;
  c_fileName : option string;
  c_recognition : option string;
  c_richText : option (list RichTextPart);
}.

Record DingTalkInboundMessage := {
  msgId : option string;
  msgtype : option string;
  text_content : option string;          (* data.text?.content *)
  content : option InboundContent;       (* data.content *)
  senderId : option string;
  senderStaffId : option string;
  chatbotUserId : option string;
  senderNick : option string;
  conversationId : string;
  conversationType : string;
  conversationTitle : option string;
}.

Inductive MediaKind := KImage | KFile.

Record RichTextMediaFile := {
  downloadCode : string;
  fileName : option string;
  type : MediaKind;
}.

Record RichPayload := {
  richTextParts : list RichTextPart;
  mediaFiles : list RichTextMediaFile;
}.

(** [MessageContent | RichTextContent]: [rich] is present exactly when the
    object has the [mediaFiles] and [richTextParts] properties. *)
Record MessageContent := {
  text : string;
  messageType : string;
  mediaPath : option string;
  mediaType : option string;
  rich : option RichPayload;
}.

Definition kindName (k : MediaKind) : string :=
  match k with KImage => "image" | KFile => "file" end.

Global Instance MediaKind_eq_dec : EqDecision MediaKind.
Proof. solve_decision. Defined.
Global Instance RichTextMediaFile_eq_dec : EqDecision RichTextMediaFile.
Proof. solve_decision. Defined.

(** ** [extractMessageContent] *)

Definition plainContent (t mt : string) (mp mty : option string) : MessageContent :=
  {| text := t; messageType := mt; mediaPath := mp; mediaType := mty; rich := None |}.

(** One iteration of the loop over the rich-text parts; the accumulator is
    the text built so far and the media files pushed so far. *)
Definition richTextStep (acc : string * list RichTextMediaFile) (part : RichTextPart)
  : string * list RichTextMediaFile :=
  let '(txt, media) := acc in
  let partType :=
    Js.orS (if (negb (Js.truthyO (part_type part)) && bool_decide (is_Some (part_text part)))%bool
            then Some "text" else part_type part) "unknown" in
  if String.eqb partType "text" then
    (if Js.truthyO (part_text part) then txt +:+ Js.show (part_text part) else txt, media)
  else if String.eqb partType "at" then
    (if Js.truthyO (part_atName part)
     then txt +:+ "@" +:+ Js.show (part_atName part) +:+ " " else txt, media)
  else if String.eqb partType "picture" then
    match part_downloadCode part with
    | Some dc =>
        if Js.truthy dc then
          (txt +:+ "[图片] ",
           media ++ [ {| downloadCode := dc;
                         fileName := Some (Js.orS (part_fileName part)
                                             ("image_" +:+ Js.showNat (length media + 1)));
                         type := KImage |} ])
        else (txt, media)
    | None => (txt, media)
    end
  else if String.eqb partType "image" then
    match part_downloadCode part with
    | Some dc =>
        if Js.truthy dc then
          (txt +:+ "[图片] ",
           media ++ [ {| downloadCode := dc; fileName := part_fileName part; type := KImage |} ])
        else (txt, media)
    | None => (txt, media)
    end
  else if String.eqb partType "file" then
    match part_downloadCode part with
    | Some dc =>
        if Js.truthy dc then
          (txt +:+ "[文件: " +:+ Js.orS (part_fileName part) "文件" +:+ "] ",
           media ++ [ {| downloadCode := dc; fileName := part_fileName part; type := KFile |} ])
        else (txt, media)
    | None => (txt, media)
    end
  else if String.eqb partType "link" then
    (if Js.truthyO (part_url part) then
       (if Js.truthyO (part_text part)
        then txt +:+ "[" +:+ Js.show (part_text part) +:+ "](" +:+ Js.show (part_url part) +:+ ") "
        else txt +:+ "[链接](" +:+ Js.show (part_url part) +:+ ") ")
     else txt, media)
  else
    (if Js.truthyO (part_text part) then txt +:+ Js.show (part_text part) else txt, media).

Definition contentField {A} (f : InboundContent -> option A) (data : DingTalkInboundMessage)
  : option A :=
  match content data with Some c => f c | None => None end.

Definition extractMessageContent (data : DingTalkInboundMessage) : MessageContent :=
  let msgtype := Js.orS (msgtype data) "text" in
  if String.eqb msgtype "text" then
    plainContent (Js.orS (Js.trim <$> text_content data) EmptyString) "text" None None
  else if String.eqb msgtype "richText" then
    let parts := default [] (contentField c_richText data) in
    let '(txt, media) := fold_left richTextStep parts (EmptyString, []) in
    {| text := Js.orS (Some (Js.trim txt)) "[富文本消息]";
       messageType := "richText";
       mediaPath := downloadCode <$> head media;
       mediaType := (fun m => kindName (type m)) <$> head media;
       rich := Some {| richTextParts := parts; mediaFiles := media |} |}
  else if String.eqb msgtype "picture" then
    plainContent "[图片]" "picture" (contentField c_downloadCode data) (Some "image")
  else if String.eqb msgtype "audio" then
    plainContent (Js.orS (contentField c_recognition data) "[语音消息]") "audio"
      (contentField c_downloadCode data) (Some "audio")
  else if String.eqb msgtype "video" then
    plainContent "[视频]" "video" (contentField c_downloadCode data) (Some "video")
  else if String.eqb msgtype "file" then
    plainContent ("[文件: " +:+ Js.orS (contentField c_fileName data) "文件" +:+ "]") "file"
      (contentField c_downloadCode data) (Some "file")
  else
    plainContent (Js.orS (Js.trim <$> text_content data) ("[" +:+ msgtype +:+ "消息]"))
      msgtype None None.

(** ** [processMergedMessages] *)

Record DingTalkConfig := {
  clientId : option string;
  clientSecret : option string;
  dmPolicy : option string;
  allowFrom : option (list string);
  cardUpdateApiUrl : option string;
}.

Record HandleDingTalkMessageParams := {
  accountId : string;
  data : DingTalkInboundMessage;
  sessionWebhook : string;
  dingtalkConfig : DingTalkConfig;
}.

Record MergedMessage := {
  m_content : MessageContent;
  m_data : DingTalkInboundMessage;
  m_timestamp : Z;
}.

(** A JavaScript [Map] with string keys, in insertion order: [set] on a
    key that is present replaces the value and keeps the key's position. *)
Section JsMap.
Context {V : Type}.

Fixpoint jsMapSet (k : string) (v : V) (m : list (string * V)) : list (string * V) :=
  match m with
  | [] => [(k, v)]
  | (k', v') :: m' =>
      if String.eqb k' k then (k', v) :: m' else (k', v') :: jsMapSet k v m'
  end.

(** [new Map(entries)] *)
Definition jsMapOfEntries (l : list (string * V)) : list (string * V) :=
  fold_left (fun m kv => jsMapSet kv.1 kv.2 m) l [].

(** [Array.from(m.values())] *)
Definition jsMapValues (m : list (string * V)) : list V := map snd m.
End JsMap.

Definition blankLine : string := Js.lf +:+ Js.lf.

Definition mergedText (msgs : list MergedMessage) : string :=
  Js.join blankLine
    (filter (fun t => Js.truthy t = true) (map (fun m => text (m_content m)) msgs)).

(** The body of the [forEach] that collects the media of one message. *)
Definition messageMedia (m : MergedMessage) : list RichTextMediaFile :=
  let viaPath :=
    match mediaPath (m_content m) with
    | Some p =>
        if Js.truthy p then
          [ {| downloadCode := p;
               fileName := Some (Js.orS (contentField c_fileName (m_data m))
                                   ("media_" +:+ Js.show (msgId (m_data m))));
               type := if bool_decide (mediaType (m_content m) = Some "image")
                       then KImage else KFile |} ]
        else []
    | None => []
    end in
  match rich (m_content m) with
  | Some r => if bool_decide (0 < length (mediaFiles r))%nat then mediaFiles r else viaPath
  | None => viaPath
  end.

Definition allMediaFiles (msgs : list MergedMessage) : list RichTextMediaFile :=
  concat (map messageMedia msgs).

Definition dedupByDownloadCode (all : list RichTextMediaFile) : list RichTextMediaFile :=
  jsMapValues (jsMapOfEntries (map (fun m => (downloadCode m, m)) all)).

Definition uniqueMediaFiles (msgs : list MergedMessage) : list RichTextMediaFile :=
  dedupByDownloadCode (allMediaFiles msgs).

Definition allRichTextParts (msgs : list MergedMessage) : list RichTextPart :=
  concat (map (fun m => match rich (m_content m) with
                        | Some r => richTextParts r
                        | None => []
                        end) msgs).

Definition mergedPlaceholder : string := "[合并消息]".

Definition mergedContent (msgs : list MergedMessage) : MessageContent :=
  let uniq := uniqueMediaFiles msgs in
  {| text := Js.orS (Some (mergedText msgs)) mergedPlaceholder;
     messageType := "richText";
     mediaPath := downloadCode <$> head uniq;
     mediaType := (fun m => kindName (type m)) <$> head uniq;
     rich := Some {| richTextParts := allRichTextParts msgs; mediaFiles := uniq |} |}.

(** One invocation of [handleDingTalkMessageOriginal]. *)
Record PipelineCall := {
  call_params : HandleDingTalkMessageParams;
  call_content : option MessageContent;     (* preExtractedContent *)
}.

(** [processMergedMessages] builds the merged content and calls the
    pipeline once; with no message [entry.messages[0].data] raises a
    [TypeError] before the call ([None]). *)
Definition processMergedMessages (msgs : list MergedMessage)
    (params : HandleDingTalkMessageParams) : option PipelineCall :=
  match msgs with
  | [] => None
  | firstMessage :: _ =>
      Some {| call_params :=
                {| accountId := accountId params;
                   data := m_data firstMessage;
                   sessionWebhook := sessionWebhook params;
                   dingtalkConfig := dingtalkConfig params |};
              call_content := Some (mergedContent msgs) |}
  end.

(** ** The head of the inbound pipeline: text guard and DM authorization *)

Inductive PipelineOutcome :=
| SkippedNoText
    (* [if (!content.text) return] *)
| AccessDenied (webhook notice : string)
    (* [sendBySession(dingtalkConfig, sessionWebhook, notice)] attempted,
       its failure caught, then [return] *)
| Dispatched (isDirect : bool) (peerId : option string) (c : MessageContent).
    (* route resolution with this peer and every later step *)

Definition denialNotice (sender : option string) : string :=
  "⛔ 访问受限" +:+ blankLine +:+ "您的用户ID：`" +:+ Js.show sender +:+ "`" +:+ blankLine
  +:+ "请联系管理员将此ID添加到允许列表中。".

Definition handleDingTalkMessageOriginal (call : PipelineCall) : PipelineOutcome :=
  let params := call_params call in
  let d := data params in
  let content :=
    match call_content call with
    | Some c => c
    | None => extractMessageContent d
    end in
  if negb (Js.truthy (text content)) then SkippedNoText
  else
    let isDirect := String.eqb (conversationType d) "1" in
    let sender := Js.orO (senderStaffId d) (senderId d) in
    let groupId := conversationId d in
    let proceed := Dispatched isDirect (if isDirect then sender else Some groupId) content in
    if isDirect then
      let policy := Js.orS (dmPolicy (dingtalkConfig params)) "open" in
      let allow := default [] (allowFrom (dingtalkConfig params)) in
      if String.eqb policy "allowlist" then
        if isSenderAllowed (normalizeAllowFrom (Some allow)) sender
        then proceed
        else AccessDenied (sessionWebhook params) (denialNotice sender)
      else proceed
    else proceed.

(** ** The message merge buffer *)

Definition MESSAGE_MERGE_WINDOW_MS : Z := 2000.
Definition MESSAGE_MERGE_MAX_MESSAGES : nat := 5.

Record MergedMessageEntry := {
  messages : list MergedMessage;
  timer : nat;
  e_accountId : string;
  e_senderId : option string;
  sessionKey : string;
  startTime : Z;
}.

(** The closure handed to [setTimeout] on the first message of a window:
    it captures [cacheKey] and the [params] of that message. *)
Record MergeTimer := {
  mt_due : Z;
  mt_cacheKey : string;
  mt_params : HandleDingTalkMessageParams;
}.

Record MergeState := {
  messageMergeCache : gmap string MergedMessageEntry;
  mergeTimers : gmap nat MergeTimer;          (* armed timers by handle *)
  nextMergeTimer : nat;                       (* next fresh handle *)
  pipelineCalls : list PipelineCall;          (* pipeline invocations, oldest first *)
}.

Definition emptyMergeState : MergeState :=
  {| messageMergeCache := ∅; mergeTimers := ∅; nextMergeTimer := 0;
     pipelineCalls := [] |}.

Definition isSelfMessage (d : DingTalkInboundMessage) : bool :=
  (bool_decide (senderId d = chatbotUserId d)
   || bool_decide (senderStaffId d = chatbotUserId d))%bool.

Definition keySender (d : DingTalkInboundMessage) : option string :=
  Js.orO (senderStaffId d) (senderId d).

Definition cacheKeyOf (params : HandleDingTalkMessageParams) : string :=
  accountId params +:+ ":" +:+ Js.show (keySender (data params)) +:+ ":"
  +:+ conversationId (data params).

Definition newMessage (now : Z) (d : DingTalkInboundMessage) : MergedMessage :=
  {| m_content := extractMessageContent d; m_data := d; m_timestamp := now |}.

(** Run [processMergedMessages] and log the pipeline invocation it makes. *)
Definition flush (msgs : list MergedMessage) (params : HandleDingTalkMessageParams)
    (calls : list PipelineCall) : list PipelineCall :=
  match processMergedMessages msgs params with
  | Some c => calls ++ [c]
  | None => calls
  end.

Definition handleDingTalkMessage (now : Z) (params : HandleDingTalkMessageParams)
    (s : MergeState) : MergeState :=
  let d := data params in
  if isSelfMessage d then s
  else
    let cacheKey := cacheKeyOf params in
    match messageMergeCache s !! cacheKey with
    | Some existingEntry =>
        let msgs := messages existingEntry ++ [newMessage now d] in
        let entry' :=
          {| messages := msgs; timer := timer existingEntry;
             e_accountId := e_accountId existingEntry;
             e_senderId := e_senderId existingEntry;
             sessionKey := sessionKey existingEntry;
             startTime := startTime existingEntry |} in
        if bool_decide (MESSAGE_MERGE_MAX_MESSAGES <= length msgs)%nat then
          {| messageMergeCache := delete cacheKey (messageMergeCache s);
             mergeTimers := delete (timer existingEntry) (mergeTimers s);
             nextMergeTimer := nextMergeTimer s;
             pipelineCalls := flush msgs params (pipelineCalls s) |}
        else
          {| messageMergeCache := <[cacheKey := entry']> (messageMergeCache s);
             mergeTimers := mergeTimers s;
             nextMergeTimer := nextMergeTimer s;
             pipelineCalls := pipelineCalls s |}
    | None =>
        let handle := nextMergeTimer s in
        let entry :=
          {| messages := [newMessage now d]; timer := handle;
             e_accountId := accountId params; e_senderId := keySender d;
             sessionKey := EmptyString; startTime := now |} in
        {| messageMergeCache := <[cacheKey := entry]> (messageMergeCache s);
           mergeTimers :=
             <[handle := {| mt_due := now + MESSAGE_MERGE_WINDOW_MS;
                            mt_cacheKey := cacheKey; mt_params := params |}]>
               (mergeTimers s);
           nextMergeTimer := S handle;
           pipelineCalls := pipelineCalls s |}
    end.

(** The window timer fires: the callback of line 1442. A handle that is
    not armed (never set, cleared, or already fired) does nothing. *)
Definition fireMergeTimer (handle : nat) (s : MergeState) : MergeState :=
  match mergeTimers s !! handle with
  | None => s
  | Some t =>
      let timers' := delete handle (mergeTimers s) in
      match messageMergeCache s !! mt_cacheKey t with
      | Some cached =>
          if bool_decide (0 < length (messages cached))%nat then
            {| messageMergeCache := delete (mt_cacheKey t) (messageMergeCache s);
               mergeTimers := timers';
               nextMergeTimer := nextMergeTimer s;
               pipelineCalls := flush (messages cached) (mt_params t) (pipelineCalls s) |}
          else
            {| messageMergeCache := messageMergeCache s; mergeTimers := timers';
               nextMergeTimer := nextMergeTimer s; pipelineCalls := pipelineCalls s |}
      | None =>
          {| messageMergeCache := messageMergeCache s; mergeTimers := timers';
             nextMergeTimer := nextMergeTimer s; pipelineCalls := pipelineCalls s |}
      end
  end.

(** The five-minute sweep: entries older than ten seconds are dropped and
    their timers cleared, without processing. *)
Definition isStale (now : Z) (e : MergedMessageEntry) : bool :=
  bool_decide (10000 < now - startTime e).

Definition sweepMergeCache (now : Z) (s : MergeState) : MergeState :=
  let stale := filter (fun kv => isStale now kv.2 = true) (messageMergeCache s) in
  {| messageMergeCache :=
       filter (fun kv => isStale now kv.2 = false) (messageMergeCache s);
     mergeTimers :=
       foldr (fun kv timers => delete (timer kv.2) timers) (mergeTimers s)
             (map_to_list stale);
     nextMergeTimer := nextMergeTimer s;
     pipelineCalls := pipelineCalls s |}.

Inductive MergeEvent :=
| Inbound (now : Z) (params : HandleDingTalkMessageParams)
| WindowElapsed (handle : nat)
| Sweep (now : Z).

Definition mergeStep (s : MergeState) (ev : MergeEvent) : MergeState :=
  match ev with
  | Inbound now params => handleDingTalkMessage now params s
  | WindowElapsed handle => fireMergeTimer handle s
  | Sweep now => sweepMergeCache now s
  end.

Definition mergeRun (s : MergeState) (evs : list MergeEvent) : MergeState :=
  fold_left mergeStep evs s.

(** ** Network calls: token cache, retry helper, card update

    [getAccessToken] and [updateInteractiveCard] are followed from their
    first statement to their return or throw as one thread of control: the
    module state they read after an [await] is the state they left before
    it. Every request they make is logged, and the remote platform decides
    each answer. A backoff wait advances the clock by its delay. *)

Record TokenInfo := {
  ti_accessToken : string;
  ti_expireIn : Z;
}.

Record CardInstance := {
  ci_cardBizId : string;
  ci_conversationId : string;
  createdAt : Z;
  lastUpdated : Z;
}.

Inductive HttpRequest :=
| PostAccessToken (appKey appSecret : option string)
| PutCard (url token cardBizId text : string).

(** What [axios] rejects with carries [err.response?.status]; the helper
    itself throws ['Retry exhausted without returning']. *)
Inductive JsError :=
| AxiosError (status : option Z)
| RetryExhausted.

(** The remote platform: the answer to a request may depend on every
    request made before it. [inl] is a rejection with its HTTP status
    ([None] when there is no response), [inr] the response body. *)
Record Remote := {
  tokenEndpoint : list HttpRequest -> HttpRequest -> option Z + TokenInfo;
  cardEndpoint : list HttpRequest -> HttpRequest -> option Z + string;
}.

Record World := {
  accessToken : option string;
  accessTokenExpiry : Z;
  cardInstances : gmap string CardInstance;
  requests : list HttpRequest;          (* network calls made, oldest first *)
  slept : list Z;                       (* backoff delays awaited, oldest first *)
  clock : Z;                            (* Date.now() *)
}.

(** Code that reads and writes the module state and may throw. *)
Definition Async (A : Type) : Type := World -> (JsError + A) * World.

Definition ret {A} (a : A) : Async A := fun w => (inr a, w).
Definition throw {A} (e : JsError) : Async A := fun w => (inl e, w).
Definition bind {A B} (m : Async A) (k : A -> Async B) : Async B :=
  fun w => match m w with
           | (inr a, w') => k a w'
           | (inl e, w') => (inl e, w')
           end.
Definition tryCatch {A} (m : Async A) (handler : JsError -> Async A) : Async A :=
  fun w => match m w with
           | (inr a, w') => (inr a, w')
           | (inl e, w') => handler e w'
           end.

Notation "x <- m ;; k" := (bind m (fun x => k))
  (at level 100, m at next level, right associativity).

Definition errorStatus (e : JsError) : option Z :=
  match e with AxiosError st => st | RetryExhausted => None end.

Definition isRetryable (e : JsError) : bool :=
  match errorStatus e with
  | Some st => (Z.eqb st 401 || Z.eqb st 429 || (negb (Z.eqb st 0) && Z.leb 500 st))%bool
  | None => false
  end.

(** [await new Promise((resolve) => setTimeout(resolve, delayMs))] *)
Definition afterSleep (delayMs : Z) (w : World) : World :=
  {| accessToken := accessToken w; accessTokenExpiry := accessTokenExpiry w;
     cardInstances := cardInstances w; requests := requests w;
     slept := slept w ++ [delayMs]; clock := clock w + delayMs |}.

Definition sleep (delayMs : Z) : Async unit :=
  fun w => (inr tt, afterSleep delayMs w).

(** The [for (attempt = 1; attempt <= maxRetries; attempt++)] loop with
    [remaining = maxRetries - attempt + 1] iterations left. *)
Fixpoint retryLoop {A} (fn : Async A) (maxRetries : nat) (baseDelayMs : Z)
    (remaining attempt : nat) : Async A :=
  match remaining with
  | O => throw RetryExhausted
  | S remaining' =>
      tryCatch fn (fun err =>
        if (negb (isRetryable err) || Nat.eqb attempt maxRetries)%bool then throw err
        else
          _ <- sleep (baseDelayMs * 2 ^ (Z.of_nat attempt - 1)) ;;
          retryLoop fn maxRetries baseDelayMs remaining' (S attempt))
  end.

Definition retryWithBackoff {A} (fn : Async A) (maxRetries : nat) : Async A :=
  retryLoop fn maxRetries 100 maxRetries 1.

Definition MAX_RETRIES : nat := 3.
Definition TOKEN_SAFETY_MARGIN : Z := 60000.

Section Network.
Context (remote : Remote).

Definition logRequest (r : HttpRequest) (w : World) : World :=
  {| accessToken := accessToken w; accessTokenExpiry := accessTokenExpiry w;
     cardInstances := cardInstances w; requests := requests w ++ [r];
     slept := slept w; clock := clock w |}.

(** The callback passed to [retryWithBackoff] by [getAccessToken]; [now]
    was read before the first attempt. *)
Definition requestAccessToken (config : DingTalkConfig) (now : Z) : Async string :=
  fun w =>
    let req := PostAccessToken (clientId config) (clientSecret config) in
    match tokenEndpoint remote (requests w) req with
    | inr info =>
        (inr (ti_accessToken info),
         {| accessToken := Some (ti_accessToken info);
            accessTokenExpiry := now + ti_expireIn info * 1000;
            cardInstances := cardInstances w; requests := requests w ++ [req];
            slept := slept w; clock := clock w |})
    | inl status => (inl (AxiosError status), logRequest req w)
    end.

Definition getAccessToken (config : DingTalkConfig) : Async string :=
  fun w =>
    let now := clock w in
    match accessToken w with
    | Some tok =>
        if (Js.truthy tok && Z.ltb (now + TOKEN_SAFETY_MARGIN) (accessTokenExpiry w))%bool
        then (inr tok, w)
        else retryWithBackoff (requestAccessToken config now) MAX_RETRIES w
    | None => retryWithBackoff (requestAccessToken config now) MAX_RETRIES w
    end.

Definition defaultCardUpdateUrl : string :=
  "https://api.dingtalk.com/v1.0/im/robots/interactiveCards".

Definition putCardOnce (url token cardBizId text : string) : Async string :=
  fun w =>
    let req := PutCard url token cardBizId text in
    match cardEndpoint remote (requests w) req with
    | inr body => (inr body, logRequest req w)
    | inl status => (inl (AxiosError status), logRequest req w)
    end.

Definition touchCard (cardBizId : string) : Async unit :=
  fun w =>
    (inr tt,
     {| accessToken := accessToken w; accessTokenExpiry := accessTokenExpiry w;
        cardInstances :=
          match cardInstances w !! cardBizId with
          | Some instance =>
              <[cardBizId := {| ci_cardBizId := ci_cardBizId instance;
                                ci_conversationId := ci_conversationId instance;
                                createdAt := createdAt instance;
                                lastUpdated := clock w |}]> (cardInstances w)
          | None => cardInstances w
          end;
        requests := requests w; slept := slept w; clock := clock w |}).

Definition removeCard (cardBizId : string) : Async unit :=
  fun w =>
    (inr tt,
     {| accessToken := accessToken w; accessTokenExpiry := accessTokenExpiry w;
        cardInstances := delete cardBizId (cardInstances w);
        requests := requests w; slept := slept w; clock := clock w |}).

Definition isTerminalStatus (status : option Z) : bool :=
  match status with
  | Some st => (Z.eqb st 404 || Z.eqb st 410 || Z.eqb st 403)%bool
  | None => false
  end.

(** The request carries the card id and the text; the title and markdown
    flag that the payload derives from the text are left out. *)
Definition updateInteractiveCard (config : DingTalkConfig) (cardBizId text : string)
  : Async string :=
  token <- getAccessToken config ;;
  let apiUrl := Js.orS (cardUpdateApiUrl config) defaultCardUpdateUrl in
  tryCatch
    (result <- retryWithBackoff (putCardOnce apiUrl token cardBizId text) MAX_RETRIES ;;
     _ <- touchCard cardBizId ;;
     ret result)
    (fun err =>
       if isTerminalStatus (errorStatus err)
       then _ <- removeCard cardBizId ;; throw err
       else throw err).

End Network.

Definition isPutCard (r : HttpRequest) : bool :=
  match r with PutCard _ _ _ _ => true | PostAccessToken _ _ => false end.

Definition isPostAccessToken (r : HttpRequest) : bool :=
  match r with PostAccessToken _ _ => true | PutCard _ _ _ _ => false end.

(** ** The card update throttle

    Here a call of [updateInteractiveCard] is an event of its own: it is
    logged when it is started ([updateCalls]) and stays in [inflight] until
    the event loop delivers its result, so that requests and timers may
    come in between. A promise returned to a caller is a key of
    [promises]. *)

Definition CARD_UPDATE_MIN_INTERVAL : Z := 500.
Definition CARD_UPDATE_TIMEOUT : Z := 60000.

Inductive PromiseState :=
| Pending
| Fulfilled (result : string)
| Rejected (err : JsError).

Inductive CardTimerCallback :=
| ScheduledUpdate (cardBizId text : string) (promise : nat)
    (* the [async () => { ... }] of line 1227 with its [resolve]/[reject] *)
| InactivityFinalize (cardBizId : string).
    (* [() => cardUpdateTimeouts.delete(cardBizId)] *)

Record CardTimer := {
  ct_due : Z;
  ct_callback : CardTimerCallback;
}.

(** A call of [updateInteractiveCard] that has been started and whose
    result is awaited; [op_promise] is settled by the continuation. *)
Record InflightUpdate := {
  op_cardBizId : string;
  op_text : string;
  op_promise : nat;
}.

Record UpdateCall := {
  uc_time : Z;
  uc_cardBizId : string;
  uc_text : string;
}.

Record ThrottleState := {
  cardUpdateTimestamps : gmap string Z;
  cardUpdateTimeouts : gmap string nat;       (* timer handle per card *)
  cardTimers : gmap nat CardTimer;            (* armed timers by handle *)
  nextCardTimer : nat;
  promises : gmap nat PromiseState;           (* promises returned to callers *)
  nextPromise : nat;
  inflight : gmap nat InflightUpdate;
  nextOp : nat;
  updateCalls : list UpdateCall;              (* calls of updateInteractiveCard *)
}.

Definition emptyThrottleState : ThrottleState :=
  {| cardUpdateTimestamps := ∅; cardUpdateTimeouts := ∅; cardTimers := ∅;
     nextCardTimer := 0; promises := ∅; nextPromise := 0; inflight := ∅;
     nextOp := 0; updateCalls := [] |}.

(** [clearTimeout(cardUpdateTimeouts.get(cardBizId))] *)
Definition clearCardTimeout (cardBizId : string) (s : ThrottleState) : gmap nat CardTimer :=
  match cardUpdateTimeouts s !! cardBizId with
  | Some handle => delete handle (cardTimers s)
  | None => cardTimers s
  end.

(** [cardUpdateTimestamps.set(cardBizId, now)] followed by the call of
    [updateInteractiveCard], on behalf of [promise]. *)
Definition startUpdate (now : Z) (cardBizId text : string) (promise : nat)
    (timers : gmap nat CardTimer) (s : ThrottleState) : ThrottleState :=
  {| cardUpdateTimestamps := <[cardBizId := now]> (cardUpdateTimestamps s);
     cardUpdateTimeouts := cardUpdateTimeouts s;
     cardTimers := timers;
     nextCardTimer := nextCardTimer s;
     promises := promises s;
     nextPromise := nextPromise s;
     inflight :=
       <[nextOp s := {| op_cardBizId := cardBizId; op_text := text;
                        op_promise := promise |}]> (inflight s);
     nextOp := S (nextOp s);
     updateCalls :=
       updateCalls s ++ [ {| uc_time := now; uc_cardBizId := cardBizId; uc_text := text |} ] |}.

(** The promise the call returns is [nextPromise s]. *)
Definition updateInteractiveCardThrottled (now : Z) (cardBizId text : string)
    (s : ThrottleState) : ThrottleState :=
  let lastUpdate := default 0 (cardUpdateTimestamps s !! cardBizId) in
  let timeSinceLastUpdate := now - lastUpdate in
  let timers := clearCardTimeout cardBizId s in
  let promise := nextPromise s in
  let s1 :=
    {| cardUpdateTimestamps := cardUpdateTimestamps s;
       cardUpdateTimeouts := cardUpdateTimeouts s;
       cardTimers := timers;
       nextCardTimer := nextCardTimer s;
       promises := <[promise := Pending]> (promises s);
       nextPromise := S promise;
       inflight := inflight s;
       nextOp := nextOp s;
       updateCalls := updateCalls s |} in
  if Z.leb CARD_UPDATE_MIN_INTERVAL timeSinceLastUpdate then
    startUpdate now cardBizId text promise timers s1
  else
    let delay := CARD_UPDATE_MIN_INTERVAL - timeSinceLastUpdate in
    let handle := nextCardTimer s in
    {| cardUpdateTimestamps := cardUpdateTimestamps s;
       cardUpdateTimeouts := <[cardBizId := handle]> (cardUpdateTimeouts s);
       cardTimers :=
         <[handle := {| ct_due := now + delay;
                        ct_callback := ScheduledUpdate cardBizId text promise |}]> timers;
       nextCardTimer := S handle;
       promises := <[promise := Pending]> (promises s);
       nextPromise := S promise;
       inflight := inflight s;
       nextOp := nextOp s;
       updateCalls := updateCalls s |}.

(** An armed timer fires at time [now]. *)
Definition fireCardTimer (now : Z) (handle : nat) (s : ThrottleState) : ThrottleState :=
  match cardTimers s !! handle with
  | None => s
  | Some t =>
      let timers := delete handle (cardTimers s) in
      match ct_callback t with
      | InactivityFinalize cardBizId =>
          {| cardUpdateTimestamps := cardUpdateTimestamps s;
             cardUpdateTimeouts := delete cardBizId (cardUpdateTimeouts s);
             cardTimers := timers;
             nextCardTimer := nextCardTimer s;
             promises := promises s;
             nextPromise := nextPromise s;
             inflight := inflight s;
             nextOp := nextOp s;
             updateCalls := updateCalls s |}
      | ScheduledUpdate cardBizId text promise =>
          startUpdate now cardBizId text promise timers s
      end
  end.

(** The awaited [updateInteractiveCard] call [op] completes at time [now]:
    on success the inactivity timer is armed and registered and the promise
    resolved; on failure the promise is rejected. *)
Definition settleUpdate (now : Z) (op : nat) (outcome : JsError + string)
    (s : ThrottleState) : ThrottleState :=
  match inflight s !! op with
  | None => s
  | Some o =>
      match outcome with
      | inr result =>
          let handle := nextCardTimer s in
          {| cardUpdateTimestamps := cardUpdateTimestamps s;
             cardUpdateTimeouts := <[op_cardBizId o := handle]> (cardUpdateTimeouts s);
             cardTimers :=
               <[handle := {| ct_due := now + CARD_UPDATE_TIMEOUT;
                              ct_callback := InactivityFinalize (op_cardBizId o) |}]>
                 (cardTimers s);
             nextCardTimer := S handle;
             promises := <[op_promise o := Fulfilled result]> (promises s);
             nextPromise := nextPromise s;
             inflight := delete op (inflight s);
             nextOp := nextOp s;
             updateCalls := updateCalls s |}
      | inl err =>
          {| cardUpdateTimestamps := cardUpdateTimestamps s;
             cardUpdateTimeouts := cardUpdateTimeouts s;
             cardTimers := cardTimers s;
             nextCardTimer := nextCardTimer s;
             promises := <[op_promise o := Rejected err]> (promises s);
             nextPromise := nextPromise s;
             inflight := delete op (inflight s);
             nextOp := nextOp s;
             updateCalls := updateCalls s |}
      end
  end.

(** [cleanupCardCache] for one expired card: its timestamp is dropped and
    its registered timer cleared. *)
Definition cleanupCard (s : ThrottleState) (cardBizId : string) : ThrottleState :=
  {| cardUpdateTimestamps := delete cardBizId (cardUpdateTimestamps s);
     cardUpdateTimeouts := delete cardBizId (cardUpdateTimeouts s);
     cardTimers := clearCardTimeout cardBizId s;
     nextCardTimer := nextCardTimer s;
     promises := promises s;
     nextPromise := nextPromise s;
     inflight := inflight s;
     nextOp := nextOp s;
     updateCalls := updateCalls s |}.

(** [stopCardCacheCleanup]: every registered timer is cleared. *)
Definition stopCardCacheCleanup (s : ThrottleState) : ThrottleState :=
  {| cardUpdateTimestamps := cardUpdateTimestamps s;
     cardUpdateTimeouts := ∅;
     cardTimers :=
       foldr (fun kv timers => delete kv.2 timers) (cardTimers s)
             (map_to_list (cardUpdateTimeouts s));
     nextCardTimer := nextCardTimer s;
     promises := promises s;
     nextPromise := nextPromise s;
     inflight := inflight s;
     nextOp := nextOp s;
     updateCalls := updateCalls s |}.

Inductive CardEvent :=
| UpdateRequest (now : Z) (cardBizId text : string)
| TimerFired (now : Z) (handle : nat)
| UpdateSettled (now : Z) (op : nat) (outcome : JsError + string)
| CacheCleanup (expired : list string)
| CleanupStopped.

Definition cardStep (s : ThrottleState) (ev : CardEvent) : ThrottleState :=
  match ev with
  | UpdateRequest now cardBizId text => updateInteractiveCardThrottled now cardBizId text s
  | TimerFired now handle => fireCardTimer now handle s
  | UpdateSettled now op outcome => settleUpdate now op outcome s
  | CacheCleanup expired => fold_left cleanupCard expired s
  | CleanupStopped => stopCardCacheCleanup s
  end.

Definition cardRun (s : ThrottleState) (evs : list CardEvent) : ThrottleState :=
  fold_left cardStep evs s.

(** ** [cleanupCardCache]

    The card registry and the maps of the throttle are variables of one
    module; the periodic cleanup runs over both. The cards it visits are
    those of the registry: a card that has throttle state and no registry
    entry is not visited. *)

Definition CARD_CACHE_TTL : Z := 60 * 60 * 1000.

Definition isExpired (now : Z) (instance : CardInstance) : bool :=
  bool_decide (CARD_CACHE_TTL < now - lastUpdated instance).

Definition cleanupCardCache (now : Z) (instances : gmap string CardInstance)
    (s : ThrottleState) : gmap string CardInstance * ThrottleState :=
  let expired := filter (fun kv => isExpired now kv.2 = true) instances in
  (filter (fun kv => isExpired now kv.2 = false) instances,
   fold_left cleanupCard (map fst (map_to_list expired)) s).

(** ** Functions that count UTF-16 code units

    [length], [slice] and [substring] count UTF-16 code units, and a
    character class of a regular expression without the [u] flag matches
    one code unit. For the functions below a JavaScript string is the list
    of its code units. *)

(** The character class of the regular expression: backslash, slash,
    colon, asterisk, question mark, double quote, less-than, greater-than
    and vertical bar. *)
Definition forbiddenInFileName (c : N) : bool :=
  bool_decide (c ∈ [92; 47; 58; 42; 63; 34; 60; 62; 124]%N).

Definition sanitizeFileName (fileName : list N) : list N :=
  take 255 ((fun c => if forbiddenInFileName c then 95%N else c) <$> fileName).

(** *** [detectMarkdownAndExtractTitle] *)

Record SendMessageOptions := {
  useMarkdown : option bool;
  title : option (list N);
}.

(** [\s]: the white space and line terminator code units. *)
Definition whiteSpaceUnits : list N :=
  [9; 10; 11; 12; 13; 32; 160; 5760; 8192; 8193; 8194; 8195; 8196; 8197; 8198; 8199;
   8200; 8201; 8202; 8232; 8233; 8239; 8287; 12288; 65279]%N.

(** [/^[#*>-]|[*_`#[\]]/.test(text) || text.includes('\n')] *)
Definition hasMarkdown (text : list N) : bool :=
  (match text with
   | c :: _ => bool_decide (c ∈ [35; 42; 62; 45]%N)
   | [] => false
   end
   || existsb (fun c => bool_decide (c ∈ [42; 95; 96; 35; 91; 93]%N)) text
   || bool_decide (10%N ∈ text))%bool.

(** [text.split('\n')[0]] *)
Fixpoint firstLine (text : list N) : list N :=
  match text with
  | [] => []
  | c :: text' => if N.eqb c 10 then [] else c :: firstLine text'
  end.

(** [s.replace(/^[#*\s\->]+/, '')] *)
Fixpoint stripTitleLead (s : list N) : list N :=
  match s with
  | [] => []
  | c :: s' =>
      if bool_decide (c ∈ [35; 42; 45; 62]%N ++ whiteSpaceUnits) then stripTitleLead s'
      else s
  end.

(** [a || b] on strings. *)
Definition orUnits (a b : list N) : list N :=
  match a with [] => b | _ :: _ => a end.

(** The pair is [{ useMarkdown, title }]. *)
Definition detectMarkdownAndExtractTitle (text : list N) (options : SendMessageOptions)
    (defaultTitle : list N) : bool * list N :=
  let useMd :=
    match useMarkdown options with
    | Some false => false
    | Some true => true
    | None => hasMarkdown text
    end in
  let derived :=
    if useMd then orUnits (take 20 (stripTitleLead (firstLine text))) defaultTitle
    else defaultTitle in
  (useMd, orUnits (default [] (title options)) derived).

(** *** [maskSensitiveData]

    [data] is a JSON value: the result of the round trip through
    [JSON.stringify] and [JSON.parse] that the function starts with. The
    fields of an object and the elements of an array come in the order of
    [for ... in]. *)

#[local] Unset Elimination Schemes.

Inductive Json :=
| JNull
| JBool (b : bool)
| JNumber (n : Z)
| JString (s : list N)
| JArray (items : list Json)
| JObject (fields : list (string * Json)).

#[local] Set Elimination Schemes.

Definition sensitiveFields : list string := ["token"; "accessToken"].

(** [val.slice(0, 3) + '*'.repeat(val.length - 6) + val.slice(-3)] when
    [val.length > 6], ['*'.repeat(val.length)] otherwise. *)
Definition maskString (val : list N) : list N :=
  if bool_decide (6 < length val)%nat
  then take 3 val ++ replicate (length val - 6) 42%N ++ drop (length val - 3) val
  else replicate (length val) 42%N.

Fixpoint maskObj (obj : Json) : Json :=
  match obj with
  | JObject fields =>
      JObject
        (map (fun kv : string * Json =>
                if bool_decide (kv.1 ∈ sensitiveFields) then
                  match kv.2 with
                  | JString val => (kv.1, JString (maskString val))
                  | _ => kv
                  end
                else (kv.1, maskObj kv.2))
             fields)
  | JArray items => JArray (map maskObj items)
  | _ => obj
  end.

Definition maskSensitiveData (data : Json) : Json := maskObj data.

(** * Vocabulary of the statements and sample inputs *)

(** The reading of the specification: of the entries that share a download
    identifier the first one is kept. *)
Fixpoint specDedupKeepFirst (l : list RichTextMediaFile) : list RichTextMediaFile :=
  match l with
  | [] => []
  | m :: l' =>
      m :: filter (fun m' => downloadCode m' <> downloadCode m) (specDedupKeepFirst l')
  end.

Fixpoint firstOccurrences (l : list string) : list string :=
  match l with
  | [] => []
  | k :: l' => k :: filter (fun k' => k' <> k) (firstOccurrences l')
  end.

(** Sample events used by the closed examples below. *)
Module Samples.

Definition config (policy : option string) (allow : option (list string)) : DingTalkConfig :=
  {| clientId := Some "app-key"; clientSecret := Some "app-secret";
     dmPolicy := policy; allowFrom := allow; cardUpdateApiUrl := None |}.

Definition event (id kind : string) (body : option string) (c : option InboundContent)
  : DingTalkInboundMessage :=
  {| msgId := Some id; msgtype := Some kind; text_content := body; content := c;
     senderId := Some "sender-1"; senderStaffId := Some "staff-1";
     chatbotUserId := Some "bot-1"; senderNick := Some "Ann";
     conversationId := "cid-1"; conversationType := "1"; conversationTitle := None |}.

Definition textEvent (id body : string) : DingTalkInboundMessage :=
  event id "text" (Some body) None.

Definition picturePart (code : string) : RichTextPart :=
  {| part_type := Some "picture"; part_text := None; part_atName := None;
     part_atUserId := None; part_downloadCode := Some code; part_fileName := None;
     part_url := None |}.

Definition richEvent (id : string) (parts : list RichTextPart) : DingTalkInboundMessage :=
  event id "richText" None
    (Some {| c_downloadCode := None; c_fileName := None; c_recognition := None;
             c_richText := Some parts |}).

Definition fileEvent (id code name : string) : DingTalkInboundMessage :=
  event id "file" None
    (Some {| c_downloadCode := Some code; c_fileName := Some name;
             c_recognition := None; c_richText := None |}).

Definition params (policy : option string) (allow : option (list string))
    (d : DingTalkInboundMessage) : HandleDingTalkMessageParams :=
  {| accountId := "acct"; data := d; sessionWebhook := "https://hook.example/s1";
     dingtalkConfig := config policy allow |}.

End Samples.

(** Two rich-text messages of one window: the picture of the first comes
    again as the second picture of the second message. *)
Definition sameCodeMessages : list MergedMessage :=
  [ newMessage 1000 (Samples.richEvent "m1" [Samples.picturePart "code-1"]);
    newMessage 1200
      (Samples.richEvent "m2" [Samples.picturePart "code-2"; Samples.picturePart "code-1"]) ].

(** The trimmed, non-empty entries that [normalizeAllowFrom] starts from. *)
Definition trimmedEntries (allow : list string) : list string :=
  filter (fun v => Js.truthy v = true) (map Js.trim allow).

(** The content the pipeline works on. *)
Definition pipelineContent (call : PipelineCall) : MessageContent :=
  match call_content call with
  | Some c => c
  | None => extractMessageContent (data (call_params call))
  end.


Definition withMessages (e : MergedMessageEntry) (msgs : list MergedMessage)
  : MergedMessageEntry :=
  {| messages := msgs; timer := timer e; e_accountId := e_accountId e;
     e_senderId := e_senderId e; sessionKey := sessionKey e; startTime := startTime e |}.

(** An inbound event as the event loop hands it over: arrival time and
    parameters. *)
Definition Arrival : Type := Z * HandleDingTalkMessageParams.

Definition arrivalEvent (a : Arrival) : MergeEvent := Inbound a.1 a.2.
Definition arrivalMessage (a : Arrival) : MergedMessage := newMessage a.1 (data a.2).
Definition arrivalText (a : Arrival) : string := text (extractMessageContent (data a.2)).

(** [a] passes the self-message filter and belongs to the window of [key]. *)
Definition inWindow (key : string) (a : Arrival) : Prop :=
  isSelfMessage (data a.2) = false /\ cacheKeyOf a.2 = key.

(** The texts that take part in the merged text. *)
Definition nonEmptyTexts (msgs : list MergedMessage) : list string :=
  filter (fun t => Js.truthy t = true) (map (fun m => text (m_content m)) msgs).

(** The merged text the pipeline receives for a window: the non-empty
    texts of its events in arrival order, a blank line between them; the
    placeholder when no event has text. *)
Definition windowText (arrivals : list Arrival) : string :=
  let texts := filter (fun t => t <> EmptyString) (arrivalText <$> arrivals) in
  if decide (texts = []) then mergedPlaceholder else Js.join blankLine texts.

Definition sampleArrival (now : Z) (id body : string) : Arrival :=
  (now, Samples.params None None (Samples.textEvent id body)).

Definition sampleKey : string := "acct:staff-1:cid-1".

Definition blankInTheMiddle : list Arrival :=
  [ sampleArrival 1000 "m1" "a"; sampleArrival 1200 "m2" "   "; sampleArrival 1400 "m3" "b" ].

Definition fourBuffered : MergeState :=
  mergeRun emptyMergeState
    (arrivalEvent <$> [ sampleArrival 1000 "m1" "one"; sampleArrival 1100 "m2" "two";
                        sampleArrival 1200 "m3" "three"; sampleArrival 1300 "m4" "four" ]).

Definition blankOnlyRun : MergeState :=
  mergeRun emptyMergeState (arrivalEvent <$> [sampleArrival 1000 "m1" "   "]).

(** Whether the remote answers request [r], made after [before], with a
    response rather than a rejection. *)
Definition answered (remote : Remote) (before : list HttpRequest) (r : HttpRequest) : bool :=
  match r with
  | PostAccessToken _ _ =>
      match tokenEndpoint remote before r with inr _ => true | inl _ => false end
  | PutCard _ _ _ _ =>
      match cardEndpoint remote before r with inr _ => true | inl _ => false end
  end.

(** The number of successful calls among [new], made in this order after
    [before]. *)
Fixpoint successes (remote : Remote) (before new : list HttpRequest) : nat :=
  match new with
  | [] => 0
  | r :: new' =>
      ((if answered remote before r then 1 else 0) + successes remote (before ++ [r]) new')%nat
  end.

(** The cached token can be used at time [now]. *)
Definition tokenFresh (w : World) : Prop :=
  exists tok, accessToken w = Some tok /\ tok <> EmptyString /\
              clock w + TOKEN_SAFETY_MARGIN < accessTokenExpiry w.

Definition backoffDelay (attempt : nat) : Z := 100 * 2 ^ (Z.of_nat attempt - 1).

Definition staleWorld : World :=
  {| accessToken := Some "old-token"; accessTokenExpiry := 1060000; cardInstances := ∅;
     requests := []; slept := []; clock := 1000000 |}.

(** A platform whose token endpoint answers every request with a 500. *)
Definition tokenEndpointDown : Remote :=
  {| tokenEndpoint := fun _ _ => inl (Some 500);
     cardEndpoint := fun _ _ => inr "ok" |}.

(** A platform whose token endpoint rejects the first request with a 500
    and answers the second. *)
Definition tokenEndpointFlaky : Remote :=
  {| tokenEndpoint := fun before _ =>
       match before with
       | [] => inl (Some 500)
       | _ => inr {| ti_accessToken := "new-token"; ti_expireIn := 7200 |}
       end;
     cardEndpoint := fun _ _ => inr "ok" |}.

(** The world after [n] rejected attempts of [put] that were retried and
    one more rejected attempt, starting with attempt number [attempt]. *)
Fixpoint retriedWorld (put : HttpRequest) (attempt n : nat) (w : World) : World :=
  match n with
  | O => logRequest put w
  | S n' =>
      retriedWorld put (S attempt) n' (afterSleep (backoffDelay attempt) (logRequest put w))
  end.

(** A platform whose card endpoint rejects the first request with a 500
    and every later one with a 404. *)
Definition cardGone : Remote :=
  {| tokenEndpoint := fun _ _ => inl (Some 500);
     cardEndpoint := fun before _ =>
       match before with [] => inl (Some 500) | _ => inl (Some 404) end |}.

Definition worldWithCard : World :=
  {| accessToken := Some "cached-token"; accessTokenExpiry := 9000000;
     cardInstances :=
       {[ "card-1" := {| ci_cardBizId := "card-1"; ci_conversationId := "cid-1";
                         createdAt := 900000; lastUpdated := 900000 |} ]};
     requests := []; slept := []; clock := 1000000 |}.

Definition refersTo (promise : nat) (cb : CardTimerCallback) : Prop :=
  match cb with
  | ScheduledUpdate _ _ p => p = promise
  | InactivityFinalize _ => False
  end.

(** Who may still settle a promise: every promise that an armed timer or
    an awaited update holds is pending and below the allocation counter,
    and no promise is held twice. *)
Definition holdersOk (timers : gmap nat CardTimer) (ops : gmap nat InflightUpdate)
    (proms : gmap nat PromiseState) (np : nat) : Prop :=
  (forall h t p, timers !! h = Some t -> refersTo p (ct_callback t) ->
     (p < np)%nat /\ proms !! p = Some Pending) /\
  (forall op o, ops !! op = Some o ->
     (op_promise o < np)%nat /\ proms !! op_promise o = Some Pending) /\
  (forall h1 h2 t1 t2 p, timers !! h1 = Some t1 -> timers !! h2 = Some t2 ->
     refersTo p (ct_callback t1) -> refersTo p (ct_callback t2) -> h1 = h2) /\
  (forall h t op o, timers !! h = Some t -> ops !! op = Some o ->
     ~ refersTo (op_promise o) (ct_callback t)) /\
  (forall op1 op2 o1 o2, ops !! op1 = Some o1 -> ops !! op2 = Some o2 ->
     op_promise o1 = op_promise o2 -> op1 = op2).

Definition wellFormed (s : ThrottleState) : Prop :=
  holdersOk (cardTimers s) (inflight s) (promises s) (nextPromise s).

(** A pending promise that nothing holds any more. *)
Definition orphaned (timers : gmap nat CardTimer) (ops : gmap nat InflightUpdate)
    (proms : gmap nat PromiseState) (np : nat) (promise : nat) : Prop :=
  (promise < np)%nat /\ proms !! promise = Some Pending /\
  (forall h t, timers !! h = Some t -> ~ refersTo promise (ct_callback t)) /\
  (forall op o, ops !! op = Some o -> op_promise o <> promise).

Definition abandoned (s : ThrottleState) (promise : nat) : Prop :=
  orphaned (cardTimers s) (inflight s) (promises s) (nextPromise s) promise.

(** The card's registered timer is the armed timer of a scheduled update
    made on behalf of [promise]: the Scheduled state. *)
Definition scheduledFor (s : ThrottleState) (cardBizId : string) (promise : nat) : Prop :=
  exists handle due text,
    cardUpdateTimeouts s !! cardBizId = Some handle /\
    cardTimers s !! handle =
      Some {| ct_due := due; ct_callback := ScheduledUpdate cardBizId text promise |}.

(** Update "A" is sent at once and still awaited, update "B" is scheduled. *)
Definition oneScheduled : list CardEvent :=
  [ UpdateRequest 1000000 "card-1" "A"; UpdateRequest 1000100 "card-1" "B" ].







(** The entry of [k] holds between one and four messages and owns an armed
    timer for [k], due one window after the entry was started. *)
Definition entryArmed (s : MergeState) (k : string) (e : MergedMessageEntry) : Prop :=
  (1 <= length (messages e) < MESSAGE_MERGE_MAX_MESSAGES)%nat /\
  exists t, mergeTimers s !! timer e = Some t /\ mt_cacheKey t = k /\
            mt_due t = startTime e + MESSAGE_MERGE_WINDOW_MS.

(** The armed timer [h] was handed out by [setTimeout] and belongs to the
    buffered entry of its key. *)
Definition timerOwned (s : MergeState) (h : nat) (t : MergeTimer) : Prop :=
  (h < nextMergeTimer s)%nat /\
  exists e, messageMergeCache s !! mt_cacheKey t = Some e /\ timer e = h.

Definition mergeConsistent (s : MergeState) : Prop :=
  map_Forall (entryArmed s) (messageMergeCache s) /\
  map_Forall (timerOwned s) (mergeTimers s).

(** No buffered message and no pipeline call comes from the robot. *)
Definition noSelfMessage (s : MergeState) : Prop :=
  map_Forall (fun _ e => Forall (fun m => isSelfMessage (m_data m) = false) (messages e))
             (messageMergeCache s) /\
  Forall (fun c => isSelfMessage (data (call_params c)) = false) (pipelineCalls s).

(** An event that is none of: a message of the window [k], the window
    timer of [e], a sweep that finds [e] stale. *)
Definition foreignTo (k : string) (e : MergedMessageEntry) (ev : MergeEvent) : Prop :=
  match ev with
  | Inbound _ params => cacheKeyOf params <> k
  | WindowElapsed handle => handle <> timer e
  | Sweep now => isStale now e = false
  end.

(** A text event of the staff member [staff] in the conversation of the
    samples. *)
Definition textEventFrom (staff id body : string) : DingTalkInboundMessage :=
  {| msgId := Some id; msgtype := Some "text"; text_content := Some body; content := None;
     senderId := Some "sender-2"; senderStaffId := Some staff;
     chatbotUserId := Some "bot-1"; senderNick := Some "Bob";
     conversationId := "cid-1"; conversationType := "1"; conversationTitle := None |}.

(** Two windows of two senders, opened 1 s apart. *)
Definition twoWindows : list MergeEvent :=
  [ Inbound 1000 (Samples.params None None (Samples.textEvent "m1" "hello"));
    Inbound 2000 (Samples.params None None (textEventFrom "staff-2" "m2" "hi")) ].

Definition secondKey : string := "acct:staff-2:cid-1".

(** The card ids that [cleanupCardCache] evicts at time [now]. *)
Definition expiredCards (now : Z) (instances : gmap string CardInstance) : list string :=
  map fst (map_to_list (filter (fun kv => isExpired now kv.2 = true) instances)).

(** A registry with a card last updated at time 0 and one at 3000000. *)
Definition twoCards : gmap string CardInstance :=
  {[ "card-1" := {| ci_cardBizId := "card-1"; ci_conversationId := "cid-1";
                    createdAt := 0; lastUpdated := 0 |};
     "card-2" := {| ci_cardBizId := "card-2"; ci_conversationId := "cid-1";
                    createdAt := 0; lastUpdated := 3000000 |} ]}.

(** Both cards were updated at 3600000 (the update of "card-1" failed, so
    that its registry entry was not stamped) and have an update scheduled. *)
Definition twoCardsScheduled : list CardEvent :=
  [ UpdateRequest 3600000 "card-1" "A"; UpdateRequest 3600000 "card-2" "B";
    UpdateSettled 3600050 0 (inl (AxiosError (Some 500)));
    UpdateRequest 3600100 "card-1" "A2"; UpdateRequest 3600100 "card-2" "B2" ].

(** How a promise is settled by the outcome of its update. *)
Definition settled (outcome : JsError + string) : PromiseState :=
  match outcome with
  | inr result => Fulfilled result
  | inl err => Rejected err
  end.

(** A promise that no armed timer and no awaited update holds. *)
Definition released (s : ThrottleState) (promise : nat) : Prop :=
  (promise < nextPromise s)%nat /\
  (forall h t, cardTimers s !! h = Some t -> ~ refersTo promise (ct_callback t)) /\
  (forall op o, inflight s !! op = Some o -> op_promise o <> promise).

Definition total (delays : list Z) : Z := foldr Z.add 0 delays.

(** The registry entry [i] stamped with the time [t]. *)
Definition stamped (t : Z) (i : CardInstance) : CardInstance :=
  {| ci_cardBizId := ci_cardBizId i; ci_conversationId := ci_conversationId i;
     createdAt := createdAt i; lastUpdated := t |}.

(** A request that is not retried: rejected without a response, or with a
    status below 500 other than 401 and 429. *)
Definition finalStatus (status : option Z) : Prop :=
  match status with
  | Some st => st <> 401 /\ st <> 429 /\ st < 500
  | None => True
  end.

(** A platform that rejects the first card request with a 401 and answers
    the second; its token endpoint rejects every request with a 400. *)
Definition cardEndpointFlaky : Remote :=
  {| tokenEndpoint := fun _ _ => inl (Some 400);
     cardEndpoint := fun before _ =>
       match before with [] => inl (Some 401) | _ => inr "updated" end |}.

(** The configuration of another application. *)
Definition otherConfig : DingTalkConfig :=
  {| clientId := Some "other-key"; clientSecret := Some "other-secret";
     dmPolicy := None; allowFrom := None; cardUpdateApiUrl := None |}.

(** The world [w] when the clock shows [now]. *)
Definition atTime (now : Z) (w : World) : World :=
  {| accessToken := accessToken w; accessTokenExpiry := accessTokenExpiry w;
     cardInstances := cardInstances w; requests := requests w; slept := slept w;
     clock := now |}.

(** The type a rich-text component is handled as: its [type], ["text"]
    when it has none and has a [text] property, ["unknown"] otherwise. *)
Definition partKind (part : RichTextPart) : string :=
  Js.orS (if (negb (Js.truthyO (part_type part)) && bool_decide (is_Some (part_text part)))%bool
          then Some "text" else part_type part) "unknown".

(** The download code and kind of the media file a component stands for:
    a picture, image or file component with a non-empty download code. *)
Definition mediaOf (part : RichTextPart) : option (string * MediaKind) :=
  let kind :=
    if (String.eqb (partKind part) "picture" || String.eqb (partKind part) "image")%bool
    then Some KImage
    else if String.eqb (partKind part) "file" then Some KFile else None in
  match kind, part_downloadCode part with
  | Some k, Some dc => if Js.truthy dc then Some (dc, k) else None
  | _, _ => None
  end.

Definition codeAndKind (m : RichTextMediaFile) : string * MediaKind :=
  (downloadCode m, type m).

(** A rich-text event with a text, a picture, a file without download
    code and a file. *)
Definition mixedParts : list RichTextPart :=
  [ {| part_type := None; part_text := Some "see "; part_atName := None;
       part_atUserId := None; part_downloadCode := None; part_fileName := None;
       part_url := None |};
    Samples.picturePart "code-1";
    {| part_type := Some "file"; part_text := None; part_atName := None;
       part_atUserId := None; part_downloadCode := None; part_fileName := Some "a.pdf";
       part_url := None |};
    {| part_type := Some "file"; part_text := None; part_atName := None;
       part_atUserId := None; part_downloadCode := Some "code-2";
       part_fileName := Some "b.pdf"; part_url := None |} ].

(** The code units of an ASCII string. *)
Definition units (s : string) : list N :=
  (fun c => N.of_nat (nat_of_ascii c)) <$> list_ascii_of_string s.

(** The code units of a title that are left as they are: neither a
    heading, emphasis, list or quote mark nor white space. *)
Definition titleLead (c : N) : Prop := c ∈ [35; 42; 45; 62]%N ++ whiteSpaceUnits.

(** The positions of [val] that masking may leave readable: the first
    three and the last three, when [val] has more than six code units. *)
Definition shown (val : list N) (i : nat) : Prop :=
  (6 < length val)%nat /\ (i < 3 \/ length val - 3 <= i)%nat.

Definition sampleLogData : Json :=
  JObject
    [ ("msgId", JString (units "m-1"));
      ("token", JString (units "abcdefghij"));
      ("nested", JArray [ JObject [ ("accessToken", JString (units "secret")) ] ]);
      ("accessToken", JObject [ ("token", JNumber 7) ]) ].

(** * Theorems *)

(** ** Media deduplication *)

Lemma firstOccurrences_elem l k : k ∈ firstOccurrences l <-> k ∈ l.
Proof.
  induction l as [|x l IH]; simpl; [done|].
  rewrite !elem_of_cons, list_elem_of_filter, IH.
  destruct (decide (k = x)); naive_solver.
Qed.

Lemma firstOccurrences_NoDup l : NoDup (firstOccurrences l).
Proof.
  induction l as [|x l IH]; simpl; [constructor|].
  constructor.
  - rewrite list_elem_of_filter. naive_solver.
  - by apply NoDup_filter.
Qed.

Lemma firstOccurrences_snoc l k :
  firstOccurrences (l ++ [k]) =
  firstOccurrences l ++ (if bool_decide (k ∈ l) then [] else [k]).
Proof.
  induction l as [|x l IH]; simpl; [done|].
  rewrite IH, filter_app. f_equal. f_equal.
  destruct (decide (k = x)) as [->|Hne].
  - rewrite (bool_decide_eq_true_2 (x ∈ x :: l)) by set_solver.
    case_bool_decide; [done|].
    rewrite filter_cons_False by naive_solver. done.
  - case_bool_decide as Hin.
    + rewrite bool_decide_eq_true_2 by set_solver. done.
    + rewrite bool_decide_eq_false_2 by set_solver.
      rewrite filter_cons_True by done. done.
Qed.

Lemma specDedupKeepFirst_codes l :
  downloadCode <$> specDedupKeepFirst l = firstOccurrences (downloadCode <$> l).
Proof.
  induction l as [|m l IH]; csimpl; [done|].
  f_equal. rewrite <- IH. clear IH.
  induction (specDedupKeepFirst l) as [|m' l' IH']; csimpl; [done|].
  destruct (decide (downloadCode m' = downloadCode m)) as [Heq|Hne].
  - rewrite !filter_cons_False by (intros ?; done). done.
  - rewrite !filter_cons_True by done. csimpl. by f_equal.
Qed.

Section JsMapFacts.
Context {V : Type}.
Implicit Types (m l : list (string * V)) (k : string) (v : V).

Lemma jsMapOfEntries_snoc l k v :
  jsMapOfEntries (l ++ [(k, v)]) = jsMapSet k v (jsMapOfEntries l).
Proof. unfold jsMapOfEntries. by rewrite fold_left_app. Qed.

Lemma jsMapSet_keys k v m :
  (jsMapSet k v m).*1 = m.*1 ++ (if bool_decide (k ∈ m.*1) then [] else [k]).
Proof.
  induction m as [|[k' v'] m IH]; [done|].
  cbn [jsMapSet]. destruct (String.eqb_spec k' k) as [->|Hne]; csimpl.
  - rewrite bool_decide_eq_true_2 by set_solver. by rewrite app_nil_r.
  - rewrite IH. f_equal.
    destruct (decide (k ∈ m.*1)) as [Hin|Hnin].
    + rewrite !bool_decide_eq_true_2; [done|set_solver|done].
    + rewrite !bool_decide_eq_false_2; [done|set_solver|done].
Qed.

(** With distinct keys, [set] leaves the entries of the other keys alone
    and the entry of [k] is the new one. *)
Lemma jsMapSet_elem k v m k0 v0 :
  NoDup m.*1 ->
  (k0, v0) ∈ jsMapSet k v m ->
  (k0 = k /\ v0 = v) \/ ((k0, v0) ∈ m /\ k0 <> k).
Proof.
  induction m as [|[k' v'] m IH]; cbn [jsMapSet].
  - intros _ Hin. apply list_elem_of_singleton in Hin. left. by inversion Hin.
  - csimpl. intros [Hk' Hnd]%NoDup_cons.
    destruct (String.eqb_spec k' k) as [->|Hne]; intros Hin;
      apply elem_of_cons in Hin as [Heq|Hin].
    + left. by inversion Heq.
    + right. split; [by right|]. intros ->. apply Hk'.
      apply list_elem_of_fmap. by exists (k, v0).
    + right. inversion Heq; subst. split; [left|done].
    + destruct (IH Hnd Hin) as [?|[? ?]]; [by left|right]. split; [by right|done].
Qed.

Lemma jsMapOfEntries_keys l :
  (jsMapOfEntries l).*1 = firstOccurrences l.*1.
Proof.
  induction l as [|[k v] l IH] using rev_ind; [done|].
  rewrite jsMapOfEntries_snoc, jsMapSet_keys, IH, fmap_app. csimpl.
  rewrite firstOccurrences_snoc. f_equal.
  destruct (decide (k ∈ l.*1)) as [Hin|Hnin].
  - rewrite !bool_decide_eq_true_2; [done|done|by apply firstOccurrences_elem].
  - rewrite !bool_decide_eq_false_2; [done|done|by rewrite firstOccurrences_elem].
Qed.

Lemma jsMapOfEntries_NoDup l : NoDup (jsMapOfEntries l).*1.
Proof. rewrite jsMapOfEntries_keys. apply firstOccurrences_NoDup. Qed.

(** Every entry of the map is the last entry of its key in the input. *)
Lemma jsMapOfEntries_last l k v :
  (k, v) ∈ jsMapOfEntries l ->
  exists pre post, l = pre ++ (k, v) :: post /\ k ∉ post.*1.
Proof.
  revert k v. induction l as [|[k0 v0] l IH] using rev_ind; intros k v.
  - by intros ?%elem_of_nil.
  - rewrite jsMapOfEntries_snoc.
    intros [[-> ->]|[Hin Hne]]%jsMapSet_elem; [| |apply jsMapOfEntries_NoDup].
    + exists l, []. split; [done|]. csimpl. set_solver.
    + destruct (IH _ _ Hin) as (pre & post & -> & Hpost).
      exists pre, (post ++ [(k0, v0)]). split; [by rewrite <- app_assoc|].
      rewrite fmap_app. csimpl. set_solver.
Qed.
End JsMapFacts.

Lemma dedupByDownloadCode_codes all :
  downloadCode <$> dedupByDownloadCode all = firstOccurrences (downloadCode <$> all).
Proof.
  unfold dedupByDownloadCode, jsMapValues.
  change (map snd ?l) with (l.*2).
  change (map ?f all) with (f <$> all).
  set (m := jsMapOfEntries _).
  assert (Hm : Forall (fun kv => kv.1 = downloadCode kv.2) m).
  { apply Forall_forall. intros [k v] Hin. simpl.
    apply jsMapOfEntries_last in Hin as (pre & post & Heq & _).
    assert (Hel : (k, v) ∈ (fun m0 => (downloadCode m0, m0)) <$> all)
      by (rewrite Heq; set_solver).
    apply list_elem_of_fmap in Hel as (x & Hx & _). by inversion Hx. }
  transitivity (m.*1).
  - clear -Hm. induction Hm as [|[k v] m' Hkv _ IH]; csimpl; [done|].
    simpl in Hkv. by rewrite IH, Hkv.
  - subst m. rewrite jsMapOfEntries_keys. f_equal.
    rewrite <- list_fmap_compose. done.
Qed.

Lemma dedupByDownloadCode_last all m :
  m ∈ dedupByDownloadCode all ->
  exists pre post, all = pre ++ m :: post /\ downloadCode m ∉ downloadCode <$> post.
Proof.
  unfold dedupByDownloadCode, jsMapValues.
  change (map snd ?l) with (l.*2).
  change (map ?f all) with (f <$> all).
  intros ([k v] & -> & Hin)%list_elem_of_fmap. simpl.
  apply jsMapOfEntries_last in Hin as (pre' & post' & Heq & Hpost).
  apply fmap_app_inv in Heq as (pre & rest & -> & Hrest & ->).
  symmetry in Hrest.
  apply fmap_cons_inv in Hrest as (y & post & Hy & -> & ->).
  inversion Hy; subst. exists pre, post. split; [done|].
  by rewrite <- list_fmap_compose in Hpost.
Qed.

(** C3, as stated, fails: a picture that arrives in two messages of one
    window is extracted as "image_1" from the first and as "image_2" from
    the second; the merged media list holds the later entry, not the first
    occurrence. *)
Lemma C3_first_occurrence_not_kept :
  let first := {| downloadCode := "code-1"; fileName := Some "image_1"; type := KImage |} in
  let other := {| downloadCode := "code-2"; fileName := Some "image_1"; type := KImage |} in
  let second := {| downloadCode := "code-1"; fileName := Some "image_2"; type := KImage |} in
  allMediaFiles sameCodeMessages = [first; other; second] /\
  specDedupKeepFirst (allMediaFiles sameCodeMessages) = [first; other] /\
  (mediaFiles <$> rich (mergedContent sameCodeMessages)) = Some [second; other] /\
  first ∉ uniqueMediaFiles sameCodeMessages.
Proof.
  repeat split; try reflexivity.
  change (uniqueMediaFiles sameCodeMessages)
    with [ {| downloadCode := "code-1"; fileName := Some "image_2"; type := KImage |};
           {| downloadCode := "code-2"; fileName := Some "image_1"; type := KImage |} ].
  intros Hin. apply elem_of_cons in Hin as [Heq|Hin]; [discriminate Heq|].
  apply list_elem_of_singleton in Hin. discriminate Hin.
Qed.

(** C3, amended: the merged media list holds every download identifier
    once, in the order of the identifiers' first arrival, and the entry
    kept for an identifier is the last one that arrived with it. *)
Theorem C3_media_dedup_keeps_last_at_first_position (msgs : list MergedMessage) :
  let all := allMediaFiles msgs in
  let uniq := uniqueMediaFiles msgs in
  (mediaFiles <$> rich (mergedContent msgs)) = Some uniq /\
  NoDup (downloadCode <$> uniq) /\
  downloadCode <$> uniq = downloadCode <$> specDedupKeepFirst all /\
  forall m, m ∈ uniq ->
    exists pre post, all = pre ++ m :: post /\ downloadCode m ∉ downloadCode <$> post.
Proof.
  intros all uniq. split; [done|]. split; [|split].
  - unfold uniq, uniqueMediaFiles. rewrite dedupByDownloadCode_codes.
    apply firstOccurrences_NoDup.
  - unfold uniq, uniqueMediaFiles.
    by rewrite dedupByDownloadCode_codes, specDedupKeepFirst_codes.
  - intros m Hm. by apply dedupByDownloadCode_last.
Qed.

(** ** Direct-message authorization *)

Lemma truthy_true s : Js.truthy s = true <-> s <> EmptyString.
Proof.
  unfold Js.truthy. destruct (String.eqb_spec s EmptyString); simpl; split; congruence.
Qed.

Lemma truthy_false s : Js.truthy s = false <-> s = EmptyString.
Proof.
  unfold Js.truthy. destruct (String.eqb_spec s EmptyString); simpl; split; congruence.
Qed.

Lemma trimmedEntries_elem allow e :
  e ∈ trimmedEntries allow <-> e <> EmptyString /\ exists v, v ∈ allow /\ e = Js.trim v.
Proof.
  unfold trimmedEntries. change (map Js.trim allow) with (Js.trim <$> allow).
  rewrite list_elem_of_filter, list_elem_of_fmap, truthy_true.
  split; intros [? (v & ? & ?)]; split; try done; by exists v.
Qed.

Lemma normalize_hasEntries allow :
  hasEntries (normalizeAllowFrom allow) = bool_decide (trimmedEntries (default [] allow) <> []).
Proof.
  change (hasEntries (normalizeAllowFrom allow))
    with (bool_decide (0 < length (trimmedEntries (default [] allow)))%nat).
  apply bool_decide_ext.
  destruct (trimmedEntries (default [] allow)); simpl; split; intros; try done; lia.
Qed.

Lemma normalize_hasWildcard allow :
  hasWildcard (normalizeAllowFrom allow) = bool_decide ("*" ∈ trimmedEntries (default [] allow)).
Proof. done. Qed.

Lemma normalize_entriesLower allow e :
  e ∈ entriesLower (normalizeAllowFrom allow) <->
  exists v, v ∈ default [] allow /\ Js.trim v <> EmptyString /\ Js.trim v <> "*" /\
            e = Js.toLowerCase (stripChannelPrefix (Js.trim v)).
Proof.
  unfold normalizeAllowFrom; simpl. fold (trimmedEntries (default [] allow)).
  change (map ?f ?l) with (f <$> l).
  rewrite list_elem_of_fmap. split.
  - intros (y & -> & (x & -> & Hx)%list_elem_of_fmap).
    apply list_elem_of_filter in Hx as [Hstar Hx].
    apply trimmedEntries_elem in Hx as [Hne (v & Hv & ->)].
    by exists v.
  - intros (v & Hv & Hne & Hstar & ->).
    exists (stripChannelPrefix (Js.trim v)). split; [done|].
    apply list_elem_of_fmap. exists (Js.trim v). split; [done|].
    apply list_elem_of_filter. split; [done|].
    apply trimmedEntries_elem. split; [done|]. by exists v.
Qed.

Lemma normalize_default allow :
  normalizeAllowFrom (Some (default [] allow)) = normalizeAllowFrom allow.
Proof. by destruct allow. Qed.

Lemma blank_allowlist_no_entries (allow : option (list string)) :
  Forall (fun v => Js.trim v = EmptyString) (default [] allow) ->
  trimmedEntries (default [] allow) = [].
Proof.
  intros Hall. apply elem_of_nil_inv. intros e He.
  apply trimmedEntries_elem in He as [Hne (v & Hv & ->)].
  rewrite Forall_forall in Hall. by apply Hne, Hall.
Qed.


(** C10: with an empty or all-blank [allowFrom] the sender check answers
    [true] for every sender, and under the allowlist policy no message is
    turned away with the denial notice. *)
Theorem C10_empty_allowlist_admits_all (allow : option (list string)) :
  Forall (fun v => Js.trim v = EmptyString) (default [] allow) ->
  (forall sender, isSenderAllowed (normalizeAllowFrom allow) sender = true) /\
  (forall call webhook notice,
      allowFrom (dingtalkConfig (call_params call)) = allow ->
      dmPolicy (dingtalkConfig (call_params call)) = Some "allowlist" ->
      handleDingTalkMessageOriginal call <> AccessDenied webhook notice).
Proof.
  intros Hblank.
  assert (Hall : forall sender, isSenderAllowed (normalizeAllowFrom allow) sender = true).
  { intros sender. unfold isSenderAllowed.
    rewrite normalize_hasEntries, blank_allowlist_no_entries by done.
    by rewrite bool_decide_eq_false_2 by (intros H; by apply H). }
  split; [done|].
  intros call webhook notice Hallow Hpolicy. unfold handleDingTalkMessageOriginal.
  rewrite Hpolicy, Hallow, normalize_default, Hall. simpl.
  repeat case_match; discriminate.
Qed.

Lemma C10_empty_allowlist_admits_all_witness :
  (forall sender,
      isSenderAllowed (normalizeAllowFrom (Some [" "; EmptyString])) sender = true) /\
  (forall call webhook notice,
      allowFrom (dingtalkConfig (call_params call)) = Some [" "; EmptyString] ->
      dmPolicy (dingtalkConfig (call_params call)) = Some "allowlist" ->
      handleDingTalkMessageOriginal call <> AccessDenied webhook notice).
Proof.
  apply (C10_empty_allowlist_admits_all (Some [" "; EmptyString])).
  repeat constructor.
Defined.






(** ** The merge window *)

Lemma handle_first now params s :
  isSelfMessage (data params) = false ->
  messageMergeCache s !! cacheKeyOf params = None ->
  handleDingTalkMessage now params s =
    {| messageMergeCache :=
         <[cacheKeyOf params :=
             {| messages := [newMessage now (data params)]; timer := nextMergeTimer s;
                e_accountId := accountId params; e_senderId := keySender (data params);
                sessionKey := EmptyString; startTime := now |}]> (messageMergeCache s);
       mergeTimers :=
         <[nextMergeTimer s :=
             {| mt_due := now + MESSAGE_MERGE_WINDOW_MS; mt_cacheKey := cacheKeyOf params;
                mt_params := params |}]> (mergeTimers s);
       nextMergeTimer := S (nextMergeTimer s);
       pipelineCalls := pipelineCalls s |}.
Proof. intros Hself Hnone. unfold handleDingTalkMessage. by rewrite Hself, Hnone. Qed.

Lemma handle_append now params s e :
  isSelfMessage (data params) = false ->
  messageMergeCache s !! cacheKeyOf params = Some e ->
  (length (messages e) + 1 < MESSAGE_MERGE_MAX_MESSAGES)%nat ->
  handleDingTalkMessage now params s =
    {| messageMergeCache :=
         <[cacheKeyOf params := withMessages e (messages e ++ [newMessage now (data params)])]>
           (messageMergeCache s);
       mergeTimers := mergeTimers s;
       nextMergeTimer := nextMergeTimer s;
       pipelineCalls := pipelineCalls s |}.
Proof.
  intros Hself Hsome Hlen. unfold handleDingTalkMessage. rewrite Hself, Hsome.
  rewrite bool_decide_eq_false_2; [done|]. rewrite length_app. simpl. lia.
Qed.

Lemma handle_cap now params s e :
  isSelfMessage (data params) = false ->
  messageMergeCache s !! cacheKeyOf params = Some e ->
  (MESSAGE_MERGE_MAX_MESSAGES <= length (messages e) + 1)%nat ->
  handleDingTalkMessage now params s =
    {| messageMergeCache := delete (cacheKeyOf params) (messageMergeCache s);
       mergeTimers := delete (timer e) (mergeTimers s);
       nextMergeTimer := nextMergeTimer s;
       pipelineCalls :=
         flush (messages e ++ [newMessage now (data params)]) params (pipelineCalls s) |}.
Proof.
  intros Hself Hsome Hlen. unfold handleDingTalkMessage. rewrite Hself, Hsome.
  rewrite bool_decide_eq_true_2; [done|]. rewrite length_app. simpl. lia.
Qed.

Lemma mergeRun_app s evs1 evs2 :
  mergeRun s (evs1 ++ evs2) = mergeRun (mergeRun s evs1) evs2.
Proof. apply fold_left_app. Qed.

Lemma mergeRun_cons s ev evs : mergeRun s (ev :: evs) = mergeRun (mergeStep s ev) evs.
Proof. done. Qed.

(** While the cap is not reached, arrivals for the key only grow the entry. *)
Lemma window_accumulates key (rest : list Arrival) : forall s e,
  messageMergeCache s !! key = Some e ->
  (length (messages e) + length rest < MESSAGE_MERGE_MAX_MESSAGES)%nat ->
  Forall (inWindow key) rest ->
  let s' := mergeRun s (arrivalEvent <$> rest) in
  messageMergeCache s' !! key = Some (withMessages e (messages e ++ (arrivalMessage <$> rest))) /\
  mergeTimers s' = mergeTimers s /\
  nextMergeTimer s' = nextMergeTimer s /\
  pipelineCalls s' = pipelineCalls s.
Proof.
  induction rest as [|[now params] rest IH]; intros s e He Hlen Hall.
  - simpl. rewrite app_nil_r. by destruct e.
  - apply Forall_cons in Hall as [[Hself Hkey] Hall]. simpl in Hself, Hkey.
    simpl in Hlen.
    rewrite <- Hkey in He.
    rewrite fmap_cons, mergeRun_cons. cbn [mergeStep arrivalEvent fst snd].
    rewrite (handle_append now params s e Hself He) by lia.
    rewrite Hkey.
    set (e1 := withMessages e (messages e ++ [newMessage now (data params)])).
    set (s1 := Build_MergeState _ _ _ _).
    destruct (IH s1 e1) as (Hc & Ht & Hn & Hp); [| |done|].
    + subst s1. simpl. by rewrite lookup_insert_eq.
    + subst e1. simpl. rewrite length_app. simpl. lia.
    + cbv zeta. rewrite Hc, Ht, Hn, Hp. subst e1. simpl.
      by rewrite <- app_assoc.
Qed.

Lemma join_nonempty sep (l : list string) :
  Forall (fun t => t <> EmptyString) l -> l <> [] -> Js.join sep l <> EmptyString.
Proof.
  intros Hall Hne. destruct l as [|x l]; [done|].
  apply Forall_cons in Hall as [Hx _].
  destruct x as [|c x]; [done|]. simpl. by destruct l.
Qed.

(** The text of the merged content: the non-empty texts joined by a blank
    line, or the placeholder when there is none. *)
Lemma mergedContent_text msgs :
  text (mergedContent msgs) =
    if decide (nonEmptyTexts msgs = []) then mergedPlaceholder
    else Js.join blankLine (nonEmptyTexts msgs).
Proof.
  unfold mergedContent, mergedText. fold (nonEmptyTexts msgs). simpl.
  case_decide as Hnil.
  - by rewrite Hnil.
  - assert (Hne : Js.join blankLine (nonEmptyTexts msgs) <> EmptyString).
    { apply join_nonempty; [|done]. apply Forall_forall. intros t Ht.
      apply list_elem_of_filter in Ht as [Ht _]. by apply truthy_true. }
    apply truthy_true in Hne. by rewrite Hne.
Qed.

Lemma mergedContent_text_truthy msgs : Js.truthy (text (mergedContent msgs)) = true.
Proof.
  rewrite mergedContent_text. case_decide as Hnil; [done|].
  apply truthy_true, join_nonempty; [|done]. apply Forall_forall. intros t Ht.
  apply list_elem_of_filter in Ht as [Ht _]. by apply truthy_true.
Qed.

Lemma flush_nonempty m msgs params calls :
  flush (m :: msgs) params calls =
    calls ++ [ {| call_params :=
                    {| accountId := accountId params; data := m_data m;
                       sessionWebhook := sessionWebhook params;
                       dingtalkConfig := dingtalkConfig params |};
                  call_content := Some (mergedContent (m :: msgs)) |} ].
Proof. done. Qed.

Lemma nonEmptyTexts_arrivals arrivals :
  nonEmptyTexts (arrivalMessage <$> arrivals) =
  filter (fun t => t <> EmptyString) (arrivalText <$> arrivals).
Proof.
  unfold nonEmptyTexts. change (map ?f ?l) with (f <$> l).
  rewrite <- list_fmap_compose.
  induction arrivals as [|a l IH]; [done|]. csimpl.
  fold (arrivalText a).
  destruct (decide (arrivalText a = EmptyString)) as [Heq|Hne].
  - rewrite !filter_cons_False; [done|by intros ?|].
    rewrite truthy_true. by intros ?.
  - rewrite !filter_cons_True; [by f_equal|done|by apply truthy_true].
Qed.

Lemma mergedContent_windowText arrivals :
  text (mergedContent (arrivalMessage <$> arrivals)) = windowText arrivals.
Proof.
  rewrite mergedContent_text, nonEmptyTexts_arrivals. unfold windowText.
  by repeat case_decide.
Qed.

(** The state after the first [n] events of a window, [n] below the cap. *)
Lemma window_open s key (first : Arrival) (rest : list Arrival) :
  messageMergeCache s !! key = None ->
  Forall (inWindow key) (first :: rest) ->
  (length (first :: rest) < MESSAGE_MERGE_MAX_MESSAGES)%nat ->
  let s' := mergeRun s (arrivalEvent <$> first :: rest) in
  let entry :=
    {| messages := arrivalMessage <$> first :: rest; timer := nextMergeTimer s;
       e_accountId := accountId first.2; e_senderId := keySender (data first.2);
       sessionKey := EmptyString; startTime := first.1 |} in
  messageMergeCache s' !! key = Some entry /\
  mergeTimers s' =
    <[nextMergeTimer s := {| mt_due := first.1 + MESSAGE_MERGE_WINDOW_MS;
                             mt_cacheKey := key; mt_params := first.2 |}]> (mergeTimers s) /\
  pipelineCalls s' = pipelineCalls s.
Proof.
  intros Hnone Hall Hlen. apply Forall_cons in Hall as [[Hself Hkey] Hall].
  destruct first as [now params]. simpl in Hself, Hkey, Hlen.
  rewrite fmap_cons, mergeRun_cons. cbn [mergeStep arrivalEvent fst snd].
  rewrite <- Hkey in Hnone. rewrite (handle_first now params s Hself Hnone).
  rewrite Hkey.
  set (e0 := Build_MergedMessageEntry _ _ _ _ _ _).
  set (s0 := Build_MergeState _ _ _ _).
  destruct (window_accumulates key rest s0 e0) as (Hc & Ht & _ & Hp); [| |done|].
  - subst s0. simpl. by rewrite lookup_insert_eq.
  - subst e0. simpl. lia.
  - cbv zeta. rewrite Hc, Ht, Hp. done.
Qed.

Ltac projections :=
  cbn [pipelineCalls messageMergeCache mergeTimers nextMergeTimer messages timer
       mt_due mt_cacheKey mt_params call_params call_content data accountId
       sessionWebhook dingtalkConfig].

(** The window timer finds its entry: the entry is removed and flushed. *)
Lemma fire_flush handle s t e :
  mergeTimers s !! handle = Some t ->
  messageMergeCache s !! mt_cacheKey t = Some e ->
  messages e <> [] ->
  fireMergeTimer handle s =
    {| messageMergeCache := delete (mt_cacheKey t) (messageMergeCache s);
       mergeTimers := delete handle (mergeTimers s);
       nextMergeTimer := nextMergeTimer s;
       pipelineCalls := flush (messages e) (mt_params t) (pipelineCalls s) |}.
Proof.
  intros Ht He Hne. unfold fireMergeTimer. rewrite Ht, He.
  rewrite bool_decide_eq_true_2; [done|]. destruct (messages e); [done|simpl; lia].
Qed.

(** A handle that is not armed fires nothing. *)
Lemma fire_unarmed handle s : mergeTimers s !! handle = None -> fireMergeTimer handle s = s.
Proof. intros Hnone. unfold fireMergeTimer. by rewrite Hnone. Qed.

(** C1, amended: the N events of one window (1 <= N <= 5, all past the
    self-message filter, the first arriving when the key has no open
    entry) lead to exactly one pipeline invocation, made when the window
    timer fires or, for N = 5, on the fifth arrival. It carries the first
    event's data and the non-empty texts of the events in arrival order,
    joined by a blank line (the placeholder when no event has text);
    afterwards the key has no entry and the window's timer is not armed. *)
Theorem C1_window_is_flushed_once (s : MergeState) (key : string)
    (first : Arrival) (rest : list Arrival) :
  let arrivals := first :: rest in
  let handle := nextMergeTimer s in
  messageMergeCache s !! key = None ->
  Forall (inWindow key) arrivals ->
  (length arrivals <= MESSAGE_MERGE_MAX_MESSAGES)%nat ->
  let buffered := mergeRun s (arrivalEvent <$> arrivals) in
  let flushed :=
    if bool_decide (length arrivals < MESSAGE_MERGE_MAX_MESSAGES)%nat
    then fireMergeTimer handle buffered else buffered in
  ((length arrivals < MESSAGE_MERGE_MAX_MESSAGES)%nat ->
     pipelineCalls buffered = pipelineCalls s /\
     mt_due <$> mergeTimers buffered !! handle = Some (first.1 + MESSAGE_MERGE_WINDOW_MS)) /\
  (exists call,
     pipelineCalls flushed = pipelineCalls s ++ [call] /\
     data (call_params call) = data first.2 /\
     call_content call = Some (mergedContent (arrivalMessage <$> arrivals)) /\
     text (mergedContent (arrivalMessage <$> arrivals)) = windowText arrivals) /\
  messageMergeCache flushed !! key = None /\
  mergeTimers flushed !! handle = None.
Proof.
  intros arrivals handle Hnone Hall Hcap buffered flushed.
  destruct (decide (length arrivals < MESSAGE_MERGE_MAX_MESSAGES)%nat) as [Hlt|Hge].
  - destruct (window_open s key first rest Hnone Hall Hlt) as (Hc & Ht & Hp).
    fold arrivals in Hc, Ht, Hp. fold buffered in Hc, Ht, Hp. fold handle in Hc, Ht.
    split; [intros _; split; [done|by rewrite Ht, lookup_insert_eq]|].
    subst flushed. rewrite bool_decide_eq_true_2 by done.
    erewrite fire_flush; [|by rewrite Ht, lookup_insert_eq|exact Hc|done].
    projections. rewrite Hp. unfold arrivals. rewrite fmap_cons, flush_nonempty.
    split; [|split; apply lookup_delete_eq].
    eexists. split; [done|]. projections. split; [done|]. split; [done|].
    exact (mergedContent_windowText (first :: rest)).
  - split; [intros ?; lia|].
    subst flushed. rewrite bool_decide_eq_false_2 by done.
    destruct (exists_last (l := rest)) as (rest' & [now params] & Hrest).
    { intros ->. unfold arrivals in Hge. simpl in Hge.
      unfold MESSAGE_MERGE_MAX_MESSAGES in Hge. lia. }
    assert (Hlen' : (length (first :: rest') < MESSAGE_MERGE_MAX_MESSAGES)%nat).
    { unfold arrivals in Hcap. rewrite Hrest in Hcap. simpl in Hcap.
      rewrite length_app in Hcap. simpl in *. lia. }
    assert (Hall' : Forall (inWindow key) (first :: rest') /\ inWindow key (now, params)).
    { unfold arrivals in Hall. rewrite Hrest, app_comm_cons in Hall.
      apply Forall_app in Hall as [? Hl]. split; [done|].
      by apply Forall_cons in Hl as [? _]. }
    destruct Hall' as [Hall' [Hself Hkey]]. simpl in Hself, Hkey.
    destruct (window_open s key first rest' Hnone Hall' Hlen') as (Hc & Ht & Hp).
    subst buffered. unfold arrivals. rewrite Hrest, app_comm_cons, fmap_app, mergeRun_app.
    set (s1 := mergeRun s (arrivalEvent <$> first :: rest')) in *.
    rewrite fmap_cons, mergeRun_cons. cbn [fmap list_fmap mergeRun fold_left].
    cbn [mergeStep arrivalEvent fst snd].
    rewrite <- Hkey in Hc.
    rewrite (handle_cap now params s1 _ Hself Hc).
    2:{ projections. rewrite length_fmap. unfold arrivals in Hge. rewrite Hrest in Hge.
        simpl in *. rewrite length_app in Hge. simpl in Hge. lia. }
    projections. rewrite Hp, Hkey.
    split; [|split; apply lookup_delete_eq].
    assert (Hmsgs : (arrivalMessage <$> first :: rest') ++ [newMessage now (data params)] =
                    arrivalMessage <$> (first :: rest') ++ [(now, params)]).
    { by rewrite fmap_app. }
    rewrite Hmsgs, <- app_comm_cons, fmap_cons, flush_nonempty.
    eexists. split; [done|]. projections. split; [done|]. split; [done|].
    exact (mergedContent_windowText (first :: rest' ++ [(now, params)])).
Qed.

Lemma C1_window_is_flushed_once_witness :
  exists call,
    pipelineCalls
      (fireMergeTimer 0
         (mergeRun emptyMergeState
            [ Inbound 0 (Samples.params None None (Samples.textEvent "m1" "part one"));
              Inbound 300 (Samples.params None None (Samples.textEvent "m2" "part two")) ]))
    = [call] /\
    text <$> call_content call = Some ("part one" +:+ blankLine +:+ "part two").
Proof.
  destruct (C1_window_is_flushed_once emptyMergeState sampleKey
              (sampleArrival 0 "m1" "part one") [sampleArrival 300 "m2" "part two"])
    as (_ & (call & Hcalls & _ & Hcontent & _) & _).
  - reflexivity.
  - repeat constructor.
  - unfold MESSAGE_MERGE_MAX_MESSAGES. simpl. lia.
  - exists call. split; [exact Hcalls|].
    rewrite Hcontent. reflexivity.
Defined.

(** C1, as stated, fails: of three events of one window with the texts
    ["a"], blank and ["b"], the pipeline gets ["a"], a blank line, ["b"];
    joining the three texts with blank lines gives two blank lines. *)
Lemma C1_blank_text_is_left_out :
  Forall (inWindow sampleKey) blankInTheMiddle /\
  arrivalText <$> blankInTheMiddle = ["a"; EmptyString; "b"] /\
  exists call,
    pipelineCalls
      (fireMergeTimer 0 (mergeRun emptyMergeState (arrivalEvent <$> blankInTheMiddle)))
    = [call] /\
    text <$> call_content call = Some ("a" +:+ blankLine +:+ "b") /\
    "a" +:+ blankLine +:+ "b" <> Js.join blankLine (arrivalText <$> blankInTheMiddle).
Proof.
  split; [repeat constructor|]. split; [reflexivity|].
  eexists. split; [reflexivity|]. split; [reflexivity|]. discriminate.
Qed.

(** C7: the arrival that brings an entry to the cap clears the window
    timer, removes the entry and invokes the pipeline once, at once, with
    every buffered message; the cleared timer does nothing afterwards. *)
Theorem C7_cap_flushes_at_once (s : MergeState) (now : Z)
    (params : HandleDingTalkMessageParams) (e : MergedMessageEntry) :
  let key := cacheKeyOf params in
  let msgs := messages e ++ [newMessage now (data params)] in
  let s' := handleDingTalkMessage now params s in
  isSelfMessage (data params) = false ->
  messageMergeCache s !! key = Some e ->
  (MESSAGE_MERGE_MAX_MESSAGES <= length msgs)%nat ->
  messageMergeCache s' !! key = None /\
  mergeTimers s' = delete (timer e) (mergeTimers s) /\
  (exists call,
      processMergedMessages msgs params = Some call /\
      call_content call = Some (mergedContent msgs) /\
      pipelineCalls s' = pipelineCalls s ++ [call]) /\
  fireMergeTimer (timer e) s' = s'.
Proof.
  intros key msgs s' Hself He Hcap. subst s'.
  rewrite (handle_cap now params s e Hself He).
  2:{ subst msgs. rewrite length_app in Hcap. simpl in Hcap. lia. }
  fold msgs. projections.
  split; [apply lookup_delete_eq|]. split; [done|]. split.
  - destruct msgs as [|m msgs'] eqn:Hmsgs.
    { unfold MESSAGE_MERGE_MAX_MESSAGES in Hcap. simpl in Hcap. lia. }
    rewrite flush_nonempty. eexists. split; [reflexivity|]. split; done.
  - apply fire_unarmed. projections. apply lookup_delete_eq.
Qed.

Lemma C7_cap_flushes_at_once_witness :
  let s' := handleDingTalkMessage 1400 (sampleArrival 1400 "m5" "five").2 fourBuffered in
  pipelineCalls fourBuffered = [] /\
  messageMergeCache s' !! sampleKey = None /\
  mergeTimers s' = ∅ /\
  exists call,
    pipelineCalls s' = [call] /\
    text <$> call_content call =
      Some ("one" +:+ blankLine +:+ "two" +:+ blankLine +:+ "three" +:+ blankLine
            +:+ "four" +:+ blankLine +:+ "five").
Proof.
  intros s'. split; [reflexivity|].
  destruct (C7_cap_flushes_at_once fourBuffered 1400 (sampleArrival 1400 "m5" "five").2
              {| messages :=
                   arrivalMessage <$>
                     [ sampleArrival 1000 "m1" "one"; sampleArrival 1100 "m2" "two";
                       sampleArrival 1200 "m3" "three"; sampleArrival 1300 "m4" "four" ];
                 timer := 0; e_accountId := "acct"; e_senderId := Some "staff-1";
                 sessionKey := EmptyString; startTime := 1000 |})
    as (Hcache & Htimers & (call & _ & Hcontent & Hcalls) & _).
  - reflexivity.
  - reflexivity.
  - unfold MESSAGE_MERGE_MAX_MESSAGES. simpl. lia.
  - split; [exact Hcache|]. split; [exact Htimers|].
    exists call. split; [exact Hcalls|]. rewrite Hcontent. reflexivity.
Defined.

(** ** Events without text *)

(** C4, as stated, fails: a window whose only event has a blank text has
    an empty concatenated text, and the pipeline is not aborted at the
    text guard; it goes on to route resolution with the placeholder. *)
Lemma C4_empty_merge_is_dispatched :
  arrivalText (sampleArrival 1000 "m1" "   ") = EmptyString /\
  (exists e, messageMergeCache blankOnlyRun !! sampleKey = Some e /\
             messages e = [arrivalMessage (sampleArrival 1000 "m1" "   ")] /\
             mergedText (messages e) = EmptyString) /\
  exists call,
    pipelineCalls (fireMergeTimer 0 blankOnlyRun) = [call] /\
    handleDingTalkMessageOriginal call =
      Dispatched true (Some "staff-1") (pipelineContent call) /\
    text (pipelineContent call) = mergedPlaceholder.
Proof.
  split; [reflexivity|]. split.
  - eexists. split; [reflexivity|]. split; reflexivity.
  - eexists. split; [reflexivity|]. split; reflexivity.
Qed.

(** C4, amended: an event is appended to its merge entry whatever its
    text, an empty one included, and no pipeline call is made, as long as
    the entry stays below the cap; only when the event brings the entry to
    the cap is the entry removed and flushed, the event included, in one
    pipeline call. When the concatenated text of a merge is empty the
    merged content carries the placeholder, so that the text guard of the
    pipeline never aborts a merge. *)
Theorem C4_textless_event_is_kept (s : MergeState) (now : Z)
    (params : HandleDingTalkMessageParams) :
  let key := cacheKeyOf params in
  let message := newMessage now (data params) in
  let before := default [] (messages <$> messageMergeCache s !! key) in
  let s' := handleDingTalkMessage now params s in
  isSelfMessage (data params) = false ->
  m_content message = extractMessageContent (data params) /\
  ((length before + 1 < MESSAGE_MERGE_MAX_MESSAGES)%nat ->
     (exists e, messageMergeCache s' !! key = Some e /\ messages e = before ++ [message]) /\
     pipelineCalls s' = pipelineCalls s) /\
  ((MESSAGE_MERGE_MAX_MESSAGES <= length before + 1)%nat ->
     messageMergeCache s' !! key = None /\
     exists call, pipelineCalls s' = pipelineCalls s ++ [call] /\
                  call_content call = Some (mergedContent (before ++ [message]))) /\
  (forall msgs p call,
      processMergedMessages msgs p = Some call ->
      (mergedText msgs = EmptyString -> text (pipelineContent call) = mergedPlaceholder) /\
      Js.truthy (text (pipelineContent call)) = true /\
      handleDingTalkMessageOriginal call <> SkippedNoText).
Proof.
  intros key message before s' Hself. split; [done|].
  assert (Hbefore : forall e, messageMergeCache s !! key = Some e -> before = messages e).
  { intros e He. subst before. by rewrite He. }
  split; [|split].
  - intros Hlen. subst s'. destruct (messageMergeCache s !! key) as [e|] eqn:He.
    + rewrite (Hbefore e eq_refl) in *.
      rewrite (handle_append now params s e Hself He) by done. projections.
      split; [|done]. eexists. split; [apply lookup_insert_eq|done].
    + rewrite (handle_first now params s Hself He). projections.
      split; [|done]. eexists. split; [apply lookup_insert_eq|].
      by subst before.
  - intros Hlen. subst s'. destruct (messageMergeCache s !! key) as [e|] eqn:He.
    + rewrite (Hbefore e eq_refl) in *.
      rewrite (handle_cap now params s e Hself He) by done. projections.
      split; [apply lookup_delete_eq|].
      fold message. destruct (messages e ++ [message]) as [|m l] eqn:Hm.
      { by destruct (messages e). }
      rewrite flush_nonempty. eexists. split; done.
    + exfalso. subst before. unfold MESSAGE_MERGE_MAX_MESSAGES in Hlen.
      simpl in Hlen. lia.
  - intros msgs p call Hcall. destruct msgs as [|m msgs]; [discriminate|].
    injection Hcall as <-. unfold pipelineContent. projections.
    split; [|split].
    + intros Hempty. unfold mergedContent. simpl. by rewrite Hempty.
    + apply mergedContent_text_truthy.
    + unfold handleDingTalkMessageOriginal. projections. cbv zeta.
      rewrite mergedContent_text_truthy. simpl. repeat case_match; discriminate.
Qed.

Lemma C4_textless_event_is_kept_witness :
  let a := sampleArrival 1000 "m1" "   " in
  let s' := handleDingTalkMessage a.1 a.2 emptyMergeState in
  let b := sampleArrival 1400 "m5" "   " in
  let t' := handleDingTalkMessage b.1 b.2 fourBuffered in
  arrivalText a = EmptyString /\
  ((exists e, messageMergeCache s' !! cacheKeyOf a.2 = Some e /\
              messages e = [arrivalMessage a]) /\
   pipelineCalls s' = []) /\
  (messageMergeCache t' !! cacheKeyOf b.2 = None /\
   exists call,
     pipelineCalls t' = [call] /\
     text <$> call_content call =
       Some ("one" +:+ blankLine +:+ "two" +:+ blankLine +:+ "three" +:+ blankLine
             +:+ "four")).
Proof.
  intros a s' b t'. split; [reflexivity|]. split.
  - destruct (C4_textless_event_is_kept emptyMergeState a.1 a.2) as (_ & Happend & _).
    + reflexivity.
    + apply Happend. vm_compute. lia.
  - destruct (C4_textless_event_is_kept fourBuffered b.1 b.2) as (_ & _ & Hcap & _).
    + reflexivity.
    + destruct Hcap as (Hnone & call & Hcalls & Hcontent).
      * vm_compute. lia.
      * split; [exact Hnone|]. exists call. split; [exact Hcalls|].
        rewrite Hcontent. reflexivity.
Defined.

(** ** Token cache and retry helper *)

Lemma retryLoop_step {A} (fn : Async A) maxRetries remaining attempt w :
  retryLoop fn maxRetries 100 (S remaining) attempt w =
    match fn w with
    | (inr a, w') => (inr a, w')
    | (inl err, w') =>
        if (negb (isRetryable err) || Nat.eqb attempt maxRetries)%bool then (inl err, w')
        else retryLoop fn maxRetries 100 remaining (S attempt)
                       (afterSleep (backoffDelay attempt) w')
    end.
Proof.
  cbn [retryLoop]. unfold tryCatch. destruct (fn w) as [[err|a] w']; [|done].
  by destruct (negb (isRetryable err) || Nat.eqb attempt maxRetries)%bool.
Qed.

Section TokenFacts.
Context (remote : Remote) (config : DingTalkConfig).

Let post : HttpRequest := PostAccessToken (clientId config) (clientSecret config).

Lemma requestAccessToken_rejected now w status :
  tokenEndpoint remote (requests w) post = inl status ->
  requestAccessToken remote config now w = (inl (AxiosError status), logRequest post w).
Proof. intros H. unfold requestAccessToken. unfold post in H. by rewrite H. Qed.

Lemma requestAccessToken_answered now w info :
  tokenEndpoint remote (requests w) post = inr info ->
  requestAccessToken remote config now w =
    (inr (ti_accessToken info),
     {| accessToken := Some (ti_accessToken info);
        accessTokenExpiry := now + ti_expireIn info * 1000;
        cardInstances := cardInstances w; requests := requests w ++ [post];
        slept := slept w; clock := clock w |}).
Proof. intros H. unfold requestAccessToken. unfold post in H. by rewrite H. Qed.

(** What one run of the retry loop around the token request does. *)
Lemma retry_token (now : Z) (maxRetries : nat) :
  forall (remaining attempt : nat) (w : World),
    (attempt + remaining = maxRetries + 1)%nat -> (1 <= remaining)%nat ->
    let out := retryLoop (requestAccessToken remote config now) maxRetries 100
                         remaining attempt w in
    exists n,
      (1 <= n <= remaining)%nat /\
      requests out.2 = requests w ++ replicate n post /\
      cardInstances out.2 = cardInstances w /\
      match out.1 with
      | inr tok =>
          successes remote (requests w) (replicate n post) = 1%nat /\
          (exists info,
              tokenEndpoint remote (requests w ++ replicate (n - 1) post) post = inr info /\
              tok = ti_accessToken info /\
              accessToken out.2 = Some tok /\
              accessTokenExpiry out.2 = now + ti_expireIn info * 1000)
      | inl _ =>
          successes remote (requests w) (replicate n post) = 0%nat /\
          accessToken out.2 = accessToken w /\
          accessTokenExpiry out.2 = accessTokenExpiry w
      end.
Proof.
  induction remaining as [|remaining IH]; intros attempt w Hsum Hpos out; [lia|].
  subst out. rewrite retryLoop_step.
  destruct (tokenEndpoint remote (requests w) post) as [status|info] eqn:Hresp.
  - rewrite (requestAccessToken_rejected now w status Hresp).
    destruct (negb (isRetryable (AxiosError status)) || (attempt =? maxRetries)%nat)%bool
      eqn:Hstop.
    + exists 1%nat. unfold post in *. cbn [fst snd replicate successes answered]. rewrite Hresp.
      repeat split; try done; lia.
    + apply orb_false_iff in Hstop as [_ Hatt]. apply Nat.eqb_neq in Hatt.
      set (w2 := afterSleep _ _).
      destruct (IH (S attempt) w2) as (n & Hn & Hreq & Hcards & Hout); [lia|lia|].
      exists (S n). split; [lia|]. split; [|split; [by rewrite Hcards|]].
      * rewrite Hreq. subst w2. simpl. by rewrite <- app_assoc.
      * unfold post in *. cbn [replicate successes answered]. rewrite Hresp.
        replace (S n - 1)%nat with (S (n - 1)) by lia.
        cbn [replicate]. subst w2. simpl in Hout.
        rewrite <- !app_assoc in Hout. exact Hout.
  - rewrite (requestAccessToken_answered now w info Hresp).
    exists 1%nat. unfold post in *. cbn [fst snd replicate successes answered]. rewrite Hresp.
    split; [lia|]. split; [done|]. split; [done|].
    split; [done|]. exists info. by rewrite app_nil_r.
Qed.

Lemma getAccessToken_fresh (w : World) :
  tokenFresh w ->
  exists tok, accessToken w = Some tok /\ getAccessToken remote config w = (inr tok, w).
Proof.
  intros (tok & Htok & Hne & Hexp). exists tok. split; [done|].
  unfold getAccessToken. rewrite Htok.
  apply truthy_true in Hne. rewrite Hne. simpl.
  destruct (Z.ltb_spec (clock w + TOKEN_SAFETY_MARGIN) (accessTokenExpiry w)); [done|lia].
Qed.

Lemma getAccessToken_stale (w : World) :
  ~ tokenFresh w ->
  getAccessToken remote config w =
    retryWithBackoff (requestAccessToken remote config (clock w)) MAX_RETRIES w.
Proof.
  intros Hstale. unfold getAccessToken.
  destruct (accessToken w) as [tok|] eqn:Htok; [|done].
  destruct (Js.truthy tok) eqn:Htruthy; [|done]. simpl.
  destruct (Z.ltb_spec (clock w + TOKEN_SAFETY_MARGIN) (accessTokenExpiry w)); [|done].
  exfalso. apply Hstale. exists tok. by rewrite truthy_true in Htruthy.
Qed.
End TokenFacts.

(** C6, as stated, fails: the cached token is exactly at the margin and
    the token endpoint answers 500 each time. Three refresh calls are
    made, none succeeds, the error is thrown and the cache is not
    replaced. *)
Lemma C6_refresh_may_fail :
  let post := PostAccessToken (Some "app-key") (Some "app-secret") in
  let out := getAccessToken tokenEndpointDown (Samples.config None None) staleWorld in
  accessTokenExpiry staleWorld - clock staleWorld = TOKEN_SAFETY_MARGIN /\
  out.1 = inl (AxiosError (Some 500)) /\
  requests out.2 = [post; post; post] /\
  successes tokenEndpointDown [] (requests out.2) = 0%nat /\
  accessToken out.2 = Some "old-token" /\
  accessTokenExpiry out.2 = 1060000.
Proof. repeat split. Qed.

(** C6, amended: with a non-empty cached token whose remaining lifetime
    exceeds the margin the token is returned and nothing changes (no
    network call). Otherwise between one and three refresh calls are made;
    when the fetch returns a token exactly one of them succeeded, it is the
    last one, and the cached token and expiry are replaced from its
    response; when the fetch throws none succeeded and the cache is as it
    was. *)
Theorem C6_token_fetch (remote : Remote) (config : DingTalkConfig) (w : World) :
  let out := getAccessToken remote config w in
  let post := PostAccessToken (clientId config) (clientSecret config) in
  (tokenFresh w ->
     exists tok, accessToken w = Some tok /\ out.1 = inr tok /\ out.2 = w) /\
  (~ tokenFresh w ->
     exists n,
       (1 <= n <= MAX_RETRIES)%nat /\
       requests out.2 = requests w ++ replicate n post /\
       match out.1 with
       | inr tok =>
           successes remote (requests w) (replicate n post) = 1%nat /\
           exists info,
             tokenEndpoint remote (requests w ++ replicate (n - 1) post) post = inr info /\
             tok = ti_accessToken info /\
             accessToken out.2 = Some tok /\
             accessTokenExpiry out.2 = clock w + ti_expireIn info * 1000
       | inl _ =>
           successes remote (requests w) (replicate n post) = 0%nat /\
           accessToken out.2 = accessToken w /\
           accessTokenExpiry out.2 = accessTokenExpiry w
       end).
Proof.
  intros out post. split.
  - intros Hfresh.
    destruct (getAccessToken_fresh remote config w Hfresh) as (tok & Htok & Hout).
    exists tok. subst out. by rewrite Hout.
  - intros Hstale. subst out. rewrite getAccessToken_stale by done.
    unfold retryWithBackoff.
    destruct (retry_token remote config (clock w) MAX_RETRIES MAX_RETRIES 1 w)
      as (n & Hn & Hreq & _ & Hout); [done|unfold MAX_RETRIES; lia|].
    exists n. split; [done|]. split; [done|]. exact Hout.
Qed.

Lemma C6_token_fetch_witness :
  let post := PostAccessToken (Some "app-key") (Some "app-secret") in
  let out := getAccessToken tokenEndpointFlaky (Samples.config None None) staleWorld in
  exists n,
    (1 <= n <= MAX_RETRIES)%nat /\
    requests out.2 = requests staleWorld ++ replicate n post /\
    match out.1 with
    | inr tok =>
        successes tokenEndpointFlaky (requests staleWorld) (replicate n post) = 1%nat /\
        exists info,
          tokenEndpoint tokenEndpointFlaky
            (requests staleWorld ++ replicate (n - 1) post) post = inr info /\
          tok = ti_accessToken info /\
          accessToken out.2 = Some tok /\
          accessTokenExpiry out.2 = clock staleWorld + ti_expireIn info * 1000
    | inl _ =>
        successes tokenEndpointFlaky (requests staleWorld) (replicate n post) = 0%nat /\
        accessToken out.2 = accessToken staleWorld /\
        accessTokenExpiry out.2 = accessTokenExpiry staleWorld
    end.
Proof.
  intros post out.
  apply (proj2 (C6_token_fetch tokenEndpointFlaky (Samples.config None None) staleWorld)).
  intros (tok & Htok & _ & Hexp). injection Htok as <-.
  unfold staleWorld, TOKEN_SAFETY_MARGIN in Hexp. simpl in Hexp. lia.
Defined.

(** The run of the witness, evaluated: the retry makes two calls, the
    second succeeds, and the expiry counts from the start of the fetch. *)
Example token_refresh_after_one_retry :
  let post := PostAccessToken (Some "app-key") (Some "app-secret") in
  let out := getAccessToken tokenEndpointFlaky (Samples.config None None) staleWorld in
  out.1 = inr "new-token" /\
  requests out.2 = [post; post] /\
  slept out.2 = [100] /\
  accessToken out.2 = Some "new-token" /\
  accessTokenExpiry out.2 = 1000000 + 7200 * 1000.
Proof. repeat split. Qed.

(** ** Card update *)

Section CardFacts.
Context (remote : Remote) (url token cardBizId text : string).

Let put : HttpRequest := PutCard url token cardBizId text.

Lemma retriedWorld_requests n : forall attempt w,
  requests (retriedWorld put attempt n w) = requests w ++ replicate (S n) put.
Proof.
  induction n as [|n IH]; intros attempt w; [done|].
  cbn [retriedWorld]. rewrite IH. simpl. by rewrite <- app_assoc.
Qed.

Lemma retriedWorld_slept n : forall attempt w,
  slept (retriedWorld put attempt n w) = slept w ++ (backoffDelay <$> seq attempt n).
Proof.
  induction n as [|n IH]; intros attempt w; [simpl; by rewrite app_nil_r|].
  cbn [retriedWorld]. rewrite IH. simpl. by rewrite <- app_assoc.
Qed.

Lemma retriedWorld_state n : forall attempt w,
  cardInstances (retriedWorld put attempt n w) = cardInstances w /\
  accessToken (retriedWorld put attempt n w) = accessToken w /\
  accessTokenExpiry (retriedWorld put attempt n w) = accessTokenExpiry w.
Proof.
  induction n as [|n IH]; intros attempt w; [done|].
  cbn [retriedWorld]. by destruct (IH (S attempt) (afterSleep (backoffDelay attempt)
                                                     (logRequest put w))) as (-> & -> & ->).
Qed.

Lemma putCardOnce_rejected w status :
  cardEndpoint remote (requests w) put = inl status ->
  putCardOnce remote url token cardBizId text w = (inl (AxiosError status), logRequest put w).
Proof. intros H. unfold putCardOnce. unfold put in H. by rewrite H. Qed.

(** The retry loop around the card request stops at the first rejection
    that is not retryable, or at the last attempt. *)
Lemma retry_put_stops (maxRetries : nat) (last : option Z) :
  forall (n remaining attempt : nat) (w : World),
    (attempt + remaining = maxRetries + 1)%nat ->
    (n < remaining)%nat ->
    (forall i, (i < n)%nat ->
       exists st, cardEndpoint remote (requests w ++ replicate i put) put = inl st /\
                  isRetryable (AxiosError st) = true) ->
    cardEndpoint remote (requests w ++ replicate n put) put = inl last ->
    isRetryable (AxiosError last) = false \/ S n = remaining ->
    retryLoop (putCardOnce remote url token cardBizId text) maxRetries 100
              remaining attempt w
    = (inl (AxiosError last), retriedWorld put attempt n w).
Proof.
  induction n as [|n IH]; intros remaining attempt w Hsum Hlt Hretry Hlast Hstop;
    (destruct remaining as [|remaining]; [lia|]); rewrite retryLoop_step.
  - simpl in Hlast. rewrite app_nil_r in Hlast.
    rewrite (putCardOnce_rejected w last Hlast).
    destruct Hstop as [->|Hn]; [done|].
    replace (attempt =? maxRetries)%nat with true; [by rewrite orb_true_r|].
    symmetry. apply Nat.eqb_eq. lia.
  - destruct (Hretry 0%nat) as (st & Hst & Hretryable); [lia|].
    simpl in Hst. rewrite app_nil_r in Hst.
    rewrite (putCardOnce_rejected w st Hst), Hretryable. simpl.
    replace (attempt =? maxRetries)%nat with false
      by (symmetry; apply Nat.eqb_neq; lia).
    cbn [retriedWorld]. apply IH; [lia|lia| | |].
    + intros i Hi. destruct (Hretry (S i)) as (st' & Hst' & Hr'); [lia|].
      exists st'. split; [|done]. simpl in *. by rewrite <- app_assoc.
    + simpl in *. by rewrite <- app_assoc.
    + destruct Hstop as [?|?]; [by left|right; lia].
Qed.
End CardFacts.

Lemma updateInteractiveCard_rejected remote config cardBizId text w token w1 err w2 :
  getAccessToken remote config w = (inr token, w1) ->
  retryWithBackoff
    (putCardOnce remote (Js.orS (cardUpdateApiUrl config) defaultCardUpdateUrl)
                 token cardBizId text) MAX_RETRIES w1 = (inl err, w2) ->
  updateInteractiveCard remote config cardBizId text w =
    (inl err,
     if isTerminalStatus (errorStatus err) then (removeCard cardBizId w2).2 else w2).
Proof.
  intros Htoken Hput. unfold updateInteractiveCard, bind at 1. rewrite Htoken.
  unfold tryCatch, bind at 1. rewrite Hput.
  by destruct (isTerminalStatus (errorStatus err)).
Qed.

(** An error of the token fetch that precedes the request is thrown as it
    is, whatever its status: no card request is made and the registry is
    not touched. *)
Lemma updateInteractiveCard_token_failure remote config cardBizId text w err w1 :
  getAccessToken remote config w = (inl err, w1) ->
  updateInteractiveCard remote config cardBizId text w = (inl err, w1).
Proof. intros Htoken. unfold updateInteractiveCard, bind at 1. by rewrite Htoken. Qed.

(** C5: a card update whose attempt is rejected with 404, 410 or 403
    (after [n] attempts rejected with 500, [n] below the bound) makes no
    further attempt, throws that error and leaves the card out of the
    registry; an update rejected with 500 at every attempt makes
    [MAX_RETRIES] attempts, with the backoff delays between them, throws
    the error and leaves the registry alone. *)
Theorem C5_terminal_status_evicts_and_500_is_retried
    (remote : Remote) (config : DingTalkConfig) (cardBizId text token : string)
    (w w1 : World) :
  let put := PutCard (Js.orS (cardUpdateApiUrl config) defaultCardUpdateUrl)
                     token cardBizId text in
  let answer := fun i : nat => cardEndpoint remote (requests w1 ++ replicate i put) put in
  let out := updateInteractiveCard remote config cardBizId text w in
  getAccessToken remote config w = (inr token, w1) ->
  (forall (n : nat) (status : Z),
      (n < MAX_RETRIES)%nat ->
      (forall i, (i < n)%nat -> answer i = inl (Some 500)) ->
      answer n = inl (Some status) ->
      status = 404 \/ status = 410 \/ status = 403 ->
      out.1 = inl (AxiosError (Some status)) /\
      requests out.2 = requests w1 ++ replicate (S n) put /\
      cardInstances out.2 !! cardBizId = None) /\
  ((forall i, (i < MAX_RETRIES)%nat -> answer i = inl (Some 500)) ->
      out.1 = inl (AxiosError (Some 500)) /\
      requests out.2 = requests w1 ++ replicate MAX_RETRIES put /\
      slept out.2 = slept w1 ++ [100; 200] /\
      cardInstances out.2 = cardInstances w1).
Proof.
  intros put answer out Htoken. split.
  - intros n status Hn Hretried Hstatus Hterminal.
    assert (Hrun := retry_put_stops remote
                      (Js.orS (cardUpdateApiUrl config) defaultCardUpdateUrl)
                      token cardBizId text MAX_RETRIES (Some status) n MAX_RETRIES 1 w1).
    unfold retryWithBackoff in *. subst out.
    erewrite updateInteractiveCard_rejected; [|exact Htoken|].
    2:{ unfold retryWithBackoff. apply Hrun; [done|done| |exact Hstatus|].
        - intros i Hi. exists (Some 500). split; [by apply Hretried|done].
        - left. by destruct Hterminal as [-> | [-> | ->]]. }
    replace (isTerminalStatus (errorStatus (AxiosError (Some status)))) with true
      by (by destruct Hterminal as [-> | [-> | ->]]).
    cbn [fst snd removeCard cardInstances requests].
    split; [done|]. split; [apply retriedWorld_requests|apply lookup_delete_eq].
  - intros Hall. subst out.
    erewrite updateInteractiveCard_rejected; [|exact Htoken|].
    2:{ unfold retryWithBackoff.
        apply (retry_put_stops remote
                 (Js.orS (cardUpdateApiUrl config) defaultCardUpdateUrl)
                 token cardBizId text MAX_RETRIES (Some 500)
                 2 MAX_RETRIES 1 w1); [done|unfold MAX_RETRIES; lia| | |by right].
        - intros i Hi. exists (Some 500). split; [|done].
          apply Hall. unfold MAX_RETRIES. lia.
        - apply Hall. unfold MAX_RETRIES. lia. }
    cbn [fst snd errorStatus isTerminalStatus]. simpl Z.eqb. cbn [orb].
    split; [done|]. split; [apply retriedWorld_requests|].
    split; [by rewrite retriedWorld_slept|]. apply retriedWorld_state.
Qed.

Lemma C5_terminal_status_evicts_and_500_is_retried_witness :
  let put := PutCard defaultCardUpdateUrl "cached-token" "card-1" "hello" in
  let out :=
    updateInteractiveCard cardGone (Samples.config None None) "card-1" "hello" worldWithCard in
  is_Some (cardInstances worldWithCard !! "card-1") /\
  out.1 = inl (AxiosError (Some 404)) /\
  requests out.2 = [put; put] /\
  cardInstances out.2 !! "card-1" = None.
Proof.
  intros put out. split; [by eexists|].
  apply (proj1 (C5_terminal_status_evicts_and_500_is_retried cardGone
                  (Samples.config None None) "card-1" "hello" "cached-token"
                  worldWithCard worldWithCard eq_refl) 1%nat 404).
  - unfold MAX_RETRIES. lia.
  - intros [|i] Hi; [reflexivity|lia].
  - reflexivity.
  - by left.
Defined.

(** ** The card update throttle *)

Lemma holdersOk_shrink timers' timers ops proms np :
  timers' ⊆ timers -> holdersOk timers ops proms np -> holdersOk timers' ops proms np.
Proof.
  intros Hsub (H1 & H2 & H3 & H4 & H5). split; [|split; [|split; [|split]]].
  - intros h t p Ht Hp. apply (H1 h t p); [by eapply lookup_weaken|done].
  - done.
  - intros h1 h2 t1 t2 p Ht1 Ht2. apply (H3 h1 h2 t1 t2 p); by eapply lookup_weaken.
  - intros h t op o Ht Ho. apply (H4 h t op o); [by eapply lookup_weaken|done].
  - done.
Qed.

Lemma orphaned_shrink timers' timers ops proms np promise :
  timers' ⊆ timers -> orphaned timers ops proms np promise ->
  orphaned timers' ops proms np promise.
Proof.
  intros Hsub (H1 & H2 & H3 & H4). split; [done|]. split; [done|]. split; [|done].
  intros h t Ht. apply (H3 h t). by eapply lookup_weaken.
Qed.

Lemma clearCardTimeout_subseteq cardBizId s : clearCardTimeout cardBizId s ⊆ cardTimers s.
Proof. unfold clearCardTimeout. case_match; [apply delete_subseteq|done]. Qed.

Lemma foldr_delete_subseteq {A} (f : A -> nat) (l : list A) (timers : gmap nat CardTimer) :
  foldr (fun x m => delete (f x) m) timers l ⊆ timers.
Proof.
  induction l as [|x l IH]; simpl; [done|].
  etrans; [apply delete_subseteq|done].
Qed.

Section Holders.
Implicit Types (timers : gmap nat CardTimer) (ops : gmap nat InflightUpdate)
               (proms : gmap nat PromiseState).

Lemma holdersOk_new_promise timers ops proms np :
  holdersOk timers ops proms np ->
  holdersOk timers ops (<[np := Pending]> proms) (S np).
Proof.
  intros (H1 & H2 & H3 & H4 & H5). split; [|split; [|split; [|split]]]; try done.
  - intros h t p Ht Hp. destruct (H1 h t p Ht Hp) as [Hlt Hpend].
    split; [lia|]. rewrite lookup_insert_ne by lia. done.
  - intros op o Ho. destruct (H2 op o Ho) as [Hlt Hpend].
    split; [lia|]. rewrite lookup_insert_ne by lia. done.
Qed.

Lemma orphaned_new_promise timers ops proms np promise :
  orphaned timers ops proms np promise ->
  orphaned timers ops (<[np := Pending]> proms) (S np) promise.
Proof.
  intros (Hlt & Hpend & H3 & H4). split; [lia|]. split; [|done].
  rewrite lookup_insert_ne by lia. done.
Qed.

(** A pending promise that nothing holds is handed to a new awaited update. *)
Lemma holdersOk_new_op timers ops proms np k c x p :
  orphaned timers ops proms np p ->
  holdersOk timers ops proms np ->
  holdersOk timers (<[k := {| op_cardBizId := c; op_text := x; op_promise := p |}]> ops)
            proms np.
Proof.
  intros (Hlt & Hpend & Hno_t & Hno_o) (H1 & H2 & H3 & H4 & H5).
  split; [|split; [|split; [|split]]]; try done.
  - intros op o Ho. destruct (decide (k = op)) as [->|Hne].
    + rewrite lookup_insert_eq in Ho. injection Ho as <-. done.
    + rewrite lookup_insert_ne in Ho by done. by apply (H2 op).
  - intros h t op o Ht Ho. destruct (decide (k = op)) as [->|Hne].
    + rewrite lookup_insert_eq in Ho. injection Ho as <-. simpl. by apply (Hno_t h).
    + rewrite lookup_insert_ne in Ho by done. by apply (H4 h t op).
  - intros op1 op2 o1 o2 Ho1 Ho2 Heq.
    destruct (decide (op1 = op2)) as [|Hne]; [done|exfalso].
    destruct (decide (k = op1)) as [Hk1|Hne1], (decide (k = op2)) as [Hk2|Hne2].
    + congruence.
    + subst op1. rewrite lookup_insert_eq in Ho1. injection Ho1 as <-.
      rewrite lookup_insert_ne in Ho2 by done. simpl in Heq.
      by destruct (Hno_o op2 o2 Ho2).
    + subst op2. rewrite lookup_insert_eq in Ho2. injection Ho2 as <-.
      rewrite lookup_insert_ne in Ho1 by done. simpl in Heq.
      by destruct (Hno_o op1 o1 Ho1).
    + rewrite lookup_insert_ne in Ho1, Ho2 by done. by apply Hne, (H5 op1 op2 o1 o2).
Qed.

Lemma orphaned_new_op timers ops proms np k c x p promise :
  p <> promise ->
  orphaned timers ops proms np promise ->
  orphaned timers (<[k := {| op_cardBizId := c; op_text := x; op_promise := p |}]> ops)
           proms np promise.
Proof.
  intros Hne (Hlt & Hpend & H3 & H4). split; [done|]. split; [done|]. split; [done|].
  intros op o Ho. destruct (decide (k = op)) as [->|Hk].
  - rewrite lookup_insert_eq in Ho. by injection Ho as <-.
  - rewrite lookup_insert_ne in Ho by done. by apply (H4 op).
Qed.

(** A pending promise that nothing holds is handed to a new timer. *)
Lemma holdersOk_new_scheduled timers ops proms np h due c x p :
  orphaned timers ops proms np p ->
  holdersOk timers ops proms np ->
  holdersOk (<[h := {| ct_due := due; ct_callback := ScheduledUpdate c x p |}]> timers)
            ops proms np.
Proof.
  intros (Hlt & Hpend & Hno_t & Hno_o) (H1 & H2 & H3 & H4 & H5).
  split; [|split; [|split; [|split]]]; try done.
  - intros h' t p' Ht Hp. destruct (decide (h = h')) as [->|Hne].
    + rewrite lookup_insert_eq in Ht. injection Ht as <-. simpl in Hp. by subst.
    + rewrite lookup_insert_ne in Ht by done. by apply (H1 h' t).
  - intros h1 h2 t1 t2 p' Ht1 Ht2 Hp1 Hp2.
    destruct (decide (h1 = h2)) as [|Hne]; [done|exfalso].
    destruct (decide (h = h1)) as [Hh1|Hne1], (decide (h = h2)) as [Hh2|Hne2].
    + congruence.
    + subst h1. rewrite lookup_insert_eq in Ht1. injection Ht1 as <-. simpl in Hp1.
      subst p'. rewrite lookup_insert_ne in Ht2 by done. by destruct (Hno_t h2 t2 Ht2).
    + subst h2. rewrite lookup_insert_eq in Ht2. injection Ht2 as <-. simpl in Hp2.
      subst p'. rewrite lookup_insert_ne in Ht1 by done. by destruct (Hno_t h1 t1 Ht1).
    + rewrite lookup_insert_ne in Ht1, Ht2 by done. by apply Hne, (H3 h1 h2 t1 t2 p').
  - intros h' t op o Ht Ho Hp. destruct (decide (h = h')) as [->|Hne].
    + rewrite lookup_insert_eq in Ht. injection Ht as <-. simpl in Hp.
      by apply (Hno_o op o Ho).
    + rewrite lookup_insert_ne in Ht by done. by apply (H4 h' t op o).
Qed.

Lemma holdersOk_new_inactivity timers ops proms np h due c :
  holdersOk timers ops proms np ->
  holdersOk (<[h := {| ct_due := due; ct_callback := InactivityFinalize c |}]> timers)
            ops proms np.
Proof.
  intros (H1 & H2 & H3 & H4 & H5).
  split; [|split; [|split; [|split]]]; try done.
  - intros h' t p' Ht Hp. destruct (decide (h = h')) as [->|Hne].
    + rewrite lookup_insert_eq in Ht. by injection Ht as <-.
    + rewrite lookup_insert_ne in Ht by done. by apply (H1 h' t).
  - intros h1 h2 t1 t2 p' Ht1 Ht2 Hp1 Hp2.
    destruct (decide (h = h1)) as [->|Hne1].
    { rewrite lookup_insert_eq in Ht1. by injection Ht1 as <-. }
    destruct (decide (h = h2)) as [->|Hne2].
    { rewrite lookup_insert_eq in Ht2. by injection Ht2 as <-. }
    rewrite lookup_insert_ne in Ht1, Ht2 by done. by apply (H3 h1 h2 t1 t2 p').
  - intros h' t op o Ht Ho Hp. destruct (decide (h = h')) as [->|Hne].
    + rewrite lookup_insert_eq in Ht. by injection Ht as <-.
    + rewrite lookup_insert_ne in Ht by done. by apply (H4 h' t op o).
Qed.

Lemma orphaned_new_timer timers ops proms np h t promise :
  ~ refersTo promise (ct_callback t) ->
  orphaned timers ops proms np promise ->
  orphaned (<[h := t]> timers) ops proms np promise.
Proof.
  intros Hne (Hlt & Hpend & H3 & H4). split; [done|]. split; [done|]. split; [|done].
  intros h' t' Ht. destruct (decide (h = h')) as [->|Hh].
  - rewrite lookup_insert_eq in Ht. by injection Ht as <-.
  - rewrite lookup_insert_ne in Ht by done. by apply (H3 h').
Qed.

(** The awaited update [op] settles its promise and is gone. *)
Lemma holdersOk_settled timers ops proms np op o st :
  ops !! op = Some o ->
  holdersOk timers ops proms np ->
  holdersOk timers (delete op ops) (<[op_promise o := st]> proms) np.
Proof.
  intros Hop (H1 & H2 & H3 & H4 & H5).
  split; [|split; [|split; [|split]]]; try done.
  - intros h t p Ht Hp. destruct (H1 h t p Ht Hp) as [Hlt Hpend]. split; [done|].
    rewrite lookup_insert_ne; [done|]. intros <-. by apply (H4 h t op o).
  - intros op' o' Ho'. apply lookup_delete_Some in Ho' as [Hne Ho'].
    destruct (H2 op' o' Ho') as [Hlt Hpend]. split; [done|].
    rewrite lookup_insert_ne; [done|]. intros Heq. by apply Hne, (H5 op op' o o').
  - intros h t op' o' Ht Ho'. apply lookup_delete_Some in Ho' as [Hne Ho'].
    by apply (H4 h t op' o').
  - intros op1 op2 o1 o2 Ho1 Ho2.
    apply lookup_delete_Some in Ho1 as [_ Ho1]. apply lookup_delete_Some in Ho2 as [_ Ho2].
    by apply (H5 op1 op2 o1 o2).
Qed.

Lemma orphaned_settled timers ops proms np op o st promise :
  ops !! op = Some o ->
  orphaned timers ops proms np promise ->
  orphaned timers (delete op ops) (<[op_promise o := st]> proms) np promise.
Proof.
  intros Hop (Hlt & Hpend & H3 & H4). split; [done|]. split; [|split; [done|]].
  - rewrite lookup_insert_ne; [done|]. by apply (H4 op o).
  - intros op' o' Ho'. apply lookup_delete_Some in Ho' as [_ Ho']. by apply (H4 op' o').
Qed.

(** The timer that fires hands its promise over: after it is disarmed
    nothing else holds that promise. *)
Lemma fired_timer_orphans timers ops proms np h due c x p :
  timers !! h = Some {| ct_due := due; ct_callback := ScheduledUpdate c x p |} ->
  holdersOk timers ops proms np ->
  orphaned (delete h timers) ops proms np p.
Proof.
  intros Ht (H1 & H2 & H3 & H4 & H5).
  destruct (H1 h _ p Ht eq_refl) as [Hlt Hpend].
  split; [done|]. split; [done|]. split.
  - intros h' t' Ht' Hp. apply lookup_delete_Some in Ht' as [Hne Ht'].
    apply Hne. by apply (H3 h h' _ t' p Ht Ht').
  - intros op o Ho Heq. apply (H4 h _ op o Ht Ho). simpl. done.
Qed.
End Holders.

Lemma fresh_promise_orphaned timers ops proms np :
  holdersOk timers ops proms np ->
  orphaned timers ops (<[np := Pending]> proms) (S np) np.
Proof.
  intros (H1 & H2 & _). split; [lia|]. split; [apply lookup_insert_eq|]. split.
  - intros h t Ht Hp. destruct (H1 h t np Ht Hp). lia.
  - intros op o Ho Heq. destruct (H2 op o Ho). lia.
Qed.

Lemma wellFormed_empty : wellFormed emptyThrottleState.
Proof. repeat split; intros *; by rewrite ?lookup_empty. Qed.

Lemma wellFormed_request now cardBizId text s :
  wellFormed s -> wellFormed (updateInteractiveCardThrottled now cardBizId text s).
Proof.
  unfold wellFormed. intros Hwf.
  assert (H0 := holdersOk_shrink _ _ _ _ _ (clearCardTimeout_subseteq cardBizId s) Hwf).
  assert (Hfresh := fresh_promise_orphaned _ _ _ _ H0).
  apply holdersOk_new_promise in H0.
  unfold updateInteractiveCardThrottled. case_match; simpl.
  - by apply holdersOk_new_op.
  - by apply holdersOk_new_scheduled.
Qed.

Lemma wellFormed_fire now handle s :
  wellFormed s -> wellFormed (fireCardTimer now handle s).
Proof.
  unfold wellFormed, fireCardTimer. intros Hwf.
  destruct (cardTimers s !! handle) as [[due cb]|] eqn:Ht; [|done].
  destruct cb as [c x p|c]; simpl.
  - apply holdersOk_new_op.
    + by eapply fired_timer_orphans.
    + eapply holdersOk_shrink; [apply delete_subseteq|done].
  - eapply holdersOk_shrink; [apply delete_subseteq|done].
Qed.

Lemma wellFormed_settle now op outcome s :
  wellFormed s -> wellFormed (settleUpdate now op outcome s).
Proof.
  unfold wellFormed, settleUpdate. intros Hwf.
  destruct (inflight s !! op) as [o|] eqn:Ho; [|done].
  destruct outcome as [err|result]; simpl.
  - by apply holdersOk_settled.
  - by apply holdersOk_new_inactivity, holdersOk_settled.
Qed.

Lemma wellFormed_cleanup expired : forall s,
  wellFormed s -> wellFormed (fold_left cleanupCard expired s).
Proof.
  induction expired as [|c expired IH]; intros s Hwf; [done|].
  simpl. apply IH. unfold wellFormed, cleanupCard. simpl.
  eapply holdersOk_shrink; [apply clearCardTimeout_subseteq|done].
Qed.

Lemma wellFormed_step s ev : wellFormed s -> wellFormed (cardStep s ev).
Proof.
  intros Hwf. destruct ev; simpl.
  - by apply wellFormed_request.
  - by apply wellFormed_fire.
  - by apply wellFormed_settle.
  - by apply wellFormed_cleanup.
  - unfold wellFormed, stopCardCacheCleanup. simpl.
    eapply holdersOk_shrink; [apply foldr_delete_subseteq|done].
Qed.

Lemma wellFormed_run evs : forall s, wellFormed s -> wellFormed (cardRun s evs).
Proof.
  induction evs as [|ev evs IH]; intros s Hwf; [done|].
  simpl. by apply IH, wellFormed_step.
Qed.

Lemma abandoned_request now cardBizId text s promise :
  abandoned s promise -> abandoned (updateInteractiveCardThrottled now cardBizId text s) promise.
Proof.
  unfold abandoned. intros Hab.
  assert (H0 := orphaned_shrink _ _ _ _ _ _ (clearCardTimeout_subseteq cardBizId s) Hab).
  assert (Hlt : (promise < nextPromise s)%nat) by apply Hab.
  apply orphaned_new_promise in H0.
  unfold updateInteractiveCardThrottled. case_match; simpl.
  - apply orphaned_new_op; [lia|done].
  - apply orphaned_new_timer; [simpl; lia|done].
Qed.

Lemma abandoned_fire now handle s promise :
  abandoned s promise -> abandoned (fireCardTimer now handle s) promise.
Proof.
  unfold abandoned, fireCardTimer. intros Hab.
  destruct (cardTimers s !! handle) as [[due cb]|] eqn:Ht; [|done].
  assert (Hp : ~ refersTo promise cb).
  { destruct Hab as (_ & _ & H3 & _). by apply (H3 handle _ Ht). }
  assert (H0 := orphaned_shrink _ _ _ _ _ _ (delete_subseteq (cardTimers s) handle) Hab).
  destruct cb as [c x p|c]; simpl; [|done].
  by apply orphaned_new_op.
Qed.

Lemma abandoned_settle now op outcome s promise :
  abandoned s promise -> abandoned (settleUpdate now op outcome s) promise.
Proof.
  unfold abandoned, settleUpdate. intros Hab.
  destruct (inflight s !! op) as [o|] eqn:Ho; [|done].
  destruct outcome as [err|result]; simpl.
  - by apply orphaned_settled.
  - apply orphaned_new_timer; [by intros ?|]. by apply orphaned_settled.
Qed.

Lemma abandoned_cleanup expired promise : forall s,
  abandoned s promise -> abandoned (fold_left cleanupCard expired s) promise.
Proof.
  induction expired as [|c expired IH]; intros s Hab; [done|].
  simpl. apply IH. unfold abandoned, cleanupCard. simpl.
  eapply orphaned_shrink; [apply clearCardTimeout_subseteq|done].
Qed.

(** Nothing the event loop does settles a promise that nothing holds. *)
Lemma abandoned_step s ev promise : abandoned s promise -> abandoned (cardStep s ev) promise.
Proof.
  intros Hab. destruct ev; simpl.
  - by apply abandoned_request.
  - by apply abandoned_fire.
  - by apply abandoned_settle.
  - by apply abandoned_cleanup.
  - unfold abandoned, stopCardCacheCleanup. simpl.
    eapply orphaned_shrink; [apply foldr_delete_subseteq|done].
Qed.

Lemma abandoned_run evs promise : forall s,
  abandoned s promise -> abandoned (cardRun s evs) promise.
Proof.
  induction evs as [|ev evs IH]; intros s Hab; [done|].
  simpl. by apply IH, abandoned_step.
Qed.




(** ** Coalescing of a burst *)







(** Why the requests of the theorem follow one another: when update "A"
    is sent at once and its completion arrives after "B" was scheduled,
    the inactivity timer takes the place of the timer of "B" in
    [cardUpdateTimeouts] without clearing it. The request "C" then clears
    the inactivity timer only, and both "B" and "C" are sent when their
    timers fire. *)
Example completion_unregisters_scheduled_timer :
  let s :=
    cardRun emptyThrottleState
      [ UpdateRequest 1000000 "card-1" "A"; UpdateRequest 1000100 "card-1" "B";
        UpdateSettled 1000200 0 (inr "ok"); UpdateRequest 1000300 "card-1" "C";
        TimerFired 1000500 0; TimerFired 1000500 2 ] in
  uc_text <$> updateCalls s = ["A"; "B"; "C"].
Proof. reflexivity. Qed.

(** ** Invariants of the merge buffer *)

Lemma foldr_delete_lookup {A V} (f : A -> nat) (l : list A) (m : gmap nat V) (h : nat) :
  foldr (fun x m => delete (f x) m) m l !! h =
    if bool_decide (h ∈ f <$> l) then None else m !! h.
Proof.
  induction l as [|x l IH]; [done|]. cbn [foldr]. rewrite fmap_cons.
  destruct (decide (h = f x)) as [->|Hne].
  - rewrite lookup_delete_eq, bool_decide_eq_true_2; [done|left].
  - rewrite lookup_delete_ne, IH by done.
    apply (f_equal (fun b : bool => if b then None else m !! h)).
    apply bool_decide_ext. rewrite elem_of_cons. naive_solver.
Qed.

Lemma sweep_cache_lookup now s k :
  messageMergeCache (sweepMergeCache now s) !! k =
    match messageMergeCache s !! k with
    | Some e => if isStale now e then None else Some e
    | None => None
    end.
Proof.
  cbn [sweepMergeCache messageMergeCache].
  destruct (messageMergeCache s !! k) as [e|] eqn:He.
  - destruct (isStale now e) eqn:Hst.
    + apply map_lookup_filter_None. right. intros e' He'. simpl. congruence.
    + apply map_lookup_filter_Some. by split.
  - apply map_lookup_filter_None. by left.
Qed.

Lemma sweep_timer_cleared now s k e :
  messageMergeCache s !! k = Some e -> isStale now e = true ->
  mergeTimers (sweepMergeCache now s) !! timer e = None.
Proof.
  intros He Hst. cbn [sweepMergeCache mergeTimers].
  rewrite (foldr_delete_lookup (fun kv : string * MergedMessageEntry => timer kv.2)).
  rewrite bool_decide_eq_true_2; [done|].
  apply list_elem_of_fmap. exists (k, e). split; [done|].
  apply elem_of_map_to_list, map_lookup_filter_Some. by split.
Qed.

Lemma sweep_timer_kept now s h :
  (forall k e, messageMergeCache s !! k = Some e -> isStale now e = true -> timer e <> h) ->
  mergeTimers (sweepMergeCache now s) !! h = mergeTimers s !! h.
Proof.
  intros Hother. cbn [sweepMergeCache mergeTimers].
  rewrite (foldr_delete_lookup (fun kv : string * MergedMessageEntry => timer kv.2)).
  rewrite bool_decide_eq_false_2; [done|].
  intros ([k e] & Heq & Hin)%list_elem_of_fmap.
  apply elem_of_map_to_list, map_lookup_filter_Some in Hin as [He Hst].
  by apply (Hother k e).
Qed.

(** Two entries never share a timer. *)
Lemma mergeConsistent_timer_inj s :
  mergeConsistent s ->
  forall k1 k2 e1 e2,
    messageMergeCache s !! k1 = Some e1 -> messageMergeCache s !! k2 = Some e2 ->
    timer e1 = timer e2 -> k1 = k2.
Proof.
  intros [Hc _] k1 k2 e1 e2 H1 H2 Heq.
  destruct (Hc k1 e1 H1) as (_ & t1 & Ht1 & Hk1 & _).
  destruct (Hc k2 e2 H2) as (_ & t2 & Ht2 & Hk2 & _).
  rewrite Heq in Ht1. congruence.
Qed.

Lemma mergeConsistent_empty : mergeConsistent emptyMergeState.
Proof. split; apply map_Forall_empty. Qed.

Lemma mergeConsistent_handle now params s :
  mergeConsistent s -> mergeConsistent (handleDingTalkMessage now params s).
Proof.
  intros Hs. assert (Hinj := mergeConsistent_timer_inj s Hs). destruct Hs as [Hc Ht].
  unfold handleDingTalkMessage. cbv zeta.
  destruct (isSelfMessage (data params)); [done|].
  set (key := cacheKeyOf params).
  destruct (messageMergeCache s !! key) as [e|] eqn:He.
  - destruct (Hc key e He) as ([Hlo Hhi] & t & Htimer & Hkey & Hdue).
    case_bool_decide as Hcap.
    + split.
      * intros k e' He'. cbn [messageMergeCache] in He'.
        apply lookup_delete_Some in He' as [Hne He'].
        destruct (Hc k e' He') as (Hlen & t' & Ht' & Hk' & Hd').
        split; [done|]. exists t'. cbn [mergeTimers]. split; [|done].
        rewrite lookup_delete_ne; [done|]. intros Heq. apply Hne.
        by apply (Hinj key k e e').
      * intros h t' Ht'. cbn [mergeTimers] in Ht'.
        apply lookup_delete_Some in Ht' as [Hne Ht'].
        destruct (Ht h t' Ht') as (Hlt & e' & He' & Htm).
        split; [done|]. exists e'. cbn [messageMergeCache]. split; [|done].
        rewrite lookup_delete_ne; [done|]. intros Heq. apply Hne.
        rewrite <- Heq in He'. congruence.
    + rewrite length_app in Hcap. cbn [length messages] in Hcap.
      split.
      * intros k e' He'. cbn [messageMergeCache] in He'.
        destruct (decide (k = key)) as [->|Hne].
        -- rewrite lookup_insert_eq in He'. injection He' as <-.
           split; [cbn [messages]; rewrite length_app; simpl; lia|].
           exists t. by cbn [timer startTime mergeTimers].
        -- rewrite lookup_insert_ne in He' by done. by apply Hc.
      * intros h t' Ht'. cbn [mergeTimers] in Ht'.
        destruct (Ht h t' Ht') as (Hlt & e' & He' & Htm).
        split; [done|]. cbn [messageMergeCache].
        destruct (decide (mt_cacheKey t' = key)) as [Heq|Hne].
        -- rewrite Heq, lookup_insert_eq. eexists. split; [done|].
           cbn [timer]. rewrite Heq, He in He'. congruence.
        -- exists e'. by rewrite lookup_insert_ne.
  - split.
    + intros k e' He'. cbn [messageMergeCache] in He'.
      destruct (decide (k = key)) as [->|Hne].
      * rewrite lookup_insert_eq in He'. injection He' as <-.
        split; [cbn [messages length]; unfold MESSAGE_MERGE_MAX_MESSAGES; lia|].
        eexists. cbn [timer startTime mergeTimers]. by rewrite lookup_insert_eq.
      * rewrite lookup_insert_ne in He' by done.
        destruct (Hc k e' He') as (Hlen & t' & Ht' & Hk' & Hd').
        split; [done|]. exists t'. cbn [mergeTimers]. split; [|done].
        rewrite lookup_insert_ne; [done|].
        destruct (Ht _ _ Ht') as [Hlt _]. lia.
    + intros h t' Ht'. cbn [mergeTimers] in Ht'. cbn [nextMergeTimer messageMergeCache].
      destruct (decide (h = nextMergeTimer s)) as [->|Hne].
      * rewrite lookup_insert_eq in Ht'. injection Ht' as <-.
        split; [simpl; lia|]. cbn [mt_cacheKey messageMergeCache].
        rewrite lookup_insert_eq. by eexists.
      * rewrite lookup_insert_ne in Ht' by done.
        destruct (Ht h t' Ht') as (Hlt & e' & He' & Htm).
        split; [simpl; lia|]. exists e'. cbn [messageMergeCache]. split; [|done].
        rewrite lookup_insert_ne; [done|]. intros Heq. rewrite <- Heq in He'. congruence.
Qed.

(** What the firing of an armed timer whose entry is buffered does. *)
Lemma fire_owned handle s t e :
  mergeTimers s !! handle = Some t ->
  messageMergeCache s !! mt_cacheKey t = Some e ->
  (0 < length (messages e))%nat ->
  fireMergeTimer handle s =
    {| messageMergeCache := delete (mt_cacheKey t) (messageMergeCache s);
       mergeTimers := delete handle (mergeTimers s);
       nextMergeTimer := nextMergeTimer s;
       pipelineCalls := flush (messages e) (mt_params t) (pipelineCalls s) |}.
Proof.
  intros Ht He Hlen. unfold fireMergeTimer. rewrite Ht, He.
  by rewrite bool_decide_eq_true_2.
Qed.

Lemma mergeConsistent_fire handle s :
  mergeConsistent s -> mergeConsistent (fireMergeTimer handle s).
Proof.
  intros Hs. assert (Hinj := mergeConsistent_timer_inj s Hs). destruct Hs as [Hc Ht].
  destruct (mergeTimers s !! handle) as [t|] eqn:Hh;
    [|unfold fireMergeTimer; by rewrite Hh].
  destruct (Ht handle t Hh) as (Hlt & e & He & Htm).
  destruct (Hc _ e He) as ([Hlo Hhi] & _).
  rewrite (fire_owned handle s t e) by (done || lia).
  split.
  - intros k e' He'. cbn [messageMergeCache] in He'.
    apply lookup_delete_Some in He' as [Hne He'].
    destruct (Hc k e' He') as (Hlen & t' & Ht' & Hk' & Hd').
    split; [done|]. exists t'. cbn [mergeTimers]. split; [|done].
    rewrite lookup_delete_ne; [done|]. intros Heq. apply Hne.
    apply (Hinj (mt_cacheKey t) k e e'); [done|done|congruence].
  - intros h t' Ht'. cbn [mergeTimers] in Ht'.
    apply lookup_delete_Some in Ht' as [Hne Ht'].
    destruct (Ht h t' Ht') as (Hlt' & e' & He' & Htm').
    split; [done|]. exists e'. cbn [messageMergeCache]. split; [|done].
    rewrite lookup_delete_ne; [done|]. intros Heq. apply Hne.
    rewrite <- Heq in He'. congruence.
Qed.

Lemma mergeConsistent_sweep now s :
  mergeConsistent s -> mergeConsistent (sweepMergeCache now s).
Proof.
  intros Hs. assert (Hinj := mergeConsistent_timer_inj s Hs). destruct Hs as [Hc Ht].
  split.
  - intros k e He. rewrite sweep_cache_lookup in He.
    destruct (messageMergeCache s !! k) as [e0|] eqn:He0; [|done].
    destruct (isStale now e0) eqn:Hst; [done|]. injection He as <-.
    destruct (Hc k e0 He0) as (Hlen & t & Htimer & Hk & Hd).
    split; [done|]. exists t. split; [|done].
    rewrite sweep_timer_kept; [done|].
    intros k' e' He' Hst' Heq.
    assert (k' = k) as -> by (by apply (Hinj k' k e' e0)).
    congruence.
  - intros h t Hh.
    assert (Hsub : mergeTimers s !! h = Some t).
    { cbn [sweepMergeCache mergeTimers] in Hh.
      rewrite (foldr_delete_lookup (fun kv : string * MergedMessageEntry => timer kv.2)) in Hh.
      by case_bool_decide. }
    destruct (Ht h t Hsub) as (Hlt & e & He & Htm).
    split; [done|]. exists e. split; [|done].
    rewrite sweep_cache_lookup, He.
    destruct (isStale now e) eqn:Hst; [|done].
    rewrite <- Htm, (sweep_timer_cleared now s _ e He Hst) in Hh. done.
Qed.

Lemma mergeConsistent_step s ev : mergeConsistent s -> mergeConsistent (mergeStep s ev).
Proof.
  destruct ev; simpl.
  - apply mergeConsistent_handle.
  - apply mergeConsistent_fire.
  - apply mergeConsistent_sweep.
Qed.

Lemma mergeConsistent_run evs : forall s,
  mergeConsistent s -> mergeConsistent (mergeRun s evs).
Proof.
  induction evs as [|ev evs IH]; intros s Hs; [done|].
  rewrite mergeRun_cons. by apply IH, mergeConsistent_step.
Qed.

(** X1: in every state the merge buffer reaches from the empty one, a
    buffered entry holds between one and four messages and its timer is
    armed for its key, due 2000 ms after the first message; every armed
    timer belongs to a buffered entry. *)
Theorem merge_buffer_entries_are_armed (history : list MergeEvent) :
  let s := mergeRun emptyMergeState history in
  map_Forall (fun k e =>
      (1 <= length (messages e) < MESSAGE_MERGE_MAX_MESSAGES)%nat /\
      exists t, mergeTimers s !! timer e = Some t /\ mt_cacheKey t = k /\
                mt_due t = startTime e + MESSAGE_MERGE_WINDOW_MS)
    (messageMergeCache s) /\
  map_Forall (fun h t =>
      exists e, messageMergeCache s !! mt_cacheKey t = Some e /\ timer e = h)
    (mergeTimers s).
Proof.
  intros s.
  destruct (mergeConsistent_run history emptyMergeState mergeConsistent_empty) as [Hc Ht].
  split; [exact Hc|].
  intros h t Hh. by destruct (Ht h t Hh) as [_ ?].
Qed.

(** X2: in every reachable state, when the timer of a buffered entry
    fires the entry leaves the buffer, its timer is disarmed and the
    pipeline is called exactly once, with the merged content of the
    buffered messages and the event of the first of them. *)
Theorem buffered_entry_is_flushed_by_its_timer
    (history : list MergeEvent) (k : string) (e : MergedMessageEntry) :
  let s := mergeRun emptyMergeState history in
  let s' := fireMergeTimer (timer e) s in
  messageMergeCache s !! k = Some e ->
  messageMergeCache s' !! k = None /\
  mergeTimers s' !! timer e = None /\
  exists call,
    pipelineCalls s' = pipelineCalls s ++ [call] /\
    call_content call = Some (mergedContent (messages e)) /\
    head (m_data <$> messages e) = Some (data (call_params call)).
Proof.
  intros s s' He.
  destruct (mergeConsistent_run history emptyMergeState mergeConsistent_empty) as [Hc _].
  destruct (Hc k e He) as ([Hlo _] & t & Ht & <- & _).
  subst s'. fold s in Ht. rewrite (fire_owned (timer e) s t e) by (done || lia).
  cbn [messageMergeCache mergeTimers pipelineCalls].
  rewrite !lookup_delete_eq. split; [done|]. split; [done|].
  destruct (messages e) as [|m msgs] eqn:Hm; [simpl in Hlo; lia|].
  rewrite flush_nonempty. by eexists.
Qed.

Lemma buffered_entry_is_flushed_by_its_timer_witness :
  let s := mergeRun emptyMergeState twoWindows in
  exists e call,
    messageMergeCache s !! secondKey = Some e /\
    messageMergeCache (fireMergeTimer (timer e) s) !! secondKey = None /\
    pipelineCalls (fireMergeTimer (timer e) s) = pipelineCalls s ++ [call] /\
    text <$> call_content call = Some "hi".
Proof.
  intros s.
  assert (He : is_Some (messageMergeCache s !! secondKey)) by (by eexists).
  destruct He as [e He]. exists e.
  destruct (buffered_entry_is_flushed_by_its_timer twoWindows (secondKey) e He)
    as (Hgone & _ & call & Hcalls & Hcontent & _).
  exists call. split; [done|]. split; [done|]. split; [done|].
  rewrite Hcontent. vm_compute in He. injection He as <-. reflexivity.
Defined.

Lemma flush_noSelf msgs params calls :
  Forall (fun m => isSelfMessage (m_data m) = false) msgs ->
  Forall (fun c => isSelfMessage (data (call_params c)) = false) calls ->
  Forall (fun c => isSelfMessage (data (call_params c)) = false) (flush msgs params calls).
Proof.
  intros Hmsgs Hcalls. destruct msgs as [|m msgs]; [done|].
  rewrite flush_nonempty. apply Forall_app. split; [done|].
  apply Forall_cons in Hmsgs as [Hm _]. by repeat constructor.
Qed.

Lemma noSelfMessage_step s ev : noSelfMessage s -> noSelfMessage (mergeStep s ev).
Proof.
  intros [Hc Hp]. destruct ev as [now params|handle|now]; cbn [mergeStep].
  - unfold handleDingTalkMessage. cbv zeta.
    destruct (isSelfMessage (data params)) eqn:Hself; [done|].
    set (key := cacheKeyOf params).
    destruct (messageMergeCache s !! key) as [e|] eqn:He.
    + assert (Hmsgs : Forall (fun m => isSelfMessage (m_data m) = false)
                             (messages e ++ [newMessage now (data params)])).
      { apply Forall_app. split; [by apply (Hc key)|]. by repeat constructor. }
      case_bool_decide.
      * split; cbn [messageMergeCache pipelineCalls].
        -- intros k e' [_ He']%lookup_delete_Some. by apply (Hc k).
        -- by apply flush_noSelf.
      * split; cbn [messageMergeCache pipelineCalls]; [|done].
        apply map_Forall_insert_2; done.
    + split; cbn [messageMergeCache pipelineCalls]; [|done].
      apply map_Forall_insert_2; [|done]. by repeat constructor.
  - unfold fireMergeTimer.
    destruct (mergeTimers s !! handle) as [t|]; [|done].
    destruct (messageMergeCache s !! mt_cacheKey t) as [e|] eqn:He; [|done].
    case_bool_decide; [|done].
    split; cbn [messageMergeCache pipelineCalls].
    + intros k e' [_ He']%lookup_delete_Some. by apply (Hc k).
    + apply flush_noSelf; [|done]. by apply (Hc (mt_cacheKey t)).
  - split; cbn [sweepMergeCache messageMergeCache pipelineCalls]; [|done].
    intros k e [He _]%map_lookup_filter_Some. by apply (Hc k).
Qed.

Lemma noSelfMessage_run evs : forall s, noSelfMessage s -> noSelfMessage (mergeRun s evs).
Proof.
  induction evs as [|ev evs IH]; intros s Hs; [done|].
  rewrite mergeRun_cons. by apply IH, noSelfMessage_step.
Qed.

(** X3: whatever events arrive, an event sent by the robot itself (its
    sender id or staff id equals the robot's user id) is never buffered and
    never handed to the pipeline. *)
Theorem robot_messages_never_reach_the_pipeline (history : list MergeEvent) :
  let s := mergeRun emptyMergeState history in
  map_Forall (fun _ e => Forall (fun m => isSelfMessage (m_data m) = false) (messages e))
             (messageMergeCache s) /\
  Forall (fun c => isSelfMessage (data (call_params c)) = false) (pipelineCalls s).
Proof.
  apply (noSelfMessage_run history emptyMergeState).
  split; [apply map_Forall_empty|constructor].
Qed.

Lemma foreign_step s k e ev :
  mergeConsistent s ->
  messageMergeCache s !! k = Some e ->
  foreignTo k e ev ->
  messageMergeCache (mergeStep s ev) !! k = Some e /\
  mergeTimers (mergeStep s ev) !! timer e = mergeTimers s !! timer e.
Proof.
  intros Hs He Hev. assert (Hinj := mergeConsistent_timer_inj s Hs). destruct Hs as [Hc Ht].
  destruct (Hc k e He) as (_ & t & Htimer & Hk & _).
  destruct (Ht _ _ Htimer) as [Hlt _].
  destruct ev as [now params|handle|now]; cbn [mergeStep foreignTo] in *.
  - unfold handleDingTalkMessage. cbv zeta.
    destruct (isSelfMessage (data params)); [done|].
    set (key := cacheKeyOf params) in *.
    destruct (messageMergeCache s !! key) as [e'|] eqn:He'.
    + case_bool_decide; cbn [messageMergeCache mergeTimers].
      * rewrite !lookup_delete_ne; [done| |done].
        intros Heq. apply Hev. by apply (Hinj key k e' e).
      * by rewrite lookup_insert_ne.
    + cbn [messageMergeCache mergeTimers].
      rewrite !lookup_insert_ne; [done|lia|done].
  - unfold fireMergeTimer.
    destruct (mergeTimers s !! handle) as [t'|] eqn:Hh; [|done].
    destruct (Ht handle t' Hh) as (_ & e' & He' & Htm).
    assert (Hkey : mt_cacheKey t' <> k).
    { intros Heq. rewrite Heq, He in He'. congruence. }
    rewrite He'. case_bool_decide; cbn [messageMergeCache mergeTimers].
    + by rewrite !lookup_delete_ne.
    + by rewrite lookup_delete_ne.
  - rewrite sweep_cache_lookup, He, Hev. split; [done|].
    apply sweep_timer_kept. intros k' e' He' Hst Heq.
    assert (k' = k) as -> by (by apply (Hinj k' k e' e)).
    congruence.
Qed.

(** X4: a window is not disturbed by what happens to the others. In every
    reachable state, after any events that are neither an event of the
    window's own key, nor the firing of its timer, nor a sweep that finds
    it older than 10 s (among them: events of other senders, also when
    they fill and flush their own windows, and other windows' timers), the
    window's entry is as it was and its timer is still armed as it was. *)
Theorem window_is_not_disturbed_by_others
    (history others : list MergeEvent) (k : string) (e : MergedMessageEntry) :
  let s := mergeRun emptyMergeState history in
  let s' := mergeRun s others in
  messageMergeCache s !! k = Some e ->
  Forall (foreignTo k e) others ->
  messageMergeCache s' !! k = Some e /\
  mergeTimers s' !! timer e = mergeTimers s !! timer e /\
  is_Some (mergeTimers s' !! timer e).
Proof.
  intros s s' He Hall.
  assert (Hs : mergeConsistent s) by apply mergeConsistent_run, mergeConsistent_empty.
  assert (Harmed : is_Some (mergeTimers s !! timer e)).
  { destruct Hs as [Hc _]. destruct (Hc k e He) as (_ & t & Ht & _). by exists t. }
  subst s'. clearbody s. revert s He Hs Harmed.
  induction Hall as [|ev others Hev Hall IH]; intros s He Hs Harmed; [done|].
  rewrite mergeRun_cons.
  destruct (foreign_step s k e ev Hs He Hev) as [He1 Ht1].
  destruct (IH (mergeStep s ev)) as (He2 & Ht2 & Hsome);
    [done|by apply mergeConsistent_step|by rewrite Ht1|].
  split; [done|]. split; [congruence|done].
Qed.

Lemma window_is_not_disturbed_by_others_witness :
  let s := mergeRun emptyMergeState twoWindows in
  let others :=
    [ Inbound 2100 (Samples.params None None (Samples.textEvent "m3" "more"));
      WindowElapsed 0; Sweep 11500 ] in
  exists e,
    messageMergeCache s !! secondKey = Some e /\
    messageMergeCache (mergeRun s others) !! secondKey = Some e /\
    is_Some (mergeTimers (mergeRun s others) !! timer e).
Proof.
  intros s others.
  assert (He : is_Some (messageMergeCache s !! secondKey)) by (by eexists).
  destruct He as [e He]. exists e. split; [done|].
  assert (Hall : Forall (foreignTo secondKey e) others).
  { vm_compute in He. injection He as <-. repeat constructor; simpl; discriminate. }
  destruct (window_is_not_disturbed_by_others twoWindows others secondKey e He Hall)
    as (Hkept & _ & Harmed).
  by split.
Defined.

(** X5: the five-minute sweep calls the pipeline for nothing. An entry
    started more than 10 s before is removed and its timer disarmed, so
    that the messages it buffers are dropped unprocessed; an entry of 10 s
    or less is kept as it is. *)
Theorem sweep_drops_stale_entries_unprocessed
    (now : Z) (s : MergeState) (k : string) (e : MergedMessageEntry) :
  let s' := sweepMergeCache now s in
  messageMergeCache s !! k = Some e ->
  pipelineCalls s' = pipelineCalls s /\
  (10000 < now - startTime e ->
     messageMergeCache s' !! k = None /\ mergeTimers s' !! timer e = None /\
     fireMergeTimer (timer e) s' = s') /\
  (now - startTime e <= 10000 -> messageMergeCache s' !! k = Some e).
Proof.
  intros s' He. split; [done|]. subst s'. rewrite sweep_cache_lookup, He.
  unfold isStale. split; intros Hage.
  - rewrite bool_decide_eq_true_2 by done. split; [done|].
    assert (Hcleared : mergeTimers (sweepMergeCache now s) !! timer e = None).
    { apply (sweep_timer_cleared now s k e He). unfold isStale.
      by rewrite bool_decide_eq_true_2. }
    split; [done|]. unfold fireMergeTimer. by rewrite Hcleared.
  - rewrite bool_decide_eq_false_2; [done|lia].
Qed.

Lemma sweep_drops_stale_entries_unprocessed_witness :
  let s := mergeRun emptyMergeState twoWindows in
  let s' := sweepMergeCache 11500 s in
  pipelineCalls s' = [] /\
  messageMergeCache s' !! sampleKey = None /\
  mergeTimers s' !! 0%nat = None /\
  is_Some (messageMergeCache s' !! secondKey).
Proof.
  intros s s'.
  assert (He : is_Some (messageMergeCache s !! sampleKey)) by (by eexists).
  destruct He as [e He].
  destruct (sweep_drops_stale_entries_unprocessed 11500 s sampleKey e He)
    as (Hcalls & Hstale & _).
  vm_compute in He. injection He as <-.
  destruct Hstale as (Hgone & Htimer & _); [reflexivity|].
  split; [exact Hcalls|]. split; [exact Hgone|]. split; [exact Htimer|].
  by eexists.
Defined.

(** ** Card cache cleanup, shutdown and inactivity *)

Lemma expiredCards_elem now instances card :
  card ∈ expiredCards now instances <->
  exists i, instances !! card = Some i /\ isExpired now i = true.
Proof.
  unfold expiredCards. change (map ?f ?l) with (f <$> l).
  rewrite list_elem_of_fmap. split.
  - intros ([c i] & -> & Hin).
    apply elem_of_map_to_list, map_lookup_filter_Some in Hin as [Hi Hexp]. by exists i.
  - intros (i & Hi & Hexp). exists (card, i). split; [done|].
    apply elem_of_map_to_list, map_lookup_filter_Some. by split.
Qed.

Lemma cleanup_fold_untouched expired : forall s,
  let s' := fold_left cleanupCard expired s in
  promises s' = promises s /\ nextPromise s' = nextPromise s /\
  inflight s' = inflight s /\ updateCalls s' = updateCalls s /\
  cardTimers s' ⊆ cardTimers s.
Proof.
  induction expired as [|c expired IH]; intros s; [done|].
  cbn [fold_left]. destruct (IH (cleanupCard s c)) as (-> & -> & -> & -> & Hsub).
  repeat split; try done.
  etrans; [exact Hsub|]. apply clearCardTimeout_subseteq.
Qed.

Lemma cleanup_fold_timestamps expired card : forall s,
  cardUpdateTimestamps (fold_left cleanupCard expired s) !! card =
    if bool_decide (card ∈ expired) then None else cardUpdateTimestamps s !! card.
Proof.
  induction expired as [|c expired IH]; intros s; [done|].
  cbn [fold_left]. rewrite IH. cbn [cleanupCard cardUpdateTimestamps].
  destruct (decide (card = c)) as [->|Hne].
  - rewrite lookup_delete_eq, (bool_decide_eq_true_2 (c ∈ c :: expired)) by left.
    by case_bool_decide.
  - rewrite lookup_delete_ne by done.
    apply (f_equal (fun b : bool => if b then None else cardUpdateTimestamps s !! card)).
    apply bool_decide_ext. rewrite elem_of_cons. naive_solver.
Qed.

Lemma cleanup_fold_timeouts expired card : forall s,
  cardUpdateTimeouts (fold_left cleanupCard expired s) !! card =
    if bool_decide (card ∈ expired) then None else cardUpdateTimeouts s !! card.
Proof.
  induction expired as [|c expired IH]; intros s; [done|].
  cbn [fold_left]. rewrite IH. cbn [cleanupCard cardUpdateTimeouts].
  destruct (decide (card = c)) as [->|Hne].
  - rewrite lookup_delete_eq, (bool_decide_eq_true_2 (c ∈ c :: expired)) by left.
    by case_bool_decide.
  - rewrite lookup_delete_ne by done.
    apply (f_equal (fun b : bool => if b then None else cardUpdateTimeouts s !! card)).
    apply bool_decide_ext. rewrite elem_of_cons. naive_solver.
Qed.

Lemma cleanup_fold_timer_cleared expired card handle : forall s,
  card ∈ expired -> cardUpdateTimeouts s !! card = Some handle ->
  cardTimers (fold_left cleanupCard expired s) !! handle = None.
Proof.
  induction expired as [|c expired IH]; intros s Hin Hreg; [by apply elem_of_nil in Hin|].
  cbn [fold_left].
  destruct (decide (card = c)) as [->|Hne].
  - destruct (cleanup_fold_untouched expired (cleanupCard s c)) as (_ & _ & _ & _ & Hsub).
    eapply lookup_weaken_None; [|exact Hsub].
    cbn [cleanupCard cardTimers]. unfold clearCardTimeout. rewrite Hreg.
    apply lookup_delete_eq.
  - apply elem_of_cons in Hin as [?|Hin]; [done|].
    apply IH; [done|]. cbn [cleanupCard cardUpdateTimeouts]. by rewrite lookup_delete_ne.
Qed.

Lemma expiredCards_old now instances card i :
  instances !! card = Some i -> CARD_CACHE_TTL < now - lastUpdated i ->
  card ∈ expiredCards now instances.
Proof.
  intros Hcard Hold. apply expiredCards_elem. exists i. split; [done|].
  unfold isExpired. by rewrite bool_decide_eq_true_2.
Qed.

(** X6: the periodic cleanup evicts from the registry exactly the cards
    whose last successful update is more than one hour old. For an evicted
    card the last update time and the timer registration are forgotten and
    the registered timer is disarmed; for every other card, registered or
    not, they are left as they are. The cleanup starts no update and
    settles no promise. *)
Theorem cleanupCardCache_evicts_idle_cards
    (now : Z) (instances : gmap string CardInstance) (s : ThrottleState) (card : string) :
  let out := cleanupCardCache now instances s in
  out.1 !! card =
    match instances !! card with
    | Some i => if bool_decide (CARD_CACHE_TTL < now - lastUpdated i) then None else Some i
    | None => None
    end /\
  (forall i, instances !! card = Some i -> CARD_CACHE_TTL < now - lastUpdated i ->
     cardUpdateTimestamps out.2 !! card = None /\
     cardUpdateTimeouts out.2 !! card = None /\
     forall h, cardUpdateTimeouts s !! card = Some h -> cardTimers out.2 !! h = None) /\
  ((forall i, instances !! card = Some i -> now - lastUpdated i <= CARD_CACHE_TTL) ->
     cardUpdateTimestamps out.2 !! card = cardUpdateTimestamps s !! card /\
     cardUpdateTimeouts out.2 !! card = cardUpdateTimeouts s !! card) /\
  promises out.2 = promises s /\ inflight out.2 = inflight s /\
  updateCalls out.2 = updateCalls s.
Proof.
  intros out. subst out. unfold cleanupCardCache. cbv zeta. cbn [fst snd].
  fold (expiredCards now instances).
  destruct (cleanup_fold_untouched (expiredCards now instances) s) as (Hp & _ & Hi & Hu & _).
  split; [|split; [|split; [|done]]].
  - destruct (instances !! card) as [i|] eqn:Hcard.
    + fold (isExpired now i). destruct (isExpired now i) eqn:Hexp.
      * apply map_lookup_filter_None. right. intros i' Hi'. simpl. congruence.
      * apply map_lookup_filter_Some. by split.
    + apply map_lookup_filter_None. by left.
  - intros i Hcard Hold.
    assert (Hin : card ∈ expiredCards now instances) by (by eapply expiredCards_old).
    rewrite cleanup_fold_timestamps, cleanup_fold_timeouts.
    rewrite !bool_decide_eq_true_2 by done. split; [done|]. split; [done|].
    intros h Hreg. by apply (cleanup_fold_timer_cleared _ card).
  - intros Hfresh.
    assert (Hout : card ∉ expiredCards now instances).
    { intros (i & Hcard & Hexp)%expiredCards_elem.
      unfold isExpired in Hexp. apply bool_decide_eq_true_1 in Hexp.
      specialize (Hfresh i Hcard). lia. }
    rewrite cleanup_fold_timestamps, cleanup_fold_timeouts.
    by rewrite !bool_decide_eq_false_2 by done.
Qed.

(** The promise of a scheduled update whose registered timer is disarmed
    is held by nothing. *)
Lemma disarmed_slot_abandons s s' card promise :
  wellFormed s ->
  scheduledFor s card promise ->
  (forall h, cardUpdateTimeouts s !! card = Some h -> cardTimers s' !! h = None) ->
  cardTimers s' ⊆ cardTimers s ->
  inflight s' = inflight s -> promises s' = promises s -> nextPromise s' = nextPromise s ->
  abandoned s' promise.
Proof.
  intros Hwf (handle & due & x & Hreg & Htimer) Hcleared Hsub Hi Hp Hn.
  unfold abandoned. rewrite Hi, Hp, Hn.
  apply (orphaned_shrink _ (delete handle (cardTimers s))).
  - apply map_subseteq_spec. intros h t Hh.
    apply lookup_delete_Some. split.
    + intros <-. rewrite (Hcleared handle Hreg) in Hh. done.
    + by apply (lookup_weaken _ _ _ _ Hh).
  - by eapply fired_timer_orphans.
Qed.

(** X7: when the cleanup evicts a card for which an update is scheduled,
    the scheduled update is lost: the promise returned to its caller stays
    pending, whatever happens afterwards. *)
Theorem eviction_abandons_scheduled_update
    (history : list CardEvent) (now : Z) (instances : gmap string CardInstance)
    (card : string) (promise : nat) (i : CardInstance) :
  let s := cardRun emptyThrottleState history in
  scheduledFor s card promise ->
  instances !! card = Some i ->
  CARD_CACHE_TTL < now - lastUpdated i ->
  forall future : list CardEvent,
    promises (cardRun (cleanupCardCache now instances s).2 future) !! promise = Some Pending.
Proof.
  intros s Hsched Hcard Hold future.
  assert (Hwf : wellFormed s) by apply wellFormed_run, wellFormed_empty.
  assert (Hin : card ∈ expiredCards now instances) by (by eapply expiredCards_old).
  assert (Hab : abandoned (cleanupCardCache now instances s).2 promise).
  { unfold cleanupCardCache. cbv zeta. cbn [snd]. fold (expiredCards now instances).
    destruct (cleanup_fold_untouched (expiredCards now instances) s)
      as (Hp & Hn & Hi & _ & Hsub).
    apply (disarmed_slot_abandons s _ card); try done.
    intros h Hreg. by apply (cleanup_fold_timer_cleared _ card). }
  by destruct (abandoned_run future promise _ Hab) as (_ & Hpend & _).
Qed.

Lemma eviction_abandons_scheduled_update_witness :
  let s := cardRun emptyThrottleState twoCardsScheduled in
  scheduledFor s "card-1" 2 /\
  promises
    (cardRun (cleanupCardCache 3600200 twoCards s).2
       [ TimerFired 3600500 0; TimerFired 3600500 1; UpdateSettled 3600600 1 (inr "ok");
         UpdateSettled 3600700 2 (inr "ok") ]) !! 2%nat = Some Pending.
Proof.
  intros s.
  assert (Hsched : scheduledFor s "card-1" 2).
  { exists 0%nat, 3600500, "A2". by split. }
  split; [exact Hsched|].
  apply (eviction_abandons_scheduled_update twoCardsScheduled 3600200 twoCards "card-1" 2
           {| ci_cardBizId := "card-1"; ci_conversationId := "cid-1";
              createdAt := 0; lastUpdated := 0 |}).
  - exact Hsched.
  - reflexivity.
  - reflexivity.
Defined.

(** X8: after the cleanup has evicted a card, the next update request for
    it is sent at once (the request is made 500 ms or more after the epoch,
    as every [Date.now()] is). *)
Theorem evicted_card_is_updated_at_once
    (now : Z) (instances : gmap string CardInstance) (s : ThrottleState)
    (card : string) (i : CardInstance) (later : Z) (text : string) :
  let s1 := (cleanupCardCache now instances s).2 in
  let s2 := updateInteractiveCardThrottled later card text s1 in
  instances !! card = Some i ->
  CARD_CACHE_TTL < now - lastUpdated i ->
  CARD_UPDATE_MIN_INTERVAL <= later ->
  updateCalls s2 =
    updateCalls s ++ [ {| uc_time := later; uc_cardBizId := card; uc_text := text |} ] /\
  cardUpdateTimestamps s2 !! card = Some later /\
  inflight s2 !! nextOp s1 =
    Some {| op_cardBizId := card; op_text := text; op_promise := nextPromise s1 |}.
Proof.
  intros s1 s2 Hcard Hold Hlater.
  assert (Hin : card ∈ expiredCards now instances) by (by eapply expiredCards_old).
  assert (Hstamp : cardUpdateTimestamps s1 !! card = None).
  { subst s1. unfold cleanupCardCache. cbv zeta. cbn [snd].
    fold (expiredCards now instances).
    by rewrite cleanup_fold_timestamps, bool_decide_eq_true_2. }
  assert (Hcalls : updateCalls s1 = updateCalls s).
  { subst s1. unfold cleanupCardCache. cbv zeta. cbn [snd]. apply cleanup_fold_untouched. }
  subst s2. unfold updateInteractiveCardThrottled.
  rewrite Hstamp. cbn [default]. rewrite Z.sub_0_r.
  destruct (Z.leb_spec CARD_UPDATE_MIN_INTERVAL later) as [_|?]; [|lia].
  cbn [startUpdate updateCalls cardUpdateTimestamps inflight nextOp nextPromise].
  rewrite Hcalls, !lookup_insert_eq. done.
Qed.

Lemma evicted_card_is_updated_at_once_witness :
  let s1 := (cleanupCardCache 3600200 twoCards (cardRun emptyThrottleState twoCardsScheduled)).2 in
  uc_text <$> updateCalls (updateInteractiveCardThrottled 3600300 "card-1" "C" s1)
    = ["A"; "B"; "C"] /\
  uc_text <$> updateCalls (updateInteractiveCardThrottled 3600300 "card-2" "C" s1)
    = ["A"; "B"].
Proof.
  intros s1. split; [|reflexivity].
  destruct (evicted_card_is_updated_at_once 3600200 twoCards
              (cardRun emptyThrottleState twoCardsScheduled) "card-1"
              {| ci_cardBizId := "card-1"; ci_conversationId := "cid-1";
                 createdAt := 0; lastUpdated := 0 |} 3600300 "C") as (Hcalls & _).
  - reflexivity.
  - reflexivity.
  - unfold CARD_UPDATE_MIN_INTERVAL. lia.
  - fold s1 in Hcalls. rewrite Hcalls. reflexivity.
Defined.

(** X9: [stopCardCacheCleanup] leaves no timer registered and disarms
    every timer that was registered; updates in flight go on. An update
    that was scheduled and registered at that time is lost: its promise
    stays pending, whatever happens afterwards. *)
Theorem stop_abandons_scheduled_updates
    (history : list CardEvent) (card : string) (promise : nat) :
  let s := cardRun emptyThrottleState history in
  let s' := stopCardCacheCleanup s in
  scheduledFor s card promise ->
  cardUpdateTimeouts s' = ∅ /\
  (forall c h, cardUpdateTimeouts s !! c = Some h -> cardTimers s' !! h = None) /\
  inflight s' = inflight s /\
  forall future : list CardEvent,
    promises (cardRun s' future) !! promise = Some Pending.
Proof.
  intros s s' Hsched.
  assert (Hwf : wellFormed s) by apply wellFormed_run, wellFormed_empty.
  assert (Hcleared : forall c h, cardUpdateTimeouts s !! c = Some h -> cardTimers s' !! h = None).
  { intros c h Hreg. subst s'. cbn [stopCardCacheCleanup cardTimers].
    rewrite (foldr_delete_lookup (fun kv : string * nat => kv.2)).
    rewrite bool_decide_eq_true_2; [done|].
    apply list_elem_of_fmap. exists (c, h). split; [done|]. by apply elem_of_map_to_list. }
  split; [done|]. split; [done|]. split; [done|].
  intros future.
  assert (Hab : abandoned s' promise).
  { apply (disarmed_slot_abandons s s' card); try done.
    - by apply Hcleared.
    - apply foldr_delete_subseteq. }
  by destruct (abandoned_run future promise _ Hab) as (_ & Hpend & _).
Qed.

Lemma stop_abandons_scheduled_updates_witness :
  let s := cardRun emptyThrottleState oneScheduled in
  scheduledFor s "card-1" 1 /\
  cardTimers (stopCardCacheCleanup s) = ∅ /\
  promises
    (cardRun (stopCardCacheCleanup s)
       [ UpdateSettled 1000250 0 (inr "ok"); TimerFired 1000500 0; TimerFired 1060250 1 ])
    !! 1%nat = Some Pending.
Proof.
  intros s.
  assert (Hsched : scheduledFor s "card-1" 1).
  { exists 0%nat, 1000500, "B". by split. }
  split; [exact Hsched|]. split; [reflexivity|].
  by destruct (stop_abandons_scheduled_updates oneScheduled "card-1" 1 Hsched)
    as (_ & _ & _ & Hpending).
Defined.



(** ** Settlement of a promise *)

Lemma released_timers_shrink s promise (timers' : gmap nat CardTimer) :
  timers' ⊆ cardTimers s ->
  (forall h t, cardTimers s !! h = Some t -> ~ refersTo promise (ct_callback t)) ->
  forall h t, timers' !! h = Some t -> ~ refersTo promise (ct_callback t).
Proof. intros Hsub Hno h t Ht. apply (Hno h). by apply (lookup_weaken _ _ _ _ Ht). Qed.

(** Nothing the event loop does changes a promise that nothing holds. *)
Lemma released_step s ev promise :
  released s promise ->
  released (cardStep s ev) promise /\
  promises (cardStep s ev) !! promise = promises s !! promise.
Proof.
  intros (Hlt & Htimers & Hops).
  destruct ev as [now c x|now handle|now op outcome|expired|]; cbn [cardStep].
  - assert (Hcleared := released_timers_shrink s promise _
                          (clearCardTimeout_subseteq c s) Htimers).
    unfold updateInteractiveCardThrottled, startUpdate. cbv zeta.
    case_match; (split; [split; [|split]|]);
      cbn [nextPromise cardTimers inflight promises]; try lia; try done.
    + intros k o Hk. destruct (decide (nextOp s = k)) as [<-|Hne].
      * rewrite lookup_insert_eq in Hk. injection Hk as <-. cbn [op_promise]. lia.
      * rewrite lookup_insert_ne in Hk by done. by apply (Hops k).
    + rewrite lookup_insert_ne by lia. done.
    + intros h t Ht. destruct (decide (nextCardTimer s = h)) as [<-|Hne].
      * rewrite lookup_insert_eq in Ht. injection Ht as <-. cbn [ct_callback refersTo]. lia.
      * rewrite lookup_insert_ne in Ht by done. by apply (Hcleared h).
    + rewrite lookup_insert_ne by lia. done.
  - unfold fireCardTimer.
    destruct (cardTimers s !! handle) as [[due cb]|] eqn:Hh; [|done].
    assert (Hrest := released_timers_shrink s promise _
                       (delete_subseteq (cardTimers s) handle) Htimers).
    specialize (Htimers handle _ Hh). cbn [ct_callback] in *.
    destruct cb as [c x p|c]; unfold startUpdate; (split; [split; [|split]|]);
      cbn [nextPromise cardTimers inflight promises]; try done.
    intros k o Hk. destruct (decide (nextOp s = k)) as [<-|Hne].
    + rewrite lookup_insert_eq in Hk. injection Hk as <-. cbn [op_promise].
      intros ->. by apply Htimers.
    + rewrite lookup_insert_ne in Hk by done. by apply (Hops k).
  - unfold settleUpdate.
    destruct (inflight s !! op) as [o|] eqn:Hop; [|done].
    assert (Hne : op_promise o <> promise) by (by apply (Hops op)).
    destruct outcome as [err|result]; (split; [split; [|split]|]);
      cbn [nextPromise cardTimers inflight promises]; try done.
    + intros k o' [_ Hk]%lookup_delete_Some. by apply (Hops k).
    + by rewrite lookup_insert_ne.
    + intros h t Ht. destruct (decide (nextCardTimer s = h)) as [<-|Hh].
      * rewrite lookup_insert_eq in Ht. injection Ht as <-. cbn [ct_callback refersTo]. tauto.
      * rewrite lookup_insert_ne in Ht by done. by apply (Htimers h).
    + intros k o' [_ Hk]%lookup_delete_Some. by apply (Hops k).
    + by rewrite lookup_insert_ne.
  - destruct (cleanup_fold_untouched expired s) as (Hp & Hn & Hi & _ & Hsub).
    cbv zeta in *. split; [|by rewrite Hp].
    split; [by rewrite Hn|]. split; [|by rewrite Hi].
    by apply (released_timers_shrink s).
  - split; [|done]. split; [done|]. split; [|done].
    apply (released_timers_shrink s); [|done].
    cbn [stopCardCacheCleanup cardTimers]. apply foldr_delete_subseteq.
Qed.

Lemma released_run evs promise : forall s,
  released s promise ->
  promises (cardRun s evs) !! promise = promises s !! promise.
Proof.
  induction evs as [|ev evs IH]; intros s Hs; [done|].
  destruct (released_step s ev promise Hs) as [Hs' Heq].
  cbn [cardRun fold_left]. fold (cardRun (cardStep s ev) evs). by rewrite IH.
Qed.

(** X11: in every state the throttle can reach, the promise of an update
    in flight is pending, and when the update completes that promise is
    fulfilled with its result or rejected with its error, and keeps this
    state whatever happens afterwards: the caller of a throttled update
    that was started gets the outcome of that update and of no other. *)
Theorem update_outcome_reaches_its_caller
    (history : list CardEvent) (op : nat) (o : InflightUpdate)
    (now : Z) (outcome : JsError + string) :
  let s := cardRun emptyThrottleState history in
  inflight s !! op = Some o ->
  promises s !! op_promise o = Some Pending /\
  forall future : list CardEvent,
    promises (cardRun (settleUpdate now op outcome s) future) !! op_promise o
    = Some (settled outcome).
Proof.
  intros s Hop.
  assert (Hwf : wellFormed s) by apply wellFormed_run, wellFormed_empty.
  destruct Hwf as (H1 & H2 & H3 & H4 & H5).
  destruct (H2 op o Hop) as [Hlt Hpending]. split; [done|].
  intros future. rewrite released_run.
  - unfold settleUpdate. rewrite Hop.
    destruct outcome; cbn [promises settled]; apply lookup_insert_eq.
  - unfold settleUpdate, released. rewrite Hop.
    destruct outcome as [err|result]; cbn [nextPromise cardTimers inflight];
      (split; [done|]); split.
    + intros h t Ht. by apply (H4 h t op o).
    + intros k o' [Hne Hk]%lookup_delete_Some Heq. by apply Hne, (H5 op k o o').
    + intros h t Ht. destruct (decide (nextCardTimer s = h)) as [<-|Hh].
      * rewrite lookup_insert_eq in Ht. injection Ht as <-. cbn [ct_callback refersTo]. tauto.
      * rewrite lookup_insert_ne in Ht by done. by apply (H4 h t op o).
    + intros k o' [Hne Hk]%lookup_delete_Some Heq. by apply Hne, (H5 op k o o').
Qed.

Lemma update_outcome_reaches_its_caller_witness :
  let s := cardRun emptyThrottleState oneScheduled in
  inflight s !! 0%nat = Some {| op_cardBizId := "card-1"; op_text := "A"; op_promise := 0 |} /\
  promises
    (cardRun (settleUpdate 1000250 0 (inr "ok") s)
       [ TimerFired 1000500 0; UpdateSettled 1000600 1 (inl (AxiosError (Some 500)));
         CleanupStopped ]) !! 0%nat
  = Some (Fulfilled "ok").
Proof.
  intros s. split; [reflexivity|].
  by destruct (update_outcome_reaches_its_caller oneScheduled 0
                 {| op_cardBizId := "card-1"; op_text := "A"; op_promise := 0 |}
                 1000250 (inr "ok") eq_refl) as [_ Hsettled].
Defined.

(** ** Timing of the token fetch, reuse of the token, footprint of a card update *)

Lemma finalStatus_not_retryable status :
  finalStatus status <-> isRetryable (AxiosError status) = false.
Proof.
  unfold isRetryable, finalStatus. cbn [errorStatus]. destruct status as [st|]; [|done].
  rewrite !orb_false_iff, andb_false_iff, negb_false_iff, !Z.eqb_neq, Z.eqb_eq, Z.leb_gt.
  lia.
Qed.

Lemma tokenFresh_dec (w : World) : tokenFresh w \/ ~ tokenFresh w.
Proof.
  unfold tokenFresh. destruct (accessToken w) as [tok|]; [|right; by intros (? & ? & _)].
  destruct (decide (tok = EmptyString)) as [->|Hne].
  { right. intros (? & [= <-] & ? & _). done. }
  destruct (decide (clock w + TOKEN_SAFETY_MARGIN < accessTokenExpiry w)) as [Hlt|Hge].
  - left. by exists tok.
  - right. by intros (? & _ & _ & ?).
Qed.

Section TokenTiming.
Context (remote : Remote) (config : DingTalkConfig).

Let post : HttpRequest := PostAccessToken (clientId config) (clientSecret config).

(** The waits of one run of the retry loop around the token request. *)
Lemma retry_token_timing (now : Z) (maxRetries : nat) :
  forall (remaining attempt : nat) (w : World),
    (attempt + remaining = maxRetries + 1)%nat -> (1 <= remaining)%nat ->
    let out := retryLoop (requestAccessToken remote config now) maxRetries 100
                         remaining attempt w in
    exists n,
      (1 <= n <= remaining)%nat /\
      requests out.2 = requests w ++ replicate n post /\
      slept out.2 = slept w ++ (backoffDelay <$> seq attempt (n - 1)) /\
      clock out.2 = clock w + total (backoffDelay <$> seq attempt (n - 1)) /\
      match out.1 with
      | inr tok =>
          exists before info,
            tokenEndpoint remote before post = inr info /\ tok = ti_accessToken info /\
            accessToken out.2 = Some tok /\
            accessTokenExpiry out.2 = now + ti_expireIn info * 1000
      | inl err =>
          exists status, err = AxiosError status /\
            tokenEndpoint remote (requests w ++ replicate (n - 1) post) post = inl status /\
            (isRetryable err = false \/ n = remaining)
      end.
Proof.
  induction remaining as [|remaining IH]; intros attempt w Hsum Hpos out; [lia|].
  subst out. rewrite retryLoop_step.
  destruct (tokenEndpoint remote (requests w) post) as [status|info] eqn:Hresp.
  - rewrite (requestAccessToken_rejected remote config now w status Hresp).
    destruct (negb (isRetryable (AxiosError status)) || (attempt =? maxRetries)%nat)%bool
      eqn:Hstop.
    + exists 1%nat. cbn [fst snd replicate seq fmap list_fmap total foldr].
      rewrite !app_nil_r, Z.add_0_r.
      split; [lia|]. repeat split; try done.
      exists status. split; [done|]. split; [done|].
      apply orb_true_iff in Hstop as [Hstop|Hstop].
      * left. by apply negb_true_iff.
      * right. apply Nat.eqb_eq in Hstop. lia.
    + apply orb_false_iff in Hstop as [_ Hatt]. apply Nat.eqb_neq in Hatt.
      set (w2 := afterSleep _ _).
      destruct (IH (S attempt) w2) as (n & Hn & Hreq & Hslept & Hclock & Hout); [lia|lia|].
      exists (S n). replace (S n - 1)%nat with (S (n - 1)) by lia.
      split; [lia|]. rewrite Hreq, Hslept, Hclock. subst w2.
      cbn [requests slept clock afterSleep logRequest seq fmap list_fmap total foldr replicate].
      rewrite <- !app_assoc. fold post. split; [done|]. split; [done|]. split.
      { fold (total (backoffDelay <$> seq (S attempt) (n - 1))). lia. }
      destruct (retryLoop _ _ _ _ _ _).1 as [err|tok]; [|done].
      destruct Hout as (status' & -> & Hresp' & Hlast).
      exists status'. split; [done|]. split.
      * cbn [requests afterSleep logRequest] in Hresp'.
        rewrite <- app_assoc in Hresp'. exact Hresp'.
      * destruct Hlast as [?|?]; [by left|right; lia].
  - rewrite (requestAccessToken_answered remote config now w info Hresp).
    exists 1%nat. cbn [fst snd replicate seq fmap list_fmap total foldr requests slept clock].
    rewrite app_nil_r, Z.add_0_r.
    split; [lia|]. repeat split; try done.
    exists (requests w), info. done.
Qed.

End TokenTiming.

(** X12: one call of [getAccessToken] makes at most three token requests,
    waits 100 ms after the first failed attempt and 200 ms after the
    second, never after the last one, and leaves the card registry as it
    is. *)
Theorem token_fetch_backs_off (remote : Remote) (config : DingTalkConfig) (w : World) :
  let out := getAccessToken remote config w in
  exists n,
    (n <= MAX_RETRIES)%nat /\
    requests out.2 =
      requests w ++ replicate n (PostAccessToken (clientId config) (clientSecret config)) /\
    slept out.2 = slept w ++ take (n - 1) [100; 200] /\
    clock out.2 = clock w + total (take (n - 1) [100; 200]) /\
    cardInstances out.2 = cardInstances w.
Proof.
  intros out. subst out.
  destruct (tokenFresh_dec w) as [Hfresh|Hstale].
  - destruct (getAccessToken_fresh remote config w Hfresh) as (tok & _ & ->).
    exists 0%nat. cbn [fst snd replicate take total foldr].
    rewrite !app_nil_r, Z.add_0_r. split; [lia|]. done.
  - rewrite getAccessToken_stale by done. unfold retryWithBackoff.
    destruct (retry_token_timing remote config (clock w) MAX_RETRIES MAX_RETRIES 1 w)
      as (n & Hn & Hreq & Hslept & Hclock & _); [done|unfold MAX_RETRIES; lia|].
    destruct (retry_token remote config (clock w) MAX_RETRIES MAX_RETRIES 1 w)
      as (n' & _ & _ & Hcards & _); [done|unfold MAX_RETRIES; lia|].
    exists n. split; [lia|]. rewrite Hreq, Hslept, Hclock, Hcards.
    unfold MAX_RETRIES in Hn.
    assert (n = 1 \/ n = 2 \/ n = 3)%nat as [-> | [-> | ->]] by lia; done.
Qed.

(** X13: a token that [getAccessToken] has returned is returned again,
    with no request made and nothing changed, by every later call that
    finds it in the cache at a time when [Date.now() + 60000] is below its
    expiry; a later call made at or after that time requests a new token.
    After a refresh the expiry is the time at which the refreshing call
    began plus the lifetime the platform gave, so that a token valid for
    [E] seconds is reused for [E - 60] seconds at most. The cache is not
    keyed by the credentials: the later call may be made for another
    account's configuration. *)
Theorem token_is_reused_after_refresh
    (remote : Remote) (config config' : DingTalkConfig) (w w' later : World) (tok : string) :
  (forall before r info, tokenEndpoint remote before r = inr info ->
     ti_accessToken info <> EmptyString) ->
  getAccessToken remote config w = (inr tok, w') ->
  accessToken later = accessToken w' ->
  accessTokenExpiry later = accessTokenExpiry w' ->
  (clock later + TOKEN_SAFETY_MARGIN < accessTokenExpiry w' ->
     getAccessToken remote config' later = (inr tok, later)) /\
  (accessTokenExpiry w' <= clock later + TOKEN_SAFETY_MARGIN ->
     exists n, (1 <= n)%nat /\
       requests (getAccessToken remote config' later).2 =
         requests later
         ++ replicate n (PostAccessToken (clientId config') (clientSecret config'))) /\
  (tokenFresh w \/
   exists before info,
     tokenEndpoint remote before (PostAccessToken (clientId config) (clientSecret config))
       = inr info /\
     tok = ti_accessToken info /\
     accessTokenExpiry w' = clock w + ti_expireIn info * 1000).
Proof.
  intros Hvalid Hfirst Hsame Hexp.
  assert (Hcached : accessToken w' = Some tok /\ tok <> EmptyString /\
            (tokenFresh w \/
             exists before info,
               tokenEndpoint remote before
                 (PostAccessToken (clientId config) (clientSecret config)) = inr info /\
               tok = ti_accessToken info /\
               accessTokenExpiry w' = clock w + ti_expireIn info * 1000)).
  { destruct (tokenFresh_dec w) as [Hfresh|Hstale].
    - destruct (getAccessToken_fresh remote config w Hfresh) as (tok0 & Htok0 & Hout).
      rewrite Hout in Hfirst. injection Hfirst as -> ->.
      split; [done|]. split; [|by left].
      destruct Hfresh as (tok1 & Htok1 & Hne & _). congruence.
    - rewrite getAccessToken_stale in Hfirst by done. unfold retryWithBackoff in Hfirst.
      destruct (retry_token_timing remote config (clock w) MAX_RETRIES MAX_RETRIES 1 w)
        as (n & Hn & _ & _ & _ & Hout); [done|unfold MAX_RETRIES; lia|].
      rewrite Hfirst in Hout. cbn [fst snd] in Hout.
      destruct Hout as (before & info & Hinfo & -> & Htok & Hexpiry).
      split; [done|]. split; [by eapply Hvalid|].
      right. by exists before, info. }
  destruct Hcached as (Htok & Hne & Horigin).
  split; [|split; [|done]].
  - intros Hearly.
    assert (Hfresh : tokenFresh later).
    { exists tok. rewrite Hsame, Hexp. done. }
    destruct (getAccessToken_fresh remote config' later Hfresh) as (tok' & Htok' & ->).
    congruence.
  - intros Hlate.
    assert (Hstale : ~ tokenFresh later).
    { intros (tok' & _ & _ & Hlt). rewrite Hexp in Hlt. lia. }
    rewrite getAccessToken_stale by done. unfold retryWithBackoff.
    destruct (retry_token_timing remote config' (clock later) MAX_RETRIES MAX_RETRIES 1 later)
      as (n & Hn & Hreq & _); [done|unfold MAX_RETRIES; lia|].
    exists n. split; [lia|done].
Qed.

Lemma token_is_reused_after_refresh_witness :
  let first := getAccessToken tokenEndpointFlaky (Samples.config None None) staleWorld in
  let later := atTime 8139999 first.2 in
  first.1 = inr "new-token" /\
  clock staleWorld = 1000000 /\
  accessTokenExpiry first.2 = 8200000 /\
  getAccessToken tokenEndpointFlaky otherConfig later = (inr "new-token", later).
Proof.
  intros first later. split; [reflexivity|]. split; [reflexivity|]. split; [reflexivity|].
  destruct (token_is_reused_after_refresh tokenEndpointFlaky (Samples.config None None)
              otherConfig staleWorld first.2 later "new-token") as (Hreuse & _ & _).
  - intros before r info Hinfo. simpl in Hinfo.
    destruct before; [discriminate|]. by injection Hinfo as <-.
  - reflexivity.
  - reflexivity.
  - reflexivity.
  - apply Hreuse. vm_compute. reflexivity.
Defined.

(** X14: a token request that is rejected without a response, or with a
    status below 500 other than 401 and 429, is not repeated: the fetch
    throws that error after the one request, without waiting, and the
    cached token is as it was. *)
Theorem token_fetch_gives_up_on_final_status
    (remote : Remote) (config : DingTalkConfig) (w : World) (status : option Z) :
  let post := PostAccessToken (clientId config) (clientSecret config) in
  let out := getAccessToken remote config w in
  ~ tokenFresh w ->
  tokenEndpoint remote (requests w) post = inl status ->
  finalStatus status ->
  out.1 = inl (AxiosError status) /\
  requests out.2 = requests w ++ [post] /\
  slept out.2 = slept w /\
  accessToken out.2 = accessToken w /\ accessTokenExpiry out.2 = accessTokenExpiry w.
Proof.
  intros post out Hstale Hresp Hfinal. subst out.
  rewrite getAccessToken_stale by done. unfold retryWithBackoff, MAX_RETRIES.
  rewrite retryLoop_step.
  rewrite (requestAccessToken_rejected remote config (clock w) w status Hresp).
  apply finalStatus_not_retryable in Hfinal. by rewrite Hfinal.
Qed.

Lemma token_fetch_gives_up_on_final_status_witness :
  let post := PostAccessToken (Some "app-key") (Some "app-secret") in
  let out := getAccessToken cardEndpointFlaky (Samples.config None None) staleWorld in
  out.1 = inl (AxiosError (Some 400)) /\ requests out.2 = [post] /\ slept out.2 = [].
Proof.
  intros post out.
  destruct (token_fetch_gives_up_on_final_status cardEndpointFlaky (Samples.config None None)
              staleWorld (Some 400)) as (Hout & Hreq & Hslept & _).
  - intros (tok & _ & _ & Hlt). simpl in Hlt. unfold TOKEN_SAFETY_MARGIN in Hlt. lia.
  - reflexivity.
  - simpl. lia.
  - done.
Defined.

Section PutFacts.
Context (remote : Remote) (url token cardBizId text : string).

Let put : HttpRequest := PutCard url token cardBizId text.

Lemma putCardOnce_answered w body :
  cardEndpoint remote (requests w) put = inr body ->
  putCardOnce remote url token cardBizId text w = (inr body, logRequest put w).
Proof. intros H. unfold putCardOnce. unfold put in H. by rewrite H. Qed.

(** Every run of the retry loop around the card request: [n] rejected
    attempts with their waits, then the attempt that decides. *)
Lemma retry_put (maxRetries : nat) :
  forall (remaining attempt : nat) (w : World),
    (attempt + remaining = maxRetries + 1)%nat -> (1 <= remaining)%nat ->
    let out := retryLoop (putCardOnce remote url token cardBizId text) maxRetries 100
                         remaining attempt w in
    exists n,
      (n < remaining)%nat /\
      out.2 = retriedWorld put attempt n w /\
      match out.1 with
      | inr body => cardEndpoint remote (requests w ++ replicate n put) put = inr body
      | inl err =>
          exists status, err = AxiosError status /\
            cardEndpoint remote (requests w ++ replicate n put) put = inl status
      end.
Proof.
  induction remaining as [|remaining IH]; intros attempt w Hsum Hpos out; [lia|].
  subst out. rewrite retryLoop_step.
  destruct (cardEndpoint remote (requests w) put) as [status|body] eqn:Hresp.
  - rewrite (putCardOnce_rejected remote url token cardBizId text w status Hresp).
    destruct (negb (isRetryable (AxiosError status)) || (attempt =? maxRetries)%nat)%bool
      eqn:Hstop.
    + exists 0%nat. cbn [fst snd replicate retriedWorld]. rewrite app_nil_r.
      split; [lia|]. split; [done|]. by exists status.
    + apply orb_false_iff in Hstop as [_ Hatt]. apply Nat.eqb_neq in Hatt.
      destruct (IH (S attempt) (afterSleep (backoffDelay attempt) (logRequest put w)))
        as (n & Hn & Hworld & Hout); [lia|lia|].
      exists (S n). split; [lia|]. split; [exact Hworld|].
      cbn [requests afterSleep logRequest] in Hout. rewrite <- app_assoc in Hout.
      exact Hout.
  - rewrite (putCardOnce_answered w body Hresp).
    exists 0%nat. cbn [fst snd replicate retriedWorld]. rewrite app_nil_r.
    split; [lia|]. done.
Qed.

(** The retry loop returns the first answer, after retryable rejections. *)
Lemma retry_put_succeeds (maxRetries : nat) (body : string) :
  forall (n remaining attempt : nat) (w : World),
    (attempt + remaining = maxRetries + 1)%nat ->
    (n < remaining)%nat ->
    (forall i, (i < n)%nat ->
       exists st, cardEndpoint remote (requests w ++ replicate i put) put = inl st /\
                  isRetryable (AxiosError st) = true) ->
    cardEndpoint remote (requests w ++ replicate n put) put = inr body ->
    retryLoop (putCardOnce remote url token cardBizId text) maxRetries 100
              remaining attempt w
    = (inr body, retriedWorld put attempt n w).
Proof.
  induction n as [|n IH]; intros remaining attempt w Hsum Hlt Hretry Hlast;
    (destruct remaining as [|remaining]; [lia|]); rewrite retryLoop_step.
  - simpl in Hlast. rewrite app_nil_r in Hlast.
    by rewrite (putCardOnce_answered w body Hlast).
  - destruct (Hretry 0%nat) as (st & Hst & Hretryable); [lia|].
    simpl in Hst. rewrite app_nil_r in Hst.
    rewrite (putCardOnce_rejected remote url token cardBizId text w st Hst), Hretryable.
    simpl negb. cbn [orb].
    replace (attempt =? maxRetries)%nat with false
      by (symmetry; apply Nat.eqb_neq; lia).
    cbn [retriedWorld]. apply IH; [lia|lia| |].
    + intros i Hi. destruct (Hretry (S i)) as (st' & Hst' & Hr'); [lia|].
      exists st'. split; [|done]. simpl in *. by rewrite <- app_assoc.
    + simpl in *. by rewrite <- app_assoc.
Qed.

End PutFacts.

Lemma getAccessToken_cards remote config w :
  cardInstances (getAccessToken remote config w).2 = cardInstances w.
Proof.
  destruct (tokenFresh_dec w) as [Hfresh|Hstale].
  - by destruct (getAccessToken_fresh remote config w Hfresh) as (tok & _ & ->).
  - rewrite getAccessToken_stale by done. unfold retryWithBackoff.
    by destruct (retry_token remote config (clock w) MAX_RETRIES MAX_RETRIES 1 w)
      as (n & _ & _ & Hcards & _); [done|unfold MAX_RETRIES; lia|].
Qed.

(** What a call of [updateInteractiveCard] that got its token does. *)
Lemma updateInteractiveCard_run remote config cardBizId text w token w1 :
  let put := PutCard (Js.orS (cardUpdateApiUrl config) defaultCardUpdateUrl)
                     token cardBizId text in
  let out := updateInteractiveCard remote config cardBizId text w in
  getAccessToken remote config w = (inr token, w1) ->
  exists n,
    (n < MAX_RETRIES)%nat /\
    let w2 := retriedWorld put 1 n w1 in
    match cardEndpoint remote (requests w1 ++ replicate n put) put with
    | inr body => out = (inr body, (touchCard cardBizId w2).2)
    | inl status =>
        out = (inl (AxiosError status),
               if isTerminalStatus status then (removeCard cardBizId w2).2 else w2)
    end.
Proof.
  intros put out Htoken.
  destruct (retry_put remote (Js.orS (cardUpdateApiUrl config) defaultCardUpdateUrl)
              token cardBizId text MAX_RETRIES MAX_RETRIES 1 w1)
    as (n & Hn & Hworld & Hout); [done|unfold MAX_RETRIES; lia|].
  exists n. split; [done|]. cbv zeta. fold put in Hworld, Hout.
  assert (Hdef :
    out =
      match retryLoop (putCardOnce remote
                         (Js.orS (cardUpdateApiUrl config) defaultCardUpdateUrl)
                         token cardBizId text) MAX_RETRIES 100 MAX_RETRIES 1 w1 with
      | (inr body, w2) => (inr body, (touchCard cardBizId w2).2)
      | (inl err, w2) =>
          (inl err,
           if isTerminalStatus (errorStatus err) then (removeCard cardBizId w2).2 else w2)
      end).
  { subst out. unfold updateInteractiveCard, bind at 1. rewrite Htoken.
    unfold tryCatch, bind, retryWithBackoff, ret, throw.
    destruct (retryLoop _ _ _ _ _ w1) as [[err|body] w2]; [|done].
    by destruct (isTerminalStatus (errorStatus err)). }
  rewrite Hdef. clear Hdef.
  destruct (retryLoop _ _ _ _ _ w1) as [[err|body] w2];
    cbn [fst snd] in Hworld, Hout; subst w2.
  - by destruct Hout as (status & -> & ->).
  - by rewrite Hout.
Qed.

(** X15: a call of [updateInteractiveCard] touches the registry entry of
    its own card only and never adds an entry. When the token fetch throws,
    its error is thrown and no card request is made; otherwise between one
    and three card requests are made, all with the token fetched at the
    start (also after a 401), with waits of 100 ms and 200 ms between
    them. *)
Theorem card_update_footprint
    (remote : Remote) (config : DingTalkConfig) (cardBizId text : string) (w : World) :
  let out := updateInteractiveCard remote config cardBizId text w in
  let fetched := getAccessToken remote config w in
  (forall other, other <> cardBizId ->
     cardInstances out.2 !! other = cardInstances w !! other) /\
  (cardInstances w !! cardBizId = None -> cardInstances out.2 !! cardBizId = None) /\
  match fetched.1 with
  | inl err => out = (inl err, fetched.2)
  | inr token =>
      exists n,
        (1 <= n <= MAX_RETRIES)%nat /\
        requests out.2 =
          requests fetched.2
          ++ replicate n (PutCard (Js.orS (cardUpdateApiUrl config) defaultCardUpdateUrl)
                                  token cardBizId text) /\
        slept out.2 = slept fetched.2 ++ take (n - 1) [100; 200]
  end.
Proof.
  intros out fetched. subst out.
  assert (Hcards := getAccessToken_cards remote config w). fold fetched in Hcards.
  destruct fetched as [[err|token] w1] eqn:Hfetched; cbn [fst snd] in *.
  - rewrite (updateInteractiveCard_token_failure _ _ _ _ _ _ _ Hfetched).
    cbn [snd]. rewrite Hcards. done.
  - destruct (updateInteractiveCard_run remote config cardBizId text w token w1 Hfetched)
      as (n & Hn & Hrun).
    cbv zeta in Hrun.
    set (put := PutCard _ token cardBizId text) in *.
    set (w2 := retriedWorld put 1 n w1) in *.
    assert (Hw2 : cardInstances w2 = cardInstances w).
    { subst w2. rewrite <- Hcards. apply retriedWorld_state. }
    assert (Hreq : requests w2 = requests w1 ++ replicate (S n) put)
      by apply retriedWorld_requests.
    assert (Hslept : slept w2 = slept w1 ++ take n [100; 200]).
    { replace (take n [100; 200]) with (backoffDelay <$> seq 1 n);
        [apply retriedWorld_slept|].
      unfold MAX_RETRIES in Hn.
      assert (n = 0 \/ n = 1 \/ n = 2)%nat as [-> | [-> | ->]] by lia; done. }
    replace (S n - 1)%nat with n by lia.
    destruct (cardEndpoint remote (requests w1 ++ replicate n put) put) as [status|body];
      rewrite Hrun; clear Hrun.
    + assert (Hsame :
        forall wf, wf = (if isTerminalStatus status then (removeCard cardBizId w2).2 else w2) ->
          requests wf = requests w2 /\ slept wf = slept w2 /\
          (forall other, other <> cardBizId ->
             cardInstances wf !! other = cardInstances w2 !! other) /\
          (cardInstances w2 !! cardBizId = None -> cardInstances wf !! cardBizId = None)).
      { intros wf ->. destruct (isTerminalStatus status); [|done].
        cbn [removeCard snd requests slept cardInstances].
        repeat split; [|intros _; apply lookup_delete_eq].
        intros other Hne. by rewrite lookup_delete_ne. }
      destruct (Hsame _ eq_refl) as (Hr & Hs & Hother & Hnone).
      cbn [snd]. rewrite <- Hw2. split; [exact Hother|]. split; [exact Hnone|].
      exists (S n). rewrite Hr, Hs. split; [lia|]. replace (S n - 1)%nat with n by lia. done.
    + cbn [snd touchCard requests slept cardInstances]. rewrite <- Hw2.
      split; [|split].
      * intros other Hne. destruct (cardInstances w2 !! cardBizId); [|done].
        by rewrite lookup_insert_ne.
      * intros Hnone. by rewrite Hnone.
      * exists (S n). split; [lia|]. replace (S n - 1)%nat with n by lia. done.
Qed.

(** X16: a card update whose request is answered, at once or after one or
    two attempts rejected with a retryable status, returns the answer and
    stamps the registry entry of the card, when there is one, with the
    time of completion; a card that is not registered stays so. *)
Theorem card_update_success_stamps_the_card
    (remote : Remote) (config : DingTalkConfig) (cardBizId text token : string)
    (w w1 : World) (n : nat) (body : string) :
  let put := PutCard (Js.orS (cardUpdateApiUrl config) defaultCardUpdateUrl)
                     token cardBizId text in
  let answer := fun i : nat => cardEndpoint remote (requests w1 ++ replicate i put) put in
  let out := updateInteractiveCard remote config cardBizId text w in
  getAccessToken remote config w = (inr token, w1) ->
  (n < MAX_RETRIES)%nat ->
  (forall i, (i < n)%nat ->
     exists st, answer i = inl st /\ isRetryable (AxiosError st) = true) ->
  answer n = inr body ->
  out.1 = inr body /\
  requests out.2 = requests w1 ++ replicate (S n) put /\
  clock out.2 = clock w1 + total (take n [100; 200]) /\
  cardInstances out.2 !! cardBizId = stamped (clock out.2) <$> cardInstances w !! cardBizId.
Proof.
  intros put answer out Htoken Hn Hretried Hanswer. subst answer.
  assert (Hcards := getAccessToken_cards remote config w). rewrite Htoken in Hcards.
  cbn [snd] in Hcards.
  set (w2 := retriedWorld put 1 n w1).
  assert (Hdef : out = (inr body, (touchCard cardBizId w2).2)).
  { subst out. unfold updateInteractiveCard, bind at 1. rewrite Htoken.
    unfold tryCatch, bind at 1, retryWithBackoff.
    by rewrite (retry_put_succeeds remote _ token cardBizId text MAX_RETRIES body
                  n MAX_RETRIES 1 w1). }
  rewrite Hdef. clear Hdef out.
  assert (Hw2 : cardInstances w2 = cardInstances w).
  { rewrite <- Hcards. apply retriedWorld_state. }
  assert (Hclock : clock w2 = clock w1 + total (take n [100; 200])).
  { subst w2. unfold MAX_RETRIES in Hn.
    assert (n = 0 \/ n = 1 \/ n = 2)%nat as [-> | [-> | ->]] by lia;
      cbn [retriedWorld afterSleep logRequest clock take total foldr];
      unfold backoffDelay; simpl; lia. }
  cbn [touchCard fst snd requests clock cardInstances].
  split; [done|]. split; [apply retriedWorld_requests|]. split; [done|].
  rewrite <- Hw2. destruct (cardInstances w2 !! cardBizId) as [i|] eqn:Hi.
  - by rewrite lookup_insert_eq.
  - by rewrite Hi.
Qed.

Lemma card_update_success_stamps_the_card_witness :
  let put := PutCard defaultCardUpdateUrl "cached-token" "card-1" "hello" in
  let out :=
    updateInteractiveCard cardEndpointFlaky (Samples.config None None) "card-1" "hello"
                          worldWithCard in
  out.1 = inr "updated" /\
  requests out.2 = [put; put] /\
  (lastUpdated <$> cardInstances out.2 !! "card-1") = Some 1000100.
Proof.
  intros put out.
  destruct (card_update_success_stamps_the_card cardEndpointFlaky (Samples.config None None)
              "card-1" "hello" "cached-token" worldWithCard worldWithCard 1 "updated")
    as (Hout & Hreq & Hclock & Hcard).
  - reflexivity.
  - unfold MAX_RETRIES. lia.
  - intros i Hi. assert (i = 0)%nat as -> by lia. by exists (Some 401).
  - reflexivity.
  - split; [exact Hout|]. split; [exact Hreq|].
    fold out in Hcard, Hclock. rewrite Hcard, Hclock. reflexivity.
Defined.

Lemma retryLoop_last {A} (fn : Async A) (maxRetries : nat) :
  forall (remaining attempt : nat) (w : World),
    (attempt + remaining = maxRetries + 1)%nat -> (1 <= remaining)%nat ->
    exists w0, retryLoop fn maxRetries 100 remaining attempt w = fn w0.
Proof.
  induction remaining as [|remaining IH]; intros attempt w Hsum Hpos; [lia|].
  rewrite retryLoop_step. destruct (fn w) as [[err|a] w'] eqn:Hfn.
  - destruct (negb (isRetryable err) || (attempt =? maxRetries)%nat)%bool eqn:Hstop.
    + by exists w.
    + apply orb_false_iff in Hstop as [_ Hatt]. apply Nat.eqb_neq in Hatt.
      apply IH; lia.
  - by exists w.
Qed.

(** X17: with one attempt or more allowed, what [retryWithBackoff] returns
    or throws is what the last call of the function returned or threw, and
    the state is as that call left it: an error is passed on as it is,
    also when the attempts are used up. [Retry exhausted without
    returning] is thrown only when no attempt is allowed, and then the
    function is not called. *)
Theorem retry_passes_on_the_last_outcome {A} (fn : Async A) (w : World) :
  retryWithBackoff fn 0 w = (inl RetryExhausted, w) /\
  forall maxRetries, (1 <= maxRetries)%nat ->
    exists w0, retryWithBackoff fn maxRetries w = fn w0.
Proof.
  split; [done|]. intros maxRetries Hpos. unfold retryWithBackoff.
  apply retryLoop_last; lia.
Qed.

(** ** The allowlist and the extracted content *)

(** X18: an allowlist with a ["*"] entry (blanks around it ignored) admits
    every sender, also one without an id, and under the allowlist policy
    no message is turned away. *)
Theorem wildcard_admits_everyone (allow : list string) :
  (exists v, v ∈ allow /\ Js.trim v = "*") ->
  (forall sender, isSenderAllowed (normalizeAllowFrom (Some allow)) sender = true) /\
  (forall call webhook notice,
      allowFrom (dingtalkConfig (call_params call)) = Some allow ->
      handleDingTalkMessageOriginal call <> AccessDenied webhook notice).
Proof.
  intros (v & Hv & Hstar).
  assert (Hin : "*" ∈ trimmedEntries allow).
  { apply trimmedEntries_elem. split; [done|]. by exists v. }
  assert (Hall : forall sender, isSenderAllowed (normalizeAllowFrom (Some allow)) sender = true).
  { intros sender. unfold isSenderAllowed.
    rewrite normalize_hasWildcard. cbn [default].
    rewrite (bool_decide_eq_true_2 _ Hin). by destruct (hasEntries _). }
  split; [done|].
  intros call webhook notice Hallow. unfold handleDingTalkMessageOriginal.
  rewrite Hallow. cbn [default]. rewrite Hall.
  repeat case_match; discriminate.
Qed.

Lemma wildcard_admits_everyone_witness :
  isSenderAllowed (normalizeAllowFrom (Some ["dd:boss"; " * "])) None = true /\
  isSenderAllowed (normalizeAllowFrom (Some ["dd:boss"; " * "])) (Some "staff-9") = true.
Proof.
  destruct (wildcard_admits_everyone ["dd:boss"; " * "]) as [Hall _].
  - exists " * ". split; [right; left|reflexivity].
  - split; apply Hall.
Defined.



(** X20: adding entries to an allowlist that has a non-blank entry never
    shuts out a sender it admitted. (An allowlist without a non-blank
    entry admits everyone, so there the first entry does shut out the
    others.) *)
Theorem more_entries_never_shut_out
    (allow more : list string) (sender : option string) :
  (exists v, v ∈ allow /\ Js.trim v <> EmptyString) ->
  isSenderAllowed (normalizeAllowFrom (Some allow)) sender = true ->
  isSenderAllowed (normalizeAllowFrom (Some (allow ++ more))) sender = true.
Proof.
  intros (v0 & Hv0 & Hne0). unfold isSenderAllowed.
  rewrite (normalize_hasEntries (Some allow)), !normalize_hasWildcard.
  change (default [] (Some allow)) with allow.
  change (default [] (Some (allow ++ more))) with (allow ++ more).
  rewrite (bool_decide_eq_true_2 (trimmedEntries allow <> [])).
  2:{ intros Hnil.
      assert (Hin : Js.trim v0 ∈ trimmedEntries allow)
        by (apply trimmedEntries_elem; split; [done|by exists v0]).
      rewrite Hnil in Hin. by apply elem_of_nil in Hin. }
  cbn [negb]. intros Hallowed.
  destruct (hasEntries (normalizeAllowFrom (Some (allow ++ more)))); [|done]. cbn [negb].
  case_bool_decide as Hwild.
  - rewrite bool_decide_eq_true_2; [done|].
    apply trimmedEntries_elem in Hwild as [Hne (v & Hv & Heq)].
    apply trimmedEntries_elem. split; [done|]. exists v. split; [|done].
    apply elem_of_app. by left.
  - destruct (bool_decide ("*" ∈ trimmedEntries (allow ++ more))); [done|].
    destruct sender as [s|]; [|done].
    destruct (Js.truthy s); [|done]. cbn [andb] in *.
    case_bool_decide as Hmatch; [|done].
    rewrite bool_decide_eq_true_2; [done|].
    apply normalize_entriesLower in Hmatch as (v & Hv & Hrest).
    apply normalize_entriesLower. exists v. split; [|done].
    change (default [] (Some allow)) with allow in Hv.
    change (default [] (Some (allow ++ more))) with (allow ++ more).
    apply elem_of_app. by left.
Qed.

Lemma more_entries_never_shut_out_witness :
  isSenderAllowed (normalizeAllowFrom (Some (["dd:staff-1"] ++ ["ding:boss"; "x"])))
                  (Some "Staff-1") = true.
Proof.
  apply more_entries_never_shut_out.
  - exists "dd:staff-1". split; [left|discriminate].
  - reflexivity.
Defined.

(** X21: the pipeline turns a message away with the denial notice only in
    a direct conversation under the policy [allowlist], only when the
    sender check fails, and then through the session webhook of the event
    with the notice for its sender; messages of group conversations and
    of the policies [open] and [pairing] are never turned away. *)
Theorem denial_only_for_direct_allowlist (call : PipelineCall) (webhook notice : string) :
  let p := call_params call in
  handleDingTalkMessageOriginal call = AccessDenied webhook notice ->
  conversationType (data p) = "1" /\
  dmPolicy (dingtalkConfig p) = Some "allowlist" /\
  isSenderAllowed (normalizeAllowFrom (allowFrom (dingtalkConfig p))) (keySender (data p))
    = false /\
  webhook = sessionWebhook p /\
  notice = denialNotice (keySender (data p)).
Proof.
  intros p. subst p. unfold handleDingTalkMessageOriginal. cbv zeta.
  destruct (negb _); [discriminate|].
  destruct (String.eqb_spec (conversationType (data (call_params call))) "1")
    as [Hdirect|_]; [|discriminate].
  destruct (String.eqb_spec (Js.orS (dmPolicy (dingtalkConfig (call_params call))) "open")
              "allowlist") as [Hpolicy|_]; [|discriminate].
  rewrite normalize_default. fold (keySender (data (call_params call))).
  destruct (isSenderAllowed _ _) eqn:Hallowed; [discriminate|].
  intros [= <- <-]. repeat split; try done.
  unfold Js.orS in Hpolicy.
  destruct (dmPolicy _) as [s|]; [|discriminate].
  destruct (Js.truthy s); [by subst|discriminate].
Qed.

Lemma denial_only_for_direct_allowlist_witness :
  let call :=
    {| call_params :=
         Samples.params (Some "allowlist") (Some ["dd:Staff-2"])
                        (Samples.textEvent "m1" "hello");
       call_content := None |} in
  handleDingTalkMessageOriginal call =
    AccessDenied "https://hook.example/s1" (denialNotice (Some "staff-1")) /\
  conversationType (data (call_params call)) = "1" /\
  dmPolicy (dingtalkConfig (call_params call)) = Some "allowlist" /\
  isSenderAllowed (normalizeAllowFrom (Some ["dd:Staff-2"])) (Some "staff-1") = false.
Proof.
  intros call.
  assert (Hdenied : handleDingTalkMessageOriginal call =
                      AccessDenied "https://hook.example/s1" (denialNotice (Some "staff-1")))
    by reflexivity.
  split; [exact Hdenied|].
  destruct (denial_only_for_direct_allowlist call _ _ Hdenied)
    as (Hdirect & Hpolicy & Hallowed & _).
  split; [exact Hdirect|]. split; [exact Hpolicy|exact Hallowed].
Defined.

Lemma truthy_orS (a : option string) (b : string) :
  Js.truthy b = true -> Js.truthy (Js.orS a b) = true.
Proof.
  intros Hb. unfold Js.orS. destruct a as [s|]; [|done].
  by destruct (Js.truthy s) eqn:Hs.
Qed.

Lemma truthy_orS_false (a : option string) (b : string) :
  Js.truthy (Js.orS a b) = false <-> Js.truthy b = false /\ Js.truthyO a = false.
Proof.
  unfold Js.orS, Js.truthyO. destruct a as [s|]; [|by intuition].
  destruct (Js.truthy s) eqn:Hs; [rewrite Hs|]; intuition congruence.
Qed.

Lemma truthy_app (a b : string) : Js.truthy a = true -> Js.truthy (a +:+ b) = true.
Proof. by destruct a. Qed.

(** X22: the text extracted from an event is empty only for a text event
    (type ["text"], or none) whose text is missing or blank; every other
    event gets a text (the placeholder of its type when it has nothing
    else), and so is never skipped for want of text. *)
Theorem only_blank_text_events_have_no_text (d : DingTalkInboundMessage) :
  text (extractMessageContent d) = EmptyString <->
  Js.orS (msgtype d) "text" = "text" /\
  (forall t, text_content d = Some t -> Js.trim t = EmptyString).
Proof.
  rewrite <- truthy_false. unfold extractMessageContent. cbv zeta.
  assert (Hblank : forall b,
    Js.truthy (Js.orS (Js.trim <$> text_content d) b) = false <->
    Js.truthy b = false /\ forall t, text_content d = Some t -> Js.trim t = EmptyString).
  { intros b. rewrite truthy_orS_false. apply and_iff_compat_l.
    destruct (text_content d) as [t|]; cbn [fmap option_fmap option_map Js.truthyO].
    - rewrite truthy_false. split; [by intros ? ? [= <-]|by auto].
    - by split. }
  destruct (String.eqb_spec (Js.orS (msgtype d) "text") "text") as [Htext|Hother].
  { cbn [text plainContent]. rewrite Hblank. split; [by intros [_ ?]|by intros [_ ?]]. }
  assert (Hno : forall c : MessageContent,
    Js.truthy (text c) = true ->
    Js.truthy (text c) = false <->
    Js.orS (msgtype d) "text" = "text" /\
    (forall t, text_content d = Some t -> Js.trim t = EmptyString)).
  { intros c Hc. rewrite Hc. split; [done|]. by intros [? _]. }
  destruct (String.eqb _ "richText").
  { apply Hno. destruct (fold_left _ _ _) as [txt media]. cbn [text].
    by apply truthy_orS. }
  destruct (String.eqb _ "picture"); [by apply Hno|].
  destruct (String.eqb _ "audio"); [apply Hno; by apply truthy_orS|].
  destruct (String.eqb _ "video"); [by apply Hno|].
  destruct (String.eqb _ "file"); [apply Hno; by apply (truthy_app "[文件: ")|].
  cbn [text plainContent]. rewrite Hblank. split; [intros [Hfalse _]|by intros [? _]].
  by rewrite (truthy_app "[") in Hfalse.
Qed.

Lemma richTextStep_media (acc : string * list RichTextMediaFile) (part : RichTextPart) :
  codeAndKind <$> (richTextStep acc part).2 =
    (codeAndKind <$> acc.2) ++ option_list (mediaOf part).
Proof.
  destruct acc as [txt media]. unfold richTextStep, mediaOf. cbv zeta.
  fold (partKind part).
  destruct (String.eqb (partKind part) "text") eqn:H1.
  { apply String.eqb_eq in H1. rewrite H1. cbn. by rewrite app_nil_r. }
  destruct (String.eqb (partKind part) "at") eqn:H2.
  { apply String.eqb_eq in H2. rewrite H2. cbn. by rewrite app_nil_r. }
  destruct (String.eqb (partKind part) "picture") eqn:H3.
  { cbn [orb]. destruct (part_downloadCode part) as [dc|]; [|cbn; by rewrite app_nil_r].
    destruct (Js.truthy dc); cbn [snd option_list]; [|by rewrite app_nil_r].
    by rewrite fmap_app. }
  destruct (String.eqb (partKind part) "image") eqn:H4.
  { cbn [orb]. destruct (part_downloadCode part) as [dc|]; [|cbn; by rewrite app_nil_r].
    destruct (Js.truthy dc); cbn [snd option_list]; [|by rewrite app_nil_r].
    by rewrite fmap_app. }
  cbn [orb].
  destruct (String.eqb (partKind part) "file") eqn:H5.
  { destruct (part_downloadCode part) as [dc|]; [|cbn; by rewrite app_nil_r].
    destruct (Js.truthy dc); cbn [snd option_list]; [|by rewrite app_nil_r].
    by rewrite fmap_app. }
  destruct (String.eqb (partKind part) "link"); cbn [snd option_list]; by rewrite app_nil_r.
Qed.

Lemma richText_fold_media (parts : list RichTextPart) : forall acc,
  codeAndKind <$> (fold_left richTextStep parts acc).2 =
    (codeAndKind <$> acc.2) ++ omap mediaOf parts.
Proof.
  induction parts as [|part parts IH]; intros acc; [simpl; by rewrite app_nil_r|].
  cbn [fold_left]. rewrite IH, richTextStep_media, <- app_assoc. f_equal.
  cbn [omap list_omap]. by destruct (mediaOf part).
Qed.

(** X23: the media list of a rich-text event holds, in the order of the
    components, one file for each picture, image and file component that
    has a non-empty download code, with that code and kind (image or
    file), and nothing else; the event's media path is the code of the
    first of them. *)
Theorem rich_text_media_follow_the_components (d : DingTalkInboundMessage) :
  msgtype d = Some "richText" ->
  let parts := default [] (contentField c_richText d) in
  let c := extractMessageContent d in
  exists r,
    rich c = Some r /\
    richTextParts r = parts /\
    codeAndKind <$> mediaFiles r = omap mediaOf parts /\
    Forall (fun m => downloadCode m <> EmptyString) (mediaFiles r) /\
    mediaPath c = fst <$> head (omap mediaOf parts).
Proof.
  intros Htype parts c. subst c. unfold extractMessageContent. rewrite Htype.
  cbn [Js.orS Js.truthy String.eqb Ascii.eqb Bool.eqb negb]. cbv zeta. fold parts.
  assert (Hmedia := richText_fold_media parts (EmptyString, [])).
  destruct (fold_left richTextStep parts (EmptyString, [])) as [txt media].
  cbn [snd fmap list_fmap app] in Hmedia.
  eexists. split; [reflexivity|]. cbn [richTextParts mediaFiles mediaPath].
  split; [done|]. split; [done|]. split.
  - apply Forall_forall. intros m Hm.
    assert (Hin : codeAndKind m ∈ omap mediaOf parts).
    { rewrite <- Hmedia. apply list_elem_of_fmap. by exists m. }
    apply list_elem_of_omap in Hin as (part & _ & Hpart).
    unfold mediaOf in Hpart. repeat case_match; try discriminate;
      injection Hpart as <- _; by apply truthy_true.
  - rewrite <- Hmedia. by destruct media.
Qed.

Lemma rich_text_media_follow_the_components_witness :
  let c := extractMessageContent (Samples.richEvent "m1" mixedParts) in
  exists r,
    rich c = Some r /\
    codeAndKind <$> mediaFiles r = [("code-1", KImage); ("code-2", KFile)] /\
    mediaPath c = Some "code-1".
Proof.
  intros c.
  destruct (rich_text_media_follow_the_components (Samples.richEvent "m1" mixedParts))
    as (r & Hr & _ & Hmedia & _ & Hpath); [reflexivity|].
  exists r. split; [exact Hr|]. split; [by rewrite Hmedia|exact Hpath].
Defined.

(** ** File names, card titles and masked log data *)

Lemma Json_induction (P : Json -> Prop)
    (Hnull : P JNull) (Hbool : forall b, P (JBool b)) (Hnumber : forall n, P (JNumber n))
    (Hstring : forall s, P (JString s))
    (Harray : forall items, Forall P items -> P (JArray items))
    (Hobject : forall fields, Forall (fun kv => P kv.2) fields -> P (JObject fields)) :
  forall j, P j.
Proof.
  fix IH 1. intros [| b | n | s | items | fields]; [done | done | done | done | |].
  - apply Harray. induction items as [|x items IHl]; constructor; [apply IH|apply IHl].
  - apply Hobject. induction fields as [|[k v] fields IHl]; constructor; [apply IH|apply IHl].
Qed.

Lemma replaced_not_forbidden (c : N) :
  forbiddenInFileName (if forbiddenInFileName c then 95%N else c) = false.
Proof. by destruct (forbiddenInFileName c) eqn:Hc. Qed.

(** X24: a sanitized file name has at most 255 code units (those of the
    name, cut), holds no backslash, slash, colon, asterisk, question mark,
    double quote, less-than, greater-than or vertical bar, and is left
    unchanged when sanitized again; a name of at most 255 code units that
    holds none of them is returned as it is. *)
Theorem sanitized_name_is_safe (fileName : list N) :
  let safe := sanitizeFileName fileName in
  length safe = Nat.min 255 (length fileName) /\
  Forall (fun c => forbiddenInFileName c = false) safe /\
  sanitizeFileName safe = safe /\
  ((length fileName <= 255)%nat /\ Forall (fun c => forbiddenInFileName c = false) fileName
   <-> safe = fileName).
Proof.
  intros safe.
  assert (Hsafe : Forall (fun c => forbiddenInFileName c = false) safe).
  { subst safe. unfold sanitizeFileName. apply Forall_take, Forall_fmap, Forall_forall.
    intros c _. apply replaced_not_forbidden. }
  assert (Hid : forall l : list N, Forall (fun c => forbiddenInFileName c = false) l ->
            (fun c => if forbiddenInFileName c then 95%N else c) <$> l = l).
  { intros l Hl. induction Hl as [|c l Hc _ IH]; [done|]. csimpl. by rewrite Hc, IH. }
  assert (Hlen : length safe = Nat.min 255 (length fileName)).
  { subst safe. unfold sanitizeFileName. by rewrite length_take, length_fmap. }
  split; [done|]. split; [done|]. split; [|split].
  - unfold sanitizeFileName at 1. rewrite (Hid safe Hsafe). apply take_ge. lia.
  - intros [Hshort Hclean]. subst safe. unfold sanitizeFileName.
    rewrite (Hid fileName Hclean). by apply take_ge.
  - intros Heq. rewrite Heq in Hlen, Hsafe. split; [lia|done].
Qed.

Lemma firstLine_no_lf (text : list N) : 10%N ∉ firstLine text.
Proof.
  induction text as [|c text IH]; [apply not_elem_of_nil|]. cbn [firstLine].
  destruct (N.eqb_spec c 10) as [->|Hne]; [apply not_elem_of_nil|].
  rewrite not_elem_of_cons. by split.
Qed.

Lemma stripTitleLead_suffix (s : list N) : stripTitleLead s `suffix_of` s.
Proof.
  induction s as [|c s IH]; [done|]. cbn [stripTitleLead].
  case_bool_decide; [by apply suffix_cons_r|done].
Qed.

Lemma stripTitleLead_head (s : list N) (c : N) :
  head (stripTitleLead s) = Some c -> ~ titleLead c.
Proof.
  induction s as [|c0 s IH]; [done|]. cbn [stripTitleLead].
  case_bool_decide as Hlead; [done|]. intros [= <-]. exact Hlead.
Qed.

(** X25: the title derived for a message is never empty when the default
    title is not. A non-empty title given in the options is used as it is.
    Without one the title is the default title, or else (markdown in use)
    the beginning of the first line of the text with the leading heading,
    list and quote marks and white space taken off: at most 20 code units,
    no line feed, and not starting with such a mark or white space. *)
Theorem message_title_is_never_empty
    (text : list N) (options : SendMessageOptions) (defaultTitle : list N) :
  let out := detectMarkdownAndExtractTitle text options defaultTitle in
  (defaultTitle <> [] -> out.2 <> []) /\
  (forall t, title options = Some t -> t <> [] -> out.2 = t) /\
  (default [] (title options) = [] ->
     out.2 = defaultTitle \/
     (out.1 = true /\ (0 < length out.2 <= 20)%nat /\ (10%N ∉ out.2) /\
      out.2 `prefix_of` stripTitleLead (firstLine text) /\
      forall c, head out.2 = Some c -> ~ titleLead c)).
Proof.
  intros out. subst out. unfold detectMarkdownAndExtractTitle. cbv zeta. cbn [fst snd].
  set (useMd := match useMarkdown options with
                | Some false => false | Some true => true | None => hasMarkdown text end).
  set (line := stripTitleLead (firstLine text)).
  assert (Hderived :
    let derived := if useMd then orUnits (take 20 line) defaultTitle else defaultTitle in
    (defaultTitle <> [] -> derived <> []) /\
    (derived = defaultTitle \/
     (useMd = true /\ (0 < length derived <= 20)%nat /\ (10%N ∉ derived) /\
      derived `prefix_of` line /\ forall c, head derived = Some c -> ~ titleLead c))).
  { cbv zeta. destruct useMd; [|by split; [|left]].
    destruct (take 20 line) as [|c t] eqn:Htake; [by split; [|left]|].
    cbn [orUnits]. split; [done|]. right. split; [done|]. rewrite <- Htake.
    assert (Hpre : take 20 line `prefix_of` line) by apply prefix_take.
    split; [|split; [|split; [done|]]].
    - split; [rewrite Htake; simpl; lia|rewrite length_take; lia].
    - intros Hin. apply (firstLine_no_lf text).
      destruct (stripTitleLead_suffix (firstLine text)) as [k Hk]. fold line in Hk.
      destruct Hpre as [rest Hrest].
      rewrite Hk, Hrest, !elem_of_app. auto.
    - intros c' Hhead. apply (stripTitleLead_head (firstLine text)). fold line.
      destruct Hpre as [rest Hrest]. rewrite Hrest, Htake. rewrite Htake in Hhead. done. }
  cbv zeta in Hderived. destruct Hderived as [Hne Hshape].
  split; [|split].
  - intros Hdefault. destruct (default [] (title options)); [by apply Hne|done].
  - intros t -> Ht. cbn [default]. by destruct t.
  - by intros ->.
Qed.

Lemma message_title_is_never_empty_witness :
  let out :=
    detectMarkdownAndExtractTitle (units "## Report of the week, part one")
      {| useMarkdown := None; title := None |} (units "Message") in
  out.2 <> [] /\ out = (true, units "Report of the week, ").
Proof.
  intros out. split; [|reflexivity].
  apply (message_title_is_never_empty (units "## Report of the week, part one")
           {| useMarkdown := None; title := None |} (units "Message")).
  discriminate.
Defined.

Lemma maskString_length (val : list N) : length (maskString val) = length val.
Proof.
  unfold maskString. case_bool_decide as Hlong.
  - rewrite !length_app, length_take, length_replicate, length_drop. lia.
  - apply length_replicate.
Qed.

Lemma maskString_lookup (val : list N) (i : nat) :
  (i < length val)%nat ->
  maskString val !! i = if bool_decide (6 < length val /\ (i < 3 \/ length val - 3 <= i))%nat
                        then val !! i else Some 42%N.
Proof.
  intros Hi. unfold maskString. case_bool_decide as Hlong.
  - destruct (decide (i < 3)%nat) as [Hfirst|Hnot].
    + rewrite bool_decide_eq_true_2 by (split; [done|by left]).
      rewrite lookup_app_l by (rewrite length_take; lia). by apply lookup_take_lt.
    + rewrite lookup_app_r by (rewrite length_take; lia). rewrite length_take.
      replace (3 `min` length val)%nat with 3%nat by lia.
      destruct (decide (length val - 3 <= i)%nat) as [Hlast|Hmid].
      * rewrite bool_decide_eq_true_2 by (split; [done|by right]).
        rewrite lookup_app_r by (rewrite length_replicate; lia).
        rewrite length_replicate, lookup_drop. f_equal. lia.
      * rewrite bool_decide_eq_false_2 by lia.
        rewrite lookup_app_l by (rewrite length_replicate; lia).
        apply lookup_replicate_2. lia.
  - rewrite bool_decide_eq_false_2 by (intros [? _]; lia).
    by apply lookup_replicate_2.
Qed.

Lemma maskString_idem (val : list N) : maskString (maskString val) = maskString val.
Proof.
  apply list_eq. intros i.
  destruct (decide (i < length val)%nat) as [Hi|Hi].
  - rewrite (maskString_lookup (maskString val)) by (by rewrite maskString_length).
    rewrite maskString_length. case_bool_decide as Hshown; [done|].
    rewrite maskString_lookup by done. by rewrite bool_decide_eq_false_2.
  - rewrite !lookup_ge_None_2; [done|rewrite maskString_length; lia|].
    rewrite !maskString_length. lia.
Qed.

Lemma maskObj_idem (data : Json) : maskObj (maskObj data) = maskObj data.
Proof.
  induction data as [| | | |items IH|fields IH] using Json_induction; try done.
  - cbn [maskObj]. f_equal. rewrite map_map. apply map_ext_Forall.
    eapply Forall_impl; [exact IH|]. by intros x Hx.
  - cbn [maskObj]. f_equal. rewrite map_map. apply map_ext_Forall.
    eapply Forall_impl; [exact IH|]. intros [k v] Hv. cbn beta. cbn [fst snd] in *.
    destruct (bool_decide (k ∈ sensitiveFields)) eqn:Hk.
    + destruct v; cbn [fst snd]; rewrite Hk; cbn [fst snd]; by rewrite ?maskString_idem.
    + cbn [fst snd]. by rewrite Hk, Hv.
Qed.

(** X26: masking log data twice is the same as masking it once. A string
    under a key [token] or [accessToken] keeps its length; its code units
    are replaced by asterisks, except the first three and the last three
    of a string of more than six. A value under such a key that is not a
    string is left as it is, with everything inside it. *)
Theorem masking_hides_all_but_six_code_units :
  (forall data, maskSensitiveData (maskSensitiveData data) = maskSensitiveData data) /\
  (forall val, length (maskString val) = length val) /\
  (forall val i, (i < length val)%nat -> ~ shown val i -> maskString val !! i = Some 42%N) /\
  (forall val i, shown val i -> maskString val !! i = val !! i) /\
  (forall key val fields,
     key ∈ sensitiveFields ->
     maskSensitiveData (JObject ((key, JString val) :: fields)) =
       match maskSensitiveData (JObject fields) with
       | JObject fields' => JObject ((key, JString (maskString val)) :: fields')
       | other => other
       end) /\
  (forall key inner fields,
     key ∈ sensitiveFields ->
     maskSensitiveData (JObject ((key, JObject inner) :: fields)) =
       match maskSensitiveData (JObject fields) with
       | JObject fields' => JObject ((key, JObject inner) :: fields')
       | other => other
       end).
Proof.
  split; [apply maskObj_idem|]. split; [apply maskString_length|].
  split; [|split; [|split]].
  - intros val i Hi Hhidden. rewrite maskString_lookup by done.
    by rewrite bool_decide_eq_false_2.
  - intros val i Hshown. destruct (decide (i < length val)%nat) as [Hi|Hi].
    + rewrite maskString_lookup by done. by rewrite bool_decide_eq_true_2.
    + rewrite !lookup_ge_None_2; [done|lia|rewrite maskString_length; lia].
  - intros key val fields Hkey. unfold maskSensitiveData. cbn [maskObj map fst snd].
    by rewrite bool_decide_eq_true_2.
  - intros key inner fields Hkey. unfold maskSensitiveData. cbn [maskObj map fst snd].
    by rewrite bool_decide_eq_true_2.
Qed.

Lemma masking_hides_all_but_six_code_units_witness :
  maskSensitiveData sampleLogData =
    JObject
      [ ("msgId", JString (units "m-1"));
        ("token", JString (units "abc****hij"));
        ("nested", JArray [ JObject [ ("accessToken", JString (units "******")) ] ]);
        ("accessToken", JObject [ ("token", JNumber 7) ]) ] /\
  maskSensitiveData (maskSensitiveData sampleLogData) = maskSensitiveData sampleLogData.
Proof.
  split; [reflexivity|].
  apply (proj1 masking_hides_all_but_six_code_units).
Defined.
